(** * spex: the sequence and page drivers

    A shallow embedding of the pull loops of [lib/ext/sequence.js] and
    [lib/ext/page.js], of the helpers of [lib/utils/static.js] ([isPromise],
    [extend], [messageGap], [getStack], [formatError]), and of the parts of
    the JavaScript host they rely on (values, [typeof], truthiness,
    [Number::toString], [parseInt], [Object.defineProperty], [split] and
    [join]).

    Conventions.
    - A JavaScript value is a term of [JS.value].  Own string-keyed
      properties of a plain object are a [gmap]; the [length] of arrays and
      strings is not a property of this model (the drivers never read it
      through a property access on a value).
    - A Number is kept as the decimal that [Number::toString] prints: sign,
      significand digits and the decimal exponent [n] of ECMAScript's
      [(n, k, s)] decomposition.  Every finite double has such a form.
    - The clock, the mixed-value resolver, the callback wrapper and batch are
      not part of the files embedded here; the drivers take them as section
      variables, and with them whether a deferred calls back on a later
      turn of the event loop or at once. *)

From Stdlib Require Import ZArith Ascii String List Lia DecimalString.
From stdpp Require Import base option list strings gmap.

#[local] Set Warnings "-register-all".
#[local] Open Scope Z_scope.

(* ================================================================== *)
(** ** JavaScript values and host operations                           *)
(* ================================================================== *)

Module JS.

Inductive digit : Set := d0 | d1 | d2 | d3 | d4 | d5 | d6 | d7 | d8 | d9.

(** [Finite neg d ds n] is the number [± s × 10^(n − k)] where [s] is the
    integer written [d :: ds] and [k] its number of digits. *)
Inductive number : Set :=
| NaN
| Infinity (neg : bool)
| Zero
| Finite (neg : bool) (d : digit) (ds : list digit) (n : Z).

Inductive value : Type :=
| VUndefined
| VNull
| VBool (b : bool)
| VNum (x : number)
| VStr (s : string)
| VFun (name : string) (id : nat)
| VArr (elems : list value)
| VObj (props : gmap string value).

Definition digit_val (d : digit) : Z :=
  match d with
  | d0 => 0 | d1 => 1 | d2 => 2 | d3 => 3 | d4 => 4
  | d5 => 5 | d6 => 6 | d7 => 7 | d8 => 8 | d9 => 9
  end.

Definition digit_char (d : digit) : ascii :=
  match d with
  | d0 => "0" | d1 => "1" | d2 => "2" | d3 => "3" | d4 => "4"
  | d5 => "5" | d6 => "6" | d7 => "7" | d8 => "8" | d9 => "9"
  end%char.

(** The integer written by a digit list, most significant digit first,
    continuing from [acc]. *)
Fixpoint digits_val (acc : Z) (ds : list digit) : Z :=
  match ds with
  | [] => acc
  | d :: ds' => digits_val (10 * acc + digit_val d) ds'
  end.

Fixpoint digits_string (ds : list digit) : string :=
  match ds with
  | [] => EmptyString
  | d :: ds' => String (digit_char d) (digits_string ds')
  end.

Fixpoint zeros (n : nat) : string :=
  match n with
  | O => EmptyString
  | S n' => String "0" (zeros n')
  end.

(** Decimal text of a non-negative integer (the exponent part). *)
Definition nat_string (e : Z) : string :=
  NilZero.string_of_uint (N.to_uint (Z.to_N e)).

(** [Number::toString] on a positive finite number with digits [ds] and
    exponent [n] (ECMAScript, steps 5 to 10 of Number::toString). *)
Definition finite_toString (ds : list digit) (n : Z) : string :=
  let k := Z.of_nat (length ds) in
  if (k <=? n) && (n <=? 21) then
    digits_string ds +:+ zeros (Z.to_nat (n - k))
  else if (0 <? n) && (n <=? 21) then
    digits_string (take (Z.to_nat n) ds) +:+ "." +:+
    digits_string (drop (Z.to_nat n) ds)
  else if (-6 <? n) && (n <=? 0) then
    "0." +:+ zeros (Z.to_nat (- n)) +:+ digits_string ds
  else
    let e := n - 1 in
    let sign : string := if e <? 0 then "-" else "+" in
    let mantissa :=
      match ds with
      | d :: (_ :: _) as rest =>
          String (digit_char d) ("." +:+ digits_string rest)
      | _ => digits_string ds
      end in
    mantissa +:+ "e" +:+ sign +:+ nat_string (Z.abs e).

Definition number_toString (x : number) : string :=
  let minus (neg : bool) : string := if neg then "-" else "" in
  match x with
  | NaN => "NaN"
  | Zero => "0"
  | Infinity neg => minus neg +:+ "Infinity"
  | Finite neg d ds n => minus neg +:+ finite_toString (d :: ds) n
  end.

(** [x > 0] on Numbers. *)
Definition number_gt_zero (x : number) : bool :=
  match x with
  | NaN | Zero => false
  | Infinity neg => negb neg
  | Finite neg d ds _ => negb neg && (0 <? digits_val 0 (d :: ds))
  end.

(** The integer part of a Number, rounding toward zero; [None] where the
    number has none (NaN, infinities). *)
Definition number_trunc (x : number) : option Z :=
  match x with
  | NaN | Infinity _ => None
  | Zero => Some 0
  | Finite neg d ds n =>
      let k := Z.of_nat (length (d :: ds)) in
      let s := digits_val 0 (d :: ds) in
      let m := if k <=? n then s * 10 ^ (n - k) else s / 10 ^ (k - n) in
      Some (if neg then - m else m)
  end.

(** The Number [x] is the integer [L], written with at most 21 digits:
    all the digits of [x] stand before the decimal point ([k <= n]) and
    [x < 1e21] ([n <= 21]). *)
Definition is_integer (x : number) (L : Z) : Prop :=
  match x with
  | Finite false d ds n =>
      let k := Z.of_nat (length (d :: ds)) in
      k <= n <= 21 /\ L = digits_val 0 (d :: ds) * 10 ^ (n - k)
  | _ => False
  end.

(* ------------------------------------------------------------------ *)
(** *** parseInt                                                       *)

Definition is_whitespace (c : ascii) : bool :=
  let n := nat_of_ascii c in
  ((9 <=? n) && (n <=? 13))%nat || (n =? 32)%nat || (n =? 160)%nat.

Fixpoint trim_left (s : string) : string :=
  match s with
  | String c s' => if is_whitespace c then trim_left s' else s
  | EmptyString => s
  end.

(** Value of a character as a digit of the given radix (10 or 16). *)
Definition char_digit (radix : Z) (c : ascii) : option Z :=
  let n := Z.of_nat (nat_of_ascii c) in
  let v :=
    if (48 <=? n) && (n <=? 57) then Some (n - 48)
    else if (97 <=? n) && (n <=? 122) then Some (n - 87)
    else if (65 <=? n) && (n <=? 90) then Some (n - 55)
    else None in
  match v with
  | Some d => if d <? radix then Some d else None
  | None => None
  end.

(** Reads the longest prefix of radix digits; [seen] tells whether a digit
    was read already. *)
Fixpoint parse_digits (radix : Z) (seen : bool) (acc : Z) (s : string)
  : option Z :=
  match s with
  | String c s' =>
      match char_digit radix c with
      | Some d => parse_digits radix true (radix * acc + d) s'
      | None => if seen then Some acc else None
      end
  | EmptyString => if seen then Some acc else None
  end.

(** [parseInt(string)] with no radix argument; [None] is NaN. *)
Definition parseInt_string (input : string) : option Z :=
  let s := trim_left input in
  let '(sign, s) :=
    match s with
    | String "-" r => (-1, r)
    | String "+" r => (1, r)
    | _ => (1, s)
    end in
  let '(radix, s) :=
    match s with
    | String "0" (String "x" r) => (16, r)
    | String "0" (String "X" r) => (16, r)
    | _ => (10, s)
    end in
  match parse_digits radix false 0 s with
  | Some m => Some (sign * m)
  | None => None
  end.

(** What may follow the integer digits in the text of a Number. *)
Definition ends_integer (rest : string) : Prop :=
  rest = EmptyString \/ exists r, rest = String "." r \/ rest = String "e" r.

(* ------------------------------------------------------------------ *)
(** *** typeof, truthiness, property reads                             *)

Definition typeof (v : value) : string :=
  match v with
  | VUndefined => "undefined"
  | VNull => "object"
  | VBool _ => "boolean"
  | VNum _ => "number"
  | VStr _ => "string"
  | VFun _ _ => "function"
  | VArr _ | VObj _ => "object"
  end.

(** ToBoolean. *)
Definition truthy (v : value) : bool :=
  match v with
  | VUndefined | VNull => false
  | VBool b => b
  | VNum NaN | VNum Zero => false
  | VNum _ => true
  | VStr s => negb (String.eqb s "")
  | VFun _ _ | VArr _ | VObj _ => true
  end.

(** [v.key] for a named property: the own properties of a plain object and
    the [name] of a function; everything else reads as [undefined]. *)
Definition get_prop (v : value) (key : string) : value :=
  match v with
  | VObj props => default VUndefined (props !! key)
  | VFun name _ => if String.eqb key "name" then VStr name else VUndefined
  | _ => VUndefined
  end.

(** [v === undefined]. *)
Definition is_undefined (v : value) : bool :=
  match v with
  | VUndefined => true
  | _ => false
  end.

(** [v instanceof Array], with the elements when it holds. *)
Definition as_array (v : value) : option (list value) :=
  match v with
  | VArr elems => Some elems
  | _ => None
  end.

(** [new Error(message)], seen through its [name] and [message]. *)
Definition Error (message : string) : value :=
  VObj (<["name" := VStr "Error"]> (<["message" := VStr message]> ∅)).

(** The values the claims call non-null, non-callable objects. *)
Definition is_plain_object (v : value) : bool :=
  match v with
  | VArr _ | VObj _ => true
  | _ => false
  end.

(* ------------------------------------------------------------------ *)
(** *** Coercions and the normalisation of [limit]                     *)

Section Coercions.

(** ECMAScript's ToNumber on strings and objects and ToString on objects
    (both go through string grammar or user-definable [valueOf] and
    [toString]) are left to the host. *)
Variable host_ToNumber : value -> number.
Variable host_ToString : value -> string.

Definition ToNumber (v : value) : number :=
  match v with
  | VUndefined => NaN
  | VNull => Zero
  | VBool b => if b then Finite false d1 [] 1 else Zero
  | VNum x => x
  | VStr _ | VFun _ _ | VArr _ | VObj _ => host_ToNumber v
  end.

Definition ToString (v : value) : string :=
  match v with
  | VUndefined => "undefined"
  | VNull => "null"
  | VBool b => if b then "true" else "false"
  | VNum x => number_toString x
  | VStr s => s
  | VFun _ _ | VArr _ | VObj _ => host_ToString v
  end.

(** [v > 0]. *)
Definition gt_zero (v : value) : bool := number_gt_zero (ToNumber v).

(** [parseInt(v)]. *)
Definition parseInt (v : value) : option Z := parseInt_string (ToString v).

(** sequence.js line 90, page.js line 81:
    [limit = (limit > 0) ? parseInt(limit) : 0].  The result is a Number
    that is an integer or NaN ([None]).  On the values of this model the
    line always returns: there is no Symbol among them, and the host
    coercions of objects are total. *)
Definition normalize_limit (limit : value) : option Z :=
  if gt_zero limit then parseInt limit else Some 0.

End Coercions.

End JS.

(* ================================================================== *)
(** ** lib/utils/static.js                                             *)
(* ================================================================== *)

Module Static.
Import JS.

(** [function isPromise(value) { return value && typeof value.then === 'function'; }]
    (the older copy tests [value.then instanceof Function]; the two agree
    on the values of this model). *)
Definition isPromise (value : value) : bool :=
  truthy value && String.eqb (typeof (get_prop value "then")) "function".

(** A property descriptor, as [Object.defineProperty] takes it. *)
Record descriptor (A : Type) : Type := Descriptor {
  d_value : A;
  d_configurable : bool;
  d_enumerable : bool;
  d_writable : bool
}.
Arguments Descriptor {A} _ _ _ _.
Arguments d_value {A} _.
Arguments d_configurable {A} _.
Arguments d_enumerable {A} _.
Arguments d_writable {A} _.

(** An array object: its elements and its named own properties (other than
    [length]), each with its attributes.  [A] is the type of the values of
    the named properties. *)
Record array_object (A : Type) : Type := ArrayObject {
  elems : list value;
  named : gmap string (descriptor A)
}.
Arguments ArrayObject {A} _ _.
Arguments elems {A} _.
Arguments named {A} _.

(** [[]]. *)
Definition empty_array {A} : array_object A := ArrayObject [] ∅.

(** [arr.push(v)]. *)
Definition push {A} (arr : array_object A) (v : value) : array_object A :=
  ArrayObject (elems arr ++ [v]) (named arr).

(** [Object.defineProperty(obj, name, desc)] with a full data descriptor.
    A new property is created with these attributes and an existing
    configurable one is replaced.  An existing non-configurable one accepts
    the call only if it stays non-configurable, keeps its enumerability
    and, when it is read-only, stays read-only with the same value;
    otherwise the call throws a TypeError ([None]). *)
Definition defineProperty {A} `{EqDecision A} (obj : array_object A)
    (name : string) (desc : descriptor A) : option (array_object A) :=
  let defined := ArrayObject (elems obj) (<[name := desc]> (named obj)) in
  match named obj !! name with
  | None => Some defined
  | Some old =>
      if d_configurable old then Some defined
      else if negb (d_configurable desc)
              && Bool.eqb (d_enumerable desc) (d_enumerable old)
              && (d_writable old
                  || (negb (d_writable desc)
                      && bool_decide (d_value desc = d_value old)))
      then Some defined
      else None
  end.

(** [function extend(obj, name, value)]: sets an object property as
    read-only and non-enumerable. *)
Definition extend {A} `{EqDecision A} (obj : array_object A) (name : string)
    (value : A)
  : option (array_object A) :=
  defineProperty obj name
    {| d_value := value;
       d_configurable := false;
       d_enumerable := false;
       d_writable := false |}.

(* ------------------------------------------------------------------ *)
(** *** Console output: [messageGap], [getStack], [formatError]        *)

(** The character of ['\n']. *)
Definition line_feed : ascii := ascii_of_nat 10.

(** ['\n']. *)
Definition new_line : string := String line_feed EmptyString.

(** [parts.join(sep)] on an array of strings; a hole of the array joins
    as the empty string. *)
Fixpoint join (sep : string) (parts : list string) : string :=
  match parts with
  | [] => EmptyString
  | part :: rest =>
      match rest with
      | [] => part
      | _ :: _ => part +:+ sep +:+ join sep rest
      end
  end.

(** [s.split(sep)] for a separator of one character. *)
Fixpoint split (sep : ascii) (s : string) : list string :=
  match s with
  | EmptyString => [EmptyString]
  | String c s' =>
      if Ascii.eqb c sep then EmptyString :: split sep s'
      else
        match split sep s' with
        | first :: rest => String c first :: rest
        | [] => [String c EmptyString]
        end
  end.

(** Whether the character [c] occurs in [s]. *)
Fixpoint occurs (c : ascii) (s : string) : bool :=
  match s with
  | EmptyString => false
  | String c' s' => Ascii.eqb c' c || occurs c s'
  end.

(** [n] spaces. *)
Fixpoint spaces (n : nat) : string :=
  match n with
  | O => EmptyString
  | S n' => String " " (spaces n')
  end.

(** [function messageGap(level) { return Array(1 + level * 4).join(' '); }]
    for a level that is a natural number; [Array(n)] is an array of [n]
    holes. *)
Definition messageGap (level : nat) : string :=
  join " " (replicate (1 + level * 4) EmptyString).

(** The characters that [.] does not match in a regular expression, among
    those of this model: line feed and carriage return. *)
Definition is_line_terminator (c : ascii) : bool :=
  Ascii.eqb c line_feed || Ascii.eqb c (ascii_of_nat 13).

(** Whether a prefix of [s] matches [.*\)]. *)
Fixpoint closes (s : string) : bool :=
  match s with
  | EmptyString => false
  | String c r =>
      Ascii.eqb c ")" || (negb (is_line_terminator c) && closes r)
  end.

(** Whether a prefix of [s] matches [.*(\\+|\/+).*\)]. *)
Fixpoint path_then_closes (s : string) : bool :=
  match s with
  | EmptyString => false
  | String c r =>
      ((Ascii.eqb c "\" || Ascii.eqb c "/") && closes r)
      || (negb (is_line_terminator c) && path_then_closes r)
  end.

(** [line.match(/\(.*(\\+|\/+).*\)/)] finds a match: the line contains
    [\] or [/] inside brackets. *)
Fixpoint has_bracketed_path (line : string) : bool :=
  match line with
  | EmptyString => false
  | String c r =>
      (Ascii.eqb c "(" && path_then_closes r) || has_bracketed_path r
  end.

(** [function getStack(error, level)], on [error.stack]. *)
Definition getStack (stack : string) (level : nat) : string :=
  let gap := messageGap level in
  join new_line
    (map (fun line => gap +:+ line)
       (List.filter has_bracketed_path (split line_feed stack))).

(** [names.indexOf(name) === -1] is false for
    [names = ['BatchError', 'PageError', 'SequenceError']]. *)
Definition is_spex_error (name : value) : bool :=
  match name with
  | VStr s =>
      bool_decide (s ∈ ["BatchError"; "PageError"; "SequenceError"]%string)
  | _ => false
  end.

(** [function formatError(error, level)].  Of [error] the function uses
    [util.inspect(error)], [error instanceof Error], [error.name] and
    [error.toString(level)]. *)
Definition formatError (inspect : string) (is_error : bool) (name : value)
    (own_toString : nat -> string) (level : nat) : string :=
  if is_error then
    if negb (is_spex_error name) then
      let gap := messageGap level in
      join new_line
        (imap (fun index line =>
                 (match index with O => EmptyString | S _ => gap end) +:+ line)
           (split line_feed inspect))
    else own_toString level
  else inspect.

End Static.

(* ================================================================== *)
(** ** lib/errors: PageError and SequenceError                         *)
(* ================================================================== *)

Module Errors.
Import JS.

(** The object literal handed to [fail]: [{error, source}], [{error, dest}]
    or [{error}], to which [fail] adds [index].  An absent key is [None]. *)
Record reason : Type := Reason {
  r_error : value;
  r_source : option value;
  r_dest : option value;
  r_index : option nat
}.

Definition set_index (r : reason) (idx : nat) : reason :=
  {| r_error := r_error r; r_source := r_source r; r_dest := r_dest r;
     r_index := Some idx |}.

(** The properties of a PageError or SequenceError that the drivers
    determine.  A property that was not set is [None]. *)
Record driver_error : Type := DriverError {
  name : string;
  error : value;
  index : option nat;
  duration : Z;
  code : nat;
  cbName : value;
  source : option value;
  dest : option value
}.

(** Modelled from the spec: the constructor of errors/sequence.js is not
    among the embedded files.  Section 4.E: the error carries [error],
    [index], [duration], a reason derived from the reason code and the
    callback name, and the one of [source] / [dest] that the reason object
    sets. *)
Definition SequenceError (e : reason) (code : nat) (cbName : value)
    (duration : Z) : driver_error :=
  {| name := "SequenceError"; error := r_error e; index := r_index e;
     duration := duration; code := code; cbName := cbName;
     source := r_source e; dest := r_dest e |}.

(** Modelled from the spec: the constructor of errors/page.js is not among
    the embedded files.  Section 4.E, as for [SequenceError]; for reason
    code 0 the reason object sets neither [source] nor [dest]. *)
Definition PageError (e : reason) (code : nat) (cbName : value)
    (duration : Z) : driver_error :=
  {| name := "PageError"; error := r_error e; index := r_index e;
     duration := duration; code := code; cbName := cbName;
     source := r_source e; dest := r_dest e |}.

(** Whether a property was set. *)
Definition is_set (p : option value) : bool :=
  match p with
  | Some _ => true
  | None => false
  end.

(** How many of [source] and [dest] an error has set. *)
Definition populated (e : driver_error) : nat :=
  ((if is_set (source e) then 1 else 0) + (if is_set (dest e) then 1 else 0))%nat.

End Errors.

(* ================================================================== *)
(** ** What the drivers exchange with the resolver and the callbacks   *)
(* ================================================================== *)

Module Driver.
Import JS.

(** The third argument of a callback: [undefined] at index 0, otherwise
    the milliseconds since the previous call started. *)
Inductive delay : Type :=
| DelayUndefined
| DelayMs (ms : Z)
| DelayNaN.

(** [now - time], where [time] is still [undefined] ([None]) before the
    first call. *)
Definition since (now : Z) (time : option Z) : delay :=
  match time with
  | Some t => DelayMs (now - t)
  | None => DelayNaN
  end.

(** [idx ? (now - time) : undefined]. *)
Definition delay_at (idx : nat) (now : Z) (time : option Z) : delay :=
  match idx with
  | O => DelayUndefined
  | S _ => since now time
  end.

(** Which callback the resolver invokes, and with what:
    [onSuccess(value, delayed)] or [onError(reason, isRej)]. *)
Inductive resolution : Type :=
| OnSuccess (value : value) (delayed : bool)
| OnError (reason : value) (isRej : bool).

(** A call either returns a value or throws one. *)
Inductive completion : Type :=
| Returns (v : value)
| Throws (e : value).

(** Which continuation of [promise.then(f).catch(g)] runs. *)
Inductive settlement : Type :=
| Fulfils (v : value)
| Rejects (error : value).

(** What a driver's promise is rejected with. *)
Inductive rejection : Type :=
| TypeError (message : string)
| Failure (e : Errors.driver_error).

(** How a run ends: the promise is resolved or rejected, or [extend]
    throws in [success] before either happens ([Threw]).  [extend] is the
    one call of the loop that this model lets throw: what [limit > 0]
    throws on a Symbol or on an object whose [valueOf] throws, and what
    [.then(..).catch(..)] throws on a thenable whose [then] returns nothing
    with a [catch], is outside of it. *)
Inductive outcome (R : Type) : Type :=
| Resolved (r : R)
| Rejected (e : rejection)
| Threw.
Arguments Resolved {R} _.
Arguments Rejected {R} _.
Arguments Threw {R}.

(** What a run does, in order.  [Loop idx frames]: [loop(idx)] starts with
    [frames] activations of [loop] on the call stack, itself included.
    [Source] and [Dest]: the callback is called with these arguments.
    [Direct idx]: [next] calls [loop(idx)] itself.  [Scheduled idx]:
    [next] hands [loop(idx)] to [$p.resolve().then]. *)
Inductive event : Type :=
| Loop (idx : nat) (frames : nat)
| Source (idx : nat) (data : value) (delay : delay)
| Dest (idx : nat) (data : value) (delay : delay)
| Direct (idx : nat)
| Scheduled (idx : nat).

(** [limit === idx]. *)
Definition limit_is (limit : option Z) (idx : nat) : bool :=
  match limit with
  | Some l => l =? Z.of_nat idx
  | None => false
  end.

(** The numbers of activations of [loop] on the stack at the activations
    of a run, in order. *)
Definition activations (trace : list event) : list nat :=
  omap (fun ev => match ev with Loop _ f => Some f | _ => None end) trace.

(** The indices the source was called with, in call order. *)
Definition source_indices (trace : list event) : list nat :=
  omap (fun ev => match ev with Source i _ _ => Some i | _ => None end) trace.

(** The values of a run that a resolver [resolve] delivered for the calls
    of [source] and that were not [undefined], in call order. *)
Definition resolved_values
    (resolve : value -> nat -> value -> delay -> resolution)
    (source : value) (trace : list event) : list value :=
  omap (fun ev =>
          match ev with
          | Source i d dl =>
              match resolve source i d dl with
              | OnSuccess VUndefined _ => None
              | OnSuccess v _ => Some v
              | OnError _ _ => None
              end
          | _ => None
          end) trace.

(** Whether some call of [source] in the run resolved with [undefined]. *)
Definition ended_by_undefined
    (resolve : value -> nat -> value -> delay -> resolution)
    (source : value) (trace : list event) : Prop :=
  exists i d dl delayed,
    In (Source i d dl) trace /\
    resolve source i d dl = OnSuccess VUndefined delayed.

(** What a callback may be handed as its delay when the clock never runs
    backwards: [undefined] at index 0, and a number of milliseconds that is
    not negative at every later index. *)
Definition well_timed (idx : nat) (dl : delay) : Prop :=
  match idx, dl with
  | O, DelayUndefined => True
  | S _, DelayMs ms => 0 <= ms
  | _, _ => False
  end.

End Driver.

(* ================================================================== *)
(** ** The mixed-value resolver                                        *)
(* ================================================================== *)

Module Resolver.
Import JS Static Driver.

Section Resolver.

(** [f.call(self, idx, data, delay)] for a callable [f]. *)
Variable call : value -> nat -> value -> delay -> completion.
(** How a deferred settles. *)
Variable settle : value -> settlement.

(** Modelled from the spec: [$utils.resolve] is not among the embedded
    files.  Section 4.D: (1) a callable input is invoked with the supplied
    arguments, a throw fails with [isRej = false], and the returned value
    replaces the input; (2) a deferred input fails with [isRej = true] when
    it rejects, and when it fulfils the resolver goes on with the fulfilment
    value, [delayed] now being true; (3) any other input is delivered to
    [onSuccess] with the current [delayed].  [fuel] bounds the number of
    deferreds awaited; [None] means the bound was reached. *)
Fixpoint resolve (fuel : nat) (input : value) (idx : nat) (data : value)
    (delay : delay) (delayed : bool) : option resolution :=
  match fuel with
  | O => None
  | S fuel' =>
      let invoked :=
        if String.eqb (typeof input) "function"
        then call input idx data delay
        else Returns input in
      match invoked with
      | Throws e => Some (OnError e false)
      | Returns v =>
          if isPromise v then
            match settle v with
            | Rejects reason => Some (OnError reason true)
            | Fulfils v' => resolve fuel' v' idx data delay true
            end
          else Some (OnSuccess v delayed)
      end
  end.

(** A resolver, as the drivers take it, reports for this call what the
    resolver of the spec reports. *)
Definition agrees
    (resolver : value -> nat -> value -> delay -> resolution)
    (source : value) (idx : nat) (data : value) (delay : delay) : Prop :=
  exists fuel,
    resolve fuel source idx data delay false
    = Some (resolver source idx data delay).

End Resolver.

End Resolver.

(* ================================================================== *)
(** ** lib/ext/sequence.js                                             *)
(* ================================================================== *)

Module Sequence.
Import JS Static Errors Driver.

(** What a successful sequence resolves with: [{total, duration}], or the
    tracked array extended with [duration]. *)
Inductive result : Type :=
| Summary (total : nat) (duration : Z)
| Tracked (arr : array_object Z).

(** The variables of [sequence] that [loop] and its helpers update:
    [data], [srcTime], [destTime], [result]; and, for the model, the
    number of readings of [Date.now()] taken so far and the number of
    activations of [loop] on the call stack. *)
Record state : Type := State {
  data : value;
  srcTime : option Z;
  destTime : option Z;
  tracked : array_object Z;
  clock : nat;
  frames : nat
}.

Definition set_data (st : state) (v : value) : state :=
  State v (srcTime st) (destTime st) (tracked st) (clock st) (frames st).

Definition set_srcTime (st : state) (t : Z) : state :=
  State (data st) (Some t) (destTime st) (tracked st) (clock st) (frames st).

Definition set_destTime (st : state) (t : Z) : state :=
  State (data st) (srcTime st) (Some t) (tracked st) (clock st) (frames st).

Definition set_tracked (st : state) (arr : array_object Z) : state :=
  State (data st) (srcTime st) (destTime st) arr (clock st) (frames st).

Definition set_frames (st : state) (n : nat) : state :=
  State (data st) (srcTime st) (destTime st) (tracked st) (clock st) n.

(** One more reading of [Date.now()] was taken. *)
Definition tick (st : state) : state :=
  State (data st) (srcTime st) (destTime st) (tracked st) (S (clock st))
        (frames st).

(** A callback that runs on a later turn of the event loop finds no
    activation of [loop] left on the stack. *)
Definition on_new_turn (st : state) : state := set_frames st 0.

(** The stack as a callback finds it: empty when the callback runs on a
    later turn, and as it was when the callback is called back at once. *)
Definition arrive (st : state) (later : bool) : state :=
  if later then on_new_turn st else st.

(** Where one activation of [loop] leads: the promise is settled, or [next]
    starts the following iteration, directly or through the scheduler. *)
Inductive step : Type :=
| Stop (o : outcome result)
| Recurse (idx : nat) (st : state)
| Defer (idx : nat) (st : state).

Section Sequence.

(** [Date.now()]: the reading taken after [n] earlier readings. *)
Variable now : nat -> Z.
(** [$utils.wrap]. *)
Variable wrap : value -> value.
(** [$utils.resolve.call(self, source, [idx, data, delay], onSuccess, onError)]:
    the callback the resolver ends up invoking, and its arguments. *)
Variable resolve : value -> nat -> value -> delay -> resolution.
(** [dest.call(self, idx, data, delay)]. *)
Variable call : value -> nat -> value -> delay -> completion.
(** How a promise returned by [dest] settles. *)
Variable settle : value -> settlement.
(** Whether the deferred that this call of [source] led the resolver to
    await calls back on a later turn of the event loop, as a Promises/A+
    promise does, or at once, inside its [then], as a plain thenable may.
    It is read only for a resolution reported with [delayed = true]: a
    value that is no deferred is delivered at once. *)
Variable source_later : value -> nat -> value -> delay -> bool.
(** Whether the [then] of a promise returned by [dest] calls back on a
    later turn of the event loop, or at once. *)
Variable sink_later : value -> bool.
Variable host_ToNumber : value -> number.
Variable host_ToString : value -> string.

Section Loop.

(** The variables of [sequence] that stay fixed while the loop runs. *)
Variable source dest : value.
Variable limit : option Z.
Variable track : value.
Variable start : Z.

(** [function success()]. *)
Definition success (idx : nat) (st : state) : outcome result :=
  let length := now (clock st) - start in
  if truthy track then
    match extend (tracked st) "duration" length with
    | Some arr => Resolved (Tracked arr)
    | None => Threw
    end
  else Resolved (Summary idx length).

(** [function fail(reason, code, cbName)]. *)
Definition fail (idx : nat) (st : state) (reason : reason) (code : nat)
    (cbName : value) : outcome result :=
  let reason := set_index reason idx in
  Rejected (Failure (SequenceError reason code cbName (now (clock st) - start))).

(** [function next(delayed)]. *)
Definition next (idx : nat) (st : state) (delayed : bool) : step :=
  let idx := S idx in
  if limit_is limit idx then Stop (success idx st)
  else if delayed then Recurse idx st
  else Defer idx st.

(** The end of the success callback: [if (dest) {...} else { next(delayed); }].
    A promise returned by [dest] is taken to have a [then] that returns a
    promise, so that [.then(..).catch(..)] does not throw. *)
Definition notify (idx : nat) (st : state) (delayed : bool)
  : list event * step :=
  if truthy dest then
    let destNow := now (clock st) in
    let destDelay := delay_at idx destNow (destTime st) in
    let st := tick (set_destTime st destNow) in
    let called := [Dest idx (data st) destDelay] in
    match call dest idx (data st) destDelay with
    | Throws e =>
        (called,
         Stop (fail idx st (Reason e None (Some (data st)) None) 3
                    (get_prop dest "name")))
    | Returns destResult =>
        if isPromise destResult then
          match settle destResult with
          | Fulfils _ =>
              (called, next idx (arrive st (sink_later destResult)) true)
          | Rejects error =>
              (called,
               Stop (fail idx st
                          (Reason error None (Some (data st)) None) 2
                          (get_prop dest "name")))
          end
        else (called, next idx st delayed)
    end
  else ([], next idx st delayed).

(** The success callback handed to the resolver:
    [function (value, delayed) {...}]. *)
Definition on_success (idx : nat) (st : state) (value : value)
    (delayed : bool) : list event * step :=
  let st := set_data st value in
  if is_undefined (data st) then ([], Stop (success idx st))
  else
    let st :=
      if truthy track then set_tracked st (push (tracked st) (data st))
      else st in
    notify idx st delayed.

(** The error callback handed to the resolver:
    [function (reason, isRej) {...}]. *)
Definition on_error (idx : nat) (st : state) (reason : value) (isRej : bool)
  : list event * step :=
  ([], Stop (fail idx st (Reason reason (Some (data st)) None None)
                  (if isRej then 0 else 1)%nat (get_prop source "name"))).

(** One activation of [function loop(idx)], up to the point where the
    promise is settled or [next] has decided how to go on. *)
Definition loop_body (idx : nat) (st : state) : list event * step :=
  let srcNow := now (clock st) in
  let srcDelay := delay_at idx srcNow (srcTime st) in
  let called := [Loop idx (frames st); Source idx (data st) srcDelay] in
  let st' := tick (set_srcTime st srcNow) in
  let '(more, s) :=
    match resolve source idx (data st) srcDelay with
    | OnSuccess value delayed =>
        let later := delayed && source_later source idx (data st) srcDelay in
        on_success idx (arrive st' later) value delayed
    | OnError reason isRej => on_error idx st' reason isRej
    end in
  (called ++ more, s).

(** [loop(idx)] and everything it leads to.  [fuel] bounds the number of
    activations of [loop]; [None] means the bound was reached before the
    promise was settled.  A direct call adds an activation to those on the
    stack; a call through [$p.resolve().then] finds none, [$p] being the
    Promises/A+ library the drivers are configured with. *)
Fixpoint loop (fuel : nat) (idx : nat) (st : state)
  : list event * option (outcome result) :=
  match fuel with
  | O => ([], None)
  | S fuel' =>
      let '(called, s) := loop_body idx st in
      match s with
      | Stop o => (called, Some o)
      | Recurse idx' st' =>
          let '(rest, o) := loop fuel' idx' (set_frames st' (S (frames st'))) in
          (called ++ Direct idx' :: rest, o)
      | Defer idx' st' =>
          let '(rest, o) := loop fuel' idx' (set_frames st' 1) in
          (called ++ Scheduled idx' :: rest, o)
      end
  end.

End Loop.

(** The state in which [loop(0)] is called: one reading of the clock was
    taken for [start]. *)
Definition initial : state :=
  State VUndefined None None empty_array 1 1.

(** [function sequence(source, dest, limit, track, config)]. *)
Definition sequence (source dest limit track : value) (fuel : nat)
  : list event * option (outcome result) :=
  if negb (String.eqb (typeof source) "function") then
    ([], Some (Rejected (TypeError "Parameter 'source' must be a function.")))
  else
    let limit := normalize_limit host_ToNumber host_ToString limit in
    let source := wrap source in
    let dest := wrap dest in
    let start := now 0 in
    loop source dest limit track start fuel 0 initial.

(** [module.exports = function (config) { return function (source, dest, limit, track) {...} }]. *)
Definition exports (source dest limit track : value) (fuel : nat)
  : list event * option (outcome result) :=
  if truthy dest && String.eqb (typeof dest) "object" then
    sequence source (get_prop dest "dest") (get_prop dest "limit")
             (get_prop dest "track") fuel
  else
    sequence source dest limit track fuel.

End Sequence.

End Sequence.

(* ================================================================== *)
(** ** lib/ext/page.js                                                 *)
(* ================================================================== *)

Module Page.
Import JS Static Errors Driver.

(** What a successful page run resolves with: [{pages, total, duration}]. *)
Record result : Type := Result {
  pages : nat;
  total : nat;
  duration : Z
}.

(** How [$spex.batch(value)] settles: which continuation of
    [.then(f).catch(g)] runs, and with what. *)
Inductive batch_settlement : Type :=
| BatchResolves (data : list value)
| BatchRejects (error : value).

(** The variables of [page] that [loop] and its helpers update: [request],
    [srcTime], [destTime], [total]; and, for the model, the readings of
    [Date.now()] taken so far and the activations of [loop] on the stack. *)
Record state : Type := State {
  request : value;
  srcTime : option Z;
  destTime : option Z;
  total_so_far : nat;
  clock : nat;
  frames : nat
}.

Definition set_request (st : state) (v : value) : state :=
  State v (srcTime st) (destTime st) (total_so_far st) (clock st) (frames st).

Definition set_srcTime (st : state) (t : Z) : state :=
  State (request st) (Some t) (destTime st) (total_so_far st) (clock st)
        (frames st).

Definition set_destTime (st : state) (t : Z) : state :=
  State (request st) (srcTime st) (Some t) (total_so_far st) (clock st)
        (frames st).

Definition set_total (st : state) (n : nat) : state :=
  State (request st) (srcTime st) (destTime st) n (clock st) (frames st).

Definition set_frames (st : state) (n : nat) : state :=
  State (request st) (srcTime st) (destTime st) (total_so_far st) (clock st) n.

Definition tick (st : state) : state :=
  State (request st) (srcTime st) (destTime st) (total_so_far st)
        (S (clock st)) (frames st).

Definition on_new_turn (st : state) : state := set_frames st 0.

Inductive step : Type :=
| Stop (o : outcome result)
| Recurse (idx : nat) (st : state).

Section Page.

Variable now : nat -> Z.
Variable wrap : value -> value.
Variable resolve : value -> nat -> value -> delay -> resolution.
Variable call : value -> nat -> value -> delay -> completion.
Variable settle : value -> settlement.
(** [$spex.batch(value)]. *)
Variable batch : list value -> batch_settlement.
Variable host_ToNumber : value -> number.
Variable host_ToString : value -> string.

Section Loop.

Variable source dest : value.
Variable limit : option Z.
Variable start : Z.

(** [function success()]. *)
Definition success (idx : nat) (st : state) : outcome result :=
  Resolved {| pages := idx; total := total_so_far st;
              duration := now (clock st) - start |}.

(** [function fail(reason, code, cbName)]. *)
Definition fail (idx : nat) (st : state) (reason : reason) (code : nat)
    (cbName : value) : outcome result :=
  let reason := set_index reason idx in
  Rejected (Failure (PageError reason code cbName (now (clock st) - start))).

(** [function next()]. *)
Definition next (idx : nat) (st : state) : step :=
  let idx := S idx in
  if limit_is limit idx then Stop (success idx st)
  else Recurse idx st.

(** The continuation of [$spex.batch(value).then]: [function (data) {...}]. *)
Definition on_batch (idx : nat) (st : state) (data : list value)
  : list event * step :=
  let st := on_new_turn st in
  let st := set_request st (VArr data) in
  let st := set_total st (total_so_far st + length data) in
  if truthy dest then
    let destNow := now (clock st) in
    let destDelay := delay_at idx destNow (destTime st) in
    let st := tick (set_destTime st destNow) in
    let called := [Dest idx (VArr data) destDelay] in
    match call dest idx (VArr data) destDelay with
    | Throws err =>
        (called,
         Stop (fail idx st (Reason err None (Some (VArr data)) None) 4
                    (get_prop dest "name")))
    | Returns destResult =>
        if isPromise destResult then
          match settle destResult with
          | Fulfils _ => (called, next idx st)
          | Rejects error =>
              (called,
               Stop (fail idx st (Reason error None (Some (VArr data)) None) 3
                          (get_prop dest "name")))
          end
        else (called, next idx st)
    end
  else ([], next idx st).

(** The success callback handed to the resolver: [function (value) {...}]. *)
Definition on_success (idx : nat) (st : state) (value : value)
    (delayed : bool) : list event * step :=
  let st := if delayed then on_new_turn st else st in
  if is_undefined value then ([], Stop (success idx st))
  else
    match as_array value with
    | Some page =>
        match batch page with
        | BatchResolves data => on_batch idx st data
        | BatchRejects error =>
            ([], Stop (fail idx (on_new_turn st) (Reason error None None None)
                            0 VUndefined))
        end
    | None =>
        ([], Stop (fail idx st
                        (Reason (Error "Unexpected data returned from the source.")
                                (Some (request st)) None None)
                        5 (get_prop source "name")))
    end.

(** The error callback handed to the resolver:
    [function (reason, isRej) {...}]. *)
Definition on_error (idx : nat) (st : state) (reason : value) (isRej : bool)
  : list event * step :=
  ([], Stop (fail idx st (Reason reason (Some (request st)) None None)
                  (if isRej then 1 else 2)%nat (get_prop source "name"))).

(** One activation of [function loop(idx)]. *)
Definition loop_body (idx : nat) (st : state) : list event * step :=
  let srcNow := now (clock st) in
  let srcDelay := delay_at idx srcNow (srcTime st) in
  let called := [Loop idx (frames st); Source idx (request st) srcDelay] in
  let st' := tick (set_srcTime st srcNow) in
  let '(more, s) :=
    match resolve source idx (request st) srcDelay with
    | OnSuccess value delayed => on_success idx st' value delayed
    | OnError reason isRej => on_error idx st' reason isRej
    end in
  (called ++ more, s).

(** [loop(idx)] and everything it leads to; [fuel] bounds the number of
    activations of [loop]. *)
Fixpoint loop (fuel : nat) (idx : nat) (st : state)
  : list event * option (outcome result) :=
  match fuel with
  | O => ([], None)
  | S fuel' =>
      let '(called, s) := loop_body idx st in
      match s with
      | Stop o => (called, Some o)
      | Recurse idx' st' =>
          let '(rest, o) := loop fuel' idx' (set_frames st' (S (frames st'))) in
          (called ++ Direct idx' :: rest, o)
      end
  end.

End Loop.

(** The state in which [loop(0)] is called. *)
Definition initial : state := State VUndefined None None 0 1 1.

(** [function page(source, dest, limit, config)]. *)
Definition page (source dest limit : value) (fuel : nat)
  : list event * option (outcome result) :=
  if negb (String.eqb (typeof source) "function") then
    ([], Some (Rejected (TypeError "Parameter 'source' must be a function.")))
  else
    let limit := normalize_limit host_ToNumber host_ToString limit in
    let source := wrap source in
    let dest := wrap dest in
    let start := now 0 in
    loop source dest limit start fuel 0 initial.

(** [module.exports = function (config) { return function (source, dest, limit) {...} }]. *)
Definition exports (source dest limit : value) (fuel : nat)
  : list event * option (outcome result) :=
  if truthy dest && String.eqb (typeof dest) "object" then
    page source (get_prop dest "dest") (get_prop dest "limit") fuel
  else
    page source dest limit fuel.

End Page.

End Page.

(* ================================================================== *)
(** ** One activation of [loop], case by case                          *)
(* ================================================================== *)

Module SequenceSpec.
Import JS Static Errors Driver Sequence.

Section Spec.

Variable now : nat -> Z.
Variable resolve : value -> nat -> value -> delay -> resolution.
Variable call : value -> nat -> value -> delay -> completion.
Variable settle : value -> settlement.
Variable source_later : value -> nat -> value -> delay -> bool.
Variable sink_later : value -> bool.
Variable source dest : value.
Variable limit : option Z.
Variable track : value.
Variable start : Z.

(** The delay handed to [source] by [loop(idx)] entered in state [st]. *)
Definition src_delay (idx : nat) (st : state) : delay :=
  delay_at idx (now (clock st)) (srcTime st).

(** The state once [source] was called. *)
Definition called_source (st : state) : state :=
  tick (set_srcTime st (now (clock st))).

(** Whether the success callback of [loop(idx)] runs on a later turn. *)
Definition arrives_later (idx : nat) (st : state) (delayed : bool) : bool :=
  delayed && source_later source idx (data st) (src_delay idx st).

(** The state once [source] resolved with [v]; [later] tells whether the
    callback runs on a later turn. *)
Definition delivered (st : state) (v : value) (later : bool) : state :=
  set_data (arrive (called_source st) later) v.

(** The state once [v] was tracked, when tracking is on. *)
Definition kept (st : state) (v : value) (later : bool) : state :=
  let st' := delivered st v later in
  if truthy track then set_tracked st' (push (tracked st') v) else st'.

(** The delay handed to [dest]. *)
Definition dest_delay (idx : nat) (st : state) (v : value) (later : bool)
  : delay :=
  delay_at idx (now (clock (kept st v later))) (destTime st).

(** The state once [dest] was called. *)
Definition called_dest (st : state) (v : value) (later : bool) : state :=
  let st' := kept st v later in
  tick (set_destTime st' (now (clock st'))).

(** What an activation of [loop(idx)] entered in state [st] does and where
    it leads, one case per path through the callbacks. *)
Inductive iteration (idx : nat) (st : state) : list event -> step -> Prop :=
| source_failed reason isRej :
    resolve source idx (data st) (src_delay idx st) = OnError reason isRej ->
    iteration idx st
      [Loop idx (frames st); Source idx (data st) (src_delay idx st)]
      (Stop (fail now start idx (called_source st)
                  (Reason reason (Some (data st)) None None)
                  (if isRej then 0 else 1)%nat (get_prop source "name")))
| source_ended delayed :
    resolve source idx (data st) (src_delay idx st)
    = OnSuccess VUndefined delayed ->
    iteration idx st
      [Loop idx (frames st); Source idx (data st) (src_delay idx st)]
      (Stop (success now track start idx (delivered st VUndefined (arrives_later idx st delayed))))
| no_dest v delayed :
    resolve source idx (data st) (src_delay idx st) = OnSuccess v delayed ->
    v <> VUndefined ->
    truthy dest = false ->
    iteration idx st
      [Loop idx (frames st); Source idx (data st) (src_delay idx st)]
      (next now limit track start idx (kept st v (arrives_later idx st delayed)) delayed)
| dest_threw v delayed e :
    resolve source idx (data st) (src_delay idx st) = OnSuccess v delayed ->
    v <> VUndefined ->
    truthy dest = true ->
    call dest idx v (dest_delay idx st v (arrives_later idx st delayed)) = Throws e ->
    iteration idx st
      [Loop idx (frames st); Source idx (data st) (src_delay idx st);
       Dest idx v (dest_delay idx st v (arrives_later idx st delayed))]
      (Stop (fail now start idx (called_dest st v (arrives_later idx st delayed))
                  (Reason e None (Some v) None) 3 (get_prop dest "name")))
| dest_returned v delayed r :
    resolve source idx (data st) (src_delay idx st) = OnSuccess v delayed ->
    v <> VUndefined ->
    truthy dest = true ->
    call dest idx v (dest_delay idx st v (arrives_later idx st delayed)) = Returns r ->
    isPromise r = false ->
    iteration idx st
      [Loop idx (frames st); Source idx (data st) (src_delay idx st);
       Dest idx v (dest_delay idx st v (arrives_later idx st delayed))]
      (next now limit track start idx (called_dest st v (arrives_later idx st delayed)) delayed)
| dest_fulfilled v delayed r w :
    resolve source idx (data st) (src_delay idx st) = OnSuccess v delayed ->
    v <> VUndefined ->
    truthy dest = true ->
    call dest idx v (dest_delay idx st v (arrives_later idx st delayed)) = Returns r ->
    isPromise r = true ->
    settle r = Fulfils w ->
    iteration idx st
      [Loop idx (frames st); Source idx (data st) (src_delay idx st);
       Dest idx v (dest_delay idx st v (arrives_later idx st delayed))]
      (next now limit track start idx
            (arrive (called_dest st v (arrives_later idx st delayed)) (sink_later r)) true)
| dest_rejected v delayed r error :
    resolve source idx (data st) (src_delay idx st) = OnSuccess v delayed ->
    v <> VUndefined ->
    truthy dest = true ->
    call dest idx v (dest_delay idx st v (arrives_later idx st delayed)) = Returns r ->
    isPromise r = true ->
    settle r = Rejects error ->
    iteration idx st
      [Loop idx (frames st); Source idx (data st) (src_delay idx st);
       Dest idx v (dest_delay idx st v (arrives_later idx st delayed))]
      (Stop (fail now start idx (called_dest st v (arrives_later idx st delayed))
                  (Reason error None (Some v) None) 2 (get_prop dest "name"))).

(** What [loop(idx)] finds in [srcTime] and [destTime]: past index 0, the
    reading of the clock at the previous call of [source] and, when there
    is a sink, at the previous call of [dest]. *)
Definition timed_state (idx : nat) (st : state) : Prop :=
  idx = O \/
  ((exists c, srcTime st = Some (now c) /\ (c < clock st)%nat) /\
   (truthy dest = true ->
    exists c, destTime st = Some (now c) /\ (c < clock st)%nat)).

(** A run that failed on its source: the trace ends with the call of
    [source] that the resolver reported as failed, and the error records
    that call. *)
Definition failed_on_source (trace : list event) (e : driver_error) : Prop :=
  exists pre i f d dl reason isRej,
    trace = pre ++ [Loop i f; Source i d dl] /\
    resolve source i d dl = OnError reason isRej /\
    error e = reason /\
    index e = Some i /\
    code e = (if isRej then 0 else 1)%nat /\
    cbName e = get_prop source "name" /\
    Errors.source e = Some d /\
    Errors.dest e = None.

(** A run that failed on its sink: the trace ends with the call of [dest]
    that threw or returned a promise that rejected. *)
Definition failed_on_sink (trace : list event) (e : driver_error) : Prop :=
  exists pre i v dl err,
    trace = pre ++ [Dest i v dl] /\
    ((call dest i v dl = Throws err /\ code e = 3%nat) \/
     (exists p, call dest i v dl = Returns p /\ isPromise p = true /\
                settle p = Rejects err /\ code e = 2%nat)) /\
    error e = err /\
    index e = Some i /\
    cbName e = get_prop dest "name" /\
    Errors.source e = None /\
    Errors.dest e = Some v.

End Spec.

End SequenceSpec.

(* ================================================================== *)
(** ** One activation of the page [loop], case by case                 *)
(* ================================================================== *)

Module PageSpec.
Import JS Static Errors Driver Page.

Section Spec.

Variable now : nat -> Z.
Variable resolve : value -> nat -> value -> delay -> resolution.
Variable call : value -> nat -> value -> delay -> completion.
Variable settle : value -> settlement.
Variable batch : list value -> batch_settlement.
Variable source dest : value.
Variable limit : option Z.
Variable start : Z.

(** The delay handed to [source] by [loop(idx)] entered in state [st]. *)
Definition src_delay (idx : nat) (st : state) : delay :=
  delay_at idx (now (clock st)) (srcTime st).

(** The state once [source] was called and the resolver has answered. *)
Definition answered (st : state) (delayed : bool) : state :=
  let st' := tick (set_srcTime st (now (clock st))) in
  if delayed then on_new_turn st' else st'.

(** The state once the page was resolved as a batch with outcome [data]. *)
Definition batched (st : state) (data : list value) : state :=
  State (VArr data) (Some (now (clock st))) (destTime st)
        (total_so_far st + length data) (S (clock st)) 0.

(** The delay handed to [dest]. *)
Definition dest_delay (idx : nat) (st : state) : delay :=
  delay_at idx (now (S (clock st))) (destTime st).

(** The state once [dest] was called. *)
Definition called_dest (st : state) (data : list value) : state :=
  State (VArr data) (Some (now (clock st))) (Some (now (S (clock st))))
        (total_so_far st + length data) (S (S (clock st))) 0.

Definition src_events (idx : nat) (st : state) : list event :=
  [Loop idx (frames st); Source idx (request st) (src_delay idx st)].

Inductive iteration (idx : nat) (st : state) : list event -> step -> Prop :=
| source_failed reason isRej :
    resolve source idx (request st) (src_delay idx st) = OnError reason isRej ->
    iteration idx st (src_events idx st)
      (Stop (fail now start idx (answered st false)
                  (Reason reason (Some (request st)) None None)
                  (if isRej then 1 else 2)%nat (get_prop source "name")))
| source_ended delayed :
    resolve source idx (request st) (src_delay idx st)
    = OnSuccess VUndefined delayed ->
    iteration idx st (src_events idx st)
      (Stop (success now start idx (answered st delayed)))
| not_an_array v delayed :
    resolve source idx (request st) (src_delay idx st) = OnSuccess v delayed ->
    v <> VUndefined ->
    as_array v = None ->
    iteration idx st (src_events idx st)
      (Stop (fail now start idx (answered st delayed)
                  (Reason (Error "Unexpected data returned from the source.")
                          (Some (request st)) None None)
                  5 (get_prop source "name")))
| batch_rejected page delayed error :
    resolve source idx (request st) (src_delay idx st)
    = OnSuccess (VArr page) delayed ->
    batch page = BatchRejects error ->
    iteration idx st (src_events idx st)
      (Stop (fail now start idx (on_new_turn (answered st delayed))
                  (Reason error None None None) 0 VUndefined))
| no_dest page delayed data :
    resolve source idx (request st) (src_delay idx st)
    = OnSuccess (VArr page) delayed ->
    batch page = BatchResolves data ->
    truthy dest = false ->
    iteration idx st (src_events idx st)
      (next now limit start idx (batched st data))
| dest_threw page delayed data err :
    resolve source idx (request st) (src_delay idx st)
    = OnSuccess (VArr page) delayed ->
    batch page = BatchResolves data ->
    truthy dest = true ->
    call dest idx (VArr data) (dest_delay idx st) = Throws err ->
    iteration idx st
      (src_events idx st ++ [Dest idx (VArr data) (dest_delay idx st)])
      (Stop (fail now start idx (called_dest st data)
                  (Reason err None (Some (VArr data)) None) 4
                  (get_prop dest "name")))
| dest_returned page delayed data r :
    resolve source idx (request st) (src_delay idx st)
    = OnSuccess (VArr page) delayed ->
    batch page = BatchResolves data ->
    truthy dest = true ->
    call dest idx (VArr data) (dest_delay idx st) = Returns r ->
    isPromise r = false ->
    iteration idx st
      (src_events idx st ++ [Dest idx (VArr data) (dest_delay idx st)])
      (next now limit start idx (called_dest st data))
| dest_fulfilled page delayed data r w :
    resolve source idx (request st) (src_delay idx st)
    = OnSuccess (VArr page) delayed ->
    batch page = BatchResolves data ->
    truthy dest = true ->
    call dest idx (VArr data) (dest_delay idx st) = Returns r ->
    isPromise r = true ->
    settle r = Fulfils w ->
    iteration idx st
      (src_events idx st ++ [Dest idx (VArr data) (dest_delay idx st)])
      (next now limit start idx (called_dest st data))
| dest_rejected page delayed data r error :
    resolve source idx (request st) (src_delay idx st)
    = OnSuccess (VArr page) delayed ->
    batch page = BatchResolves data ->
    truthy dest = true ->
    call dest idx (VArr data) (dest_delay idx st) = Returns r ->
    isPromise r = true ->
    settle r = Rejects error ->
    iteration idx st
      (src_events idx st ++ [Dest idx (VArr data) (dest_delay idx st)])
      (Stop (fail now start idx (called_dest st data)
                  (Reason error None (Some (VArr data)) None) 3
                  (get_prop dest "name"))).

(** What [loop(idx)] finds in [srcTime] and [destTime]: past index 0, the
    reading of the clock at the previous call of [source] and, when there
    is a sink, at the previous call of [dest]. *)
Definition timed_state (idx : nat) (st : state) : Prop :=
  idx = O \/
  ((exists c, srcTime st = Some (now c) /\ (c < clock st)%nat) /\
   (truthy dest = true ->
    exists c, destTime st = Some (now c) /\ (c < clock st)%nat)).

(** The batch outcomes of the pages of a run, in call order: for each call
    of [source] that resolved with an array whose batch resolved, what the
    batch resolved with. *)
Definition batched_pages (trace : list event) : list (list value) :=
  omap (fun ev =>
          match ev with
          | Source i d dl =>
              match resolve source i d dl with
              | OnSuccess (VArr page) _ =>
                  match batch page with
                  | BatchResolves data => Some data
                  | BatchRejects _ => None
                  end
              | _ => None
              end
          | _ => None
          end) trace.

(** A run that failed on its source: the resolver reported the call of
    [source] the trace ends with as failed. *)
Definition failed_on_source (trace : list event) (e : driver_error) : Prop :=
  exists pre i f d dl reason isRej,
    trace = pre ++ [Loop i f; Source i d dl] /\
    resolve source i d dl = OnError reason isRej /\
    error e = reason /\
    index e = Some i /\
    code e = (if isRej then 1 else 2)%nat /\
    cbName e = get_prop source "name" /\
    Errors.source e = Some d /\
    Errors.dest e = None.

(** A run that failed on what its source resolved with: neither
    [undefined] nor an array. *)
Definition failed_on_data (trace : list event) (e : driver_error) : Prop :=
  exists pre i f d dl v delayed,
    trace = pre ++ [Loop i f; Source i d dl] /\
    resolve source i d dl = OnSuccess v delayed /\
    v <> VUndefined /\ as_array v = None /\
    error e = Error "Unexpected data returned from the source." /\
    index e = Some i /\
    code e = 5%nat /\
    cbName e = get_prop source "name" /\
    Errors.source e = Some d /\
    Errors.dest e = None.

(** A run that failed because the batch of a page rejected. *)
Definition failed_on_batch (trace : list event) (e : driver_error) : Prop :=
  exists pre i f d dl page delayed err,
    trace = pre ++ [Loop i f; Source i d dl] /\
    resolve source i d dl = OnSuccess (VArr page) delayed /\
    batch page = BatchRejects err /\
    error e = err /\
    index e = Some i /\
    code e = 0%nat /\
    cbName e = VUndefined /\
    Errors.source e = None /\
    Errors.dest e = None.

(** A run that failed on its sink. *)
Definition failed_on_sink (trace : list event) (e : driver_error) : Prop :=
  exists pre i v dl err,
    trace = pre ++ [Dest i v dl] /\
    ((call dest i v dl = Throws err /\ code e = 4%nat) \/
     (exists p, call dest i v dl = Returns p /\ isPromise p = true /\
                settle p = Rejects err /\ code e = 3%nat)) /\
    error e = err /\
    index e = Some i /\
    cbName e = get_prop dest "name" /\
    Errors.source e = None /\
    Errors.dest e = Some v.

End Spec.

End PageSpec.

(* ================================================================== *)
(** ** Sample hosts and callbacks                                      *)
(* ================================================================== *)

Module Scenario.
Import JS Static Errors Driver.

(** A clock that advances by 10 ms at every reading. *)
Definition now (n : nat) : Z := 10 * Z.of_nat n.

Definition host_ToNumber (v : value) : number := NaN.
Definition host_ToString (v : value) : string := "[object Object]".

Definition zero : value := VNum Zero.
Definition one : value := VNum (Finite false d1 [] 1).
Definition two : value := VNum (Finite false d2 [] 1).
Definition three : value := VNum (Finite false d3 [] 1).

(** 2.5 and 1e-7. *)
Definition two_and_a_half : number := Finite false d2 [d5] 1.
Definition tiny : number := Finite false d1 [] (-6).

Definition src : value := VFun "src" 0.
Definition dst : value := VFun "dst" 1.
Definition boom : value := VStr "boom".

(** A promise: an object with a callable [then]. *)
Definition promise : value := VObj {["then" := VFun "then" 2]}.

Definition wrap (f : value) : value := f.

(** Deferreds that call back on a later turn, as those of a Promises/A+
    library do. *)
Definition source_later (f : value) (idx : nat) (d : value) (dl : delay)
  : bool := true.
Definition sink_later (p : value) : bool := true.

(** Thenables whose [then] calls back at once. *)
Definition source_at_once (f : value) (idx : nat) (d : value) (dl : delay)
  : bool := false.
Definition sink_at_once (p : value) : bool := false.

(** Callbacks that return [undefined], promises that fulfil. *)
Definition call_quiet (f : value) (idx : nat) (d : value) (dl : delay)
  : completion := Returns VUndefined.
Definition settle_ok (p : value) : settlement := Fulfils VUndefined.

(** A source that resolves synchronously with 0, 1, 2 and then
    [undefined]. *)
Definition counting (f : value) (idx : nat) (d : value) (dl : delay)
  : resolution :=
  match idx with
  | 0%nat => OnSuccess zero false
  | 1%nat => OnSuccess one false
  | 2%nat => OnSuccess two false
  | _ => OnSuccess VUndefined false
  end.

(** A source that returns deferreds, which resolve with 0, 1, 2 and then
    [undefined]. *)
Definition deferring (f : value) (idx : nat) (d : value) (dl : delay)
  : resolution :=
  match idx with
  | 0%nat => OnSuccess zero true
  | 1%nat => OnSuccess one true
  | 2%nat => OnSuccess two true
  | _ => OnSuccess VUndefined true
  end.

(** 0.3 and 2e21. *)
Definition three_tenths : number := Finite false d3 [] 0.
Definition two_sextillion : number := Finite false d2 [] 22.

(** A source that resolves with 0 and then fails by throwing. *)
Definition failing (f : value) (idx : nat) (d : value) (dl : delay)
  : resolution :=
  match idx with
  | 0%nat => OnSuccess zero false
  | _ => OnError boom false
  end.

(** A source that resolves with the number 2, which is no page. *)
Definition no_page (f : value) (idx : nat) (d : value) (dl : delay)
  : resolution := OnSuccess two false.

(** A source of pages: [1, 2], then [3], then [undefined]. *)
Definition paging (f : value) (idx : nat) (d : value) (dl : delay)
  : resolution :=
  match idx with
  | 0%nat => OnSuccess (VArr [one; two]) false
  | 1%nat => OnSuccess (VArr [three]) false
  | _ => OnSuccess VUndefined false
  end.

(** A batch that resolves with the values as they are. *)
Definition batch_values (page : list value) : Page.batch_settlement :=
  Page.BatchResolves page.

(** A callable that throws whatever it is called with. *)
Definition call_throws (f : value) (idx : nat) (d : value) (dl : delay)
  : completion := Throws boom.

(** The resolver's answer for a source that throws at once. *)
Definition threw (f : value) (idx : nat) (d : value) (dl : delay)
  : resolution := OnError boom false.

(** A callable that returns a promise, and promises that reject. *)
Definition call_promise (f : value) (idx : nat) (d : value) (dl : delay)
  : completion := Returns promise.
Definition settle_rejects (p : value) : settlement := Rejects boom.

(** The resolver's answer for a source that returns a promise that
    rejects. *)
Definition rejected (f : value) (idx : nat) (d : value) (dl : delay)
  : resolution := OnError boom true.

(** An options object [{dest: dst, limit: 2, track: true}]. *)
Definition options : value :=
  VObj (<["dest" := dst]> (<["limit" := two]> {["track" := VBool true]})).

(** A call stack of four lines, two of which refer to a source file. *)
Definition stack : string :=
  "Error: boom" +:+ Static.new_line +:+
  "    at run (/app/index.js:10:5)" +:+ Static.new_line +:+
  "    at next (native)" +:+ Static.new_line +:+
  "    at go (C:\app\lib.js:3:1)".

(** What [util.inspect] prints for an error, on two lines. *)
Definition inspected : string :=
  "[TypeError: boom" +:+ Static.new_line +:+ "  at run]".

End Scenario.

(* ================================================================== *)
(** ** Facts about Numbers and parseInt                                *)
(* ================================================================== *)

Module NumberFacts.
Import JS.

Lemma digit_val_range (d : digit) : 0 <= digit_val d < 10.
Proof. destruct d; simpl; lia. Qed.

Lemma digits_val_acc (ds : list digit) (acc : Z) :
  digits_val acc ds = acc * 10 ^ Z.of_nat (length ds) + digits_val 0 ds.
Proof.
  revert acc; induction ds as [|d ds IH]; intros acc.
  - simpl. lia.
  - cbn [digits_val length]. rewrite IH, (IH (10 * 0 + digit_val d)).
    rewrite Nat2Z.inj_succ, Z.pow_succ_r by lia. lia.
Qed.

Lemma digits_val_app (a b : list digit) :
  digits_val 0 (a ++ b)
  = digits_val 0 a * 10 ^ Z.of_nat (length b) + digits_val 0 b.
Proof.
  revert b; induction a as [|d a IH] using rev_ind; intros b.
  - simpl. lia.
  - rewrite <- app_assoc. cbn [app]. rewrite IH, (IH [d]).
    cbn [digits_val length]. rewrite (digits_val_acc b).
    rewrite Nat2Z.inj_succ, Z.pow_succ_r by lia. simpl (10 ^ Z.of_nat 1). lia.
Qed.

Lemma digits_val_range (ds : list digit) :
  0 <= digits_val 0 ds < 10 ^ Z.of_nat (length ds).
Proof.
  induction ds as [|d ds IH] using rev_ind.
  - simpl. lia.
  - rewrite digits_val_app, length_app. cbn [digits_val length].
    pose proof (digit_val_range d).
    replace (Z.of_nat (length ds + 1)) with (Z.succ (Z.of_nat (length ds))) by lia.
    rewrite Z.pow_succ_r by lia. simpl (10 ^ Z.of_nat 1). lia.
Qed.

Lemma digits_val_zeros (m : nat) : digits_val 0 (repeat d0 m) = 0.
Proof.
  induction m as [|m IH]; [reflexivity|]. cbn [repeat digits_val]. exact IH.
Qed.

Lemma append_String (c : ascii) (s r : string) :
  String c s +:+ r = String c (s +:+ r).
Proof. reflexivity. Qed.

Lemma append_empty (r : string) : EmptyString +:+ r = r.
Proof. reflexivity. Qed.

Lemma append_empty_r (s : string) : s +:+ EmptyString = s.
Proof.
  induction s as [|c s IH]; [reflexivity|]. now rewrite append_String, IH.
Qed.

Lemma digits_string_app (a b : list digit) :
  digits_string (a ++ b) = digits_string a +:+ digits_string b.
Proof.
  induction a as [|d a IH]; cbn [app digits_string].
  - now rewrite append_empty.
  - now rewrite append_String, IH.
Qed.

Lemma zeros_digits (m : nat) : zeros m = digits_string (repeat d0 m).
Proof. induction m as [|m IH]; simpl; [reflexivity|]. now rewrite IH. Qed.

Lemma char_digit_digit (d : digit) :
  char_digit 10 (digit_char d) = Some (digit_val d).
Proof. destruct d; reflexivity. Qed.

Lemma parse_digits_prefix (ds : list digit) (rest : string) (seen : bool) (acc : Z) :
  ends_integer rest ->
  (seen = true \/ ds <> []) ->
  parse_digits 10 seen acc (digits_string ds +:+ rest) = Some (digits_val acc ds).
Proof.
  intros Hrest. revert seen acc.
  induction ds as [|d ds IH]; intros seen acc Hseen.
  - destruct Hseen as [->|]; [|congruence].
    cbn [digits_string]. rewrite append_empty.
    destruct Hrest as [->|[r [->| ->]]]; reflexivity.
  - cbn [digits_string digits_val]. rewrite append_String.
    cbn [parse_digits]. rewrite char_digit_digit. apply IH. now left.
Qed.

Lemma parseInt_leading_digit (d : digit) (s : string) :
  (d <> d0 \/ forall r, s <> String "x" r /\ s <> String "X" r) ->
  parseInt_string (String (digit_char d) s)
  = parse_digits 10 false 0 (String (digit_char d) s).
Proof.
  intros H. unfold parseInt_string.
  assert (Hws : is_whitespace (digit_char d) = false) by (destruct d; reflexivity).
  cbn [trim_left]. rewrite Hws.
  destruct d; cbn [digit_char];
    try (destruct (parse_digits _ _ _ _); [f_equal; lia | reflexivity]).
  destruct H as [H|H]; [congruence|].
  destruct s as [|c r].
  - reflexivity.
  - destruct c as [[] [] [] [] [] [] [] []];
      try (destruct (parse_digits _ _ _ _); [f_equal; lia | reflexivity]);
      exfalso; destruct (H r) as [Hx HX]; congruence.
Qed.

Lemma parseInt_digits (d : digit) (ds : list digit) (rest : string) :
  ends_integer rest ->
  parseInt_string (digits_string (d :: ds) +:+ rest)
  = Some (digits_val 0 (d :: ds)).
Proof.
  intros Hrest.
  rewrite <- (parse_digits_prefix (d :: ds) rest false 0 Hrest)
    by (right; discriminate).
  cbn [digits_string]. rewrite append_String.
  apply parseInt_leading_digit. right. intros r.
  destruct ds as [|e ds]; cbn [digits_string].
  - rewrite append_empty.
    destruct Hrest as [->|[r' [->| ->]]]; split; discriminate.
  - rewrite append_String. destruct e; split; discriminate.
Qed.

Lemma parseInt_finite_positional (d : digit) (ds : list digit) (n : Z) :
  -6 < n <= 21 ->
  parseInt_string (finite_toString (d :: ds) n)
  = number_trunc (Finite false d ds n).
Proof.
  intros Hn. unfold finite_toString, number_trunc.
  set (k := Z.of_nat (length (d :: ds))).
  set (s := digits_val 0 (d :: ds)).
  destruct (Z.leb_spec k n) as [Hkn|Hkn].
  - replace (n <=? 21) with true by (symmetry; apply Z.leb_le; lia).
    cbn [andb]. rewrite zeros_digits, <- digits_string_app.
    rewrite <- (append_empty_r (digits_string _)).
    cbn [app]. rewrite (parseInt_digits d _ EmptyString) by (now left).
    change (d :: ds ++ repeat d0 ?m) with ((d :: ds) ++ repeat d0 m).
    rewrite digits_val_app, digits_val_zeros, repeat_length.
    fold s. f_equal. rewrite Z2Nat.id by lia. lia.
  - cbn [andb].
    destruct (Z.ltb_spec 0 n) as [Hpos|Hneg].
    + replace (n <=? 21) with true by (symmetry; apply Z.leb_le; lia).
      cbn [andb].
      destruct (Z.to_nat n) as [|m] eqn:Hm; [lia|].
      cbn [take]. change ("." +:+ ?x) with (String "." x).
      rewrite (parseInt_digits d _ (String "." _))
        by (right; eexists; left; reflexivity).
      f_equal.
      assert (Hsplit : d :: ds = (d :: take m ds) ++ drop (S m) (d :: ds)).
      { cbn [drop app]. now rewrite take_drop. }
      unfold s. rewrite Hsplit at 1. rewrite digits_val_app.
      pose proof (digits_val_range (drop (S m) (d :: ds))) as Hr.
      assert (Hlen : Z.of_nat (length (drop (S m) (d :: ds))) = k - n).
      { rewrite length_drop. unfold k. 
        assert (S m <= length (d :: ds))%nat by (unfold k in Hkn; lia). lia. }
      rewrite Hlen in *.
      apply Z.div_unique_pos with (r := digits_val 0 (drop (S m) (d :: ds))); lia.
    + replace ((-6 <? n) && (n <=? 0)) with true
        by (symmetry; apply andb_true_iff; split; [apply Z.ltb_lt|apply Z.leb_le]; lia).
      cbn [andb].
      change ("0." +:+ ?x) with (digits_string [d0] +:+ (String "." x)).
      rewrite parseInt_digits by (right; eexists; left; reflexivity).
      f_equal. cbn [digits_val digit_val].
      pose proof (digits_val_range (d :: ds)) as Hr. fold s k in Hr.
      symmetry. apply Z.div_small. split; [lia|].
      apply Z.lt_le_trans with (10 ^ k); [lia|].
      apply Z.pow_le_mono_r; lia.
Qed.

Lemma digits_val_leading (d : digit) (ds : list digit) :
  d <> d0 -> 0 < digits_val 0 (d :: ds).
Proof.
  intros Hd. cbn [digits_val]. rewrite digits_val_acc.
  pose proof (digits_val_range ds) as Hr.
  assert (1 <= digit_val d) by (destruct d; simpl; (congruence || lia)).
  assert (0 < 10 ^ Z.of_nat (length ds)) by (apply Z.pow_pos_nonneg; lia).
  nia.
Qed.

(** In exponential notation the text of a number starts with its first
    digit, followed by "." or by "e". *)
Lemma finite_toString_exponential (d : digit) (ds : list digit) (n : Z) :
  n <= -6 \/ 21 < n ->
  exists rest,
    finite_toString (d :: ds) n = digits_string [d] +:+ rest /\
    ends_integer rest.
Proof.
  intros Hn. unfold finite_toString.
  set (k := Z.of_nat (length (d :: ds))).
  assert (0 < k) by (unfold k; cbn [length]; lia).
  replace ((k <=? n) && (n <=? 21)) with false
    by (symmetry; apply andb_false_iff;
        destruct Hn; [left; apply Z.leb_gt|right; apply Z.leb_gt]; lia).
  replace ((0 <? n) && (n <=? 21)) with false
    by (symmetry; apply andb_false_iff;
        destruct Hn; [left; apply Z.ltb_ge|right; apply Z.leb_gt]; lia).
  replace ((-6 <? n) && (n <=? 0)) with false
    by (symmetry; apply andb_false_iff;
        destruct Hn; [left; apply Z.ltb_ge|right; apply Z.leb_gt]; lia).
  cbn zeta. destruct ds as [|e ds].
  - eexists. split; [reflexivity|]. right. eexists. right. reflexivity.
  - eexists. split.
    + cbn [digits_string]. rewrite !append_String, append_empty.
      reflexivity.
    + right. eexists. left. reflexivity.
Qed.


(** An integer below 1e21 prints as its digits and [parseInt] reads it
    back. *)
Lemma parseInt_integer (d : digit) (ds : list digit) (n : Z) :
  Z.of_nat (length (d :: ds)) <= n <= 21 ->
  parseInt_string (finite_toString (d :: ds) n)
  = Some (digits_val 0 (d :: ds) * 10 ^ (n - Z.of_nat (length (d :: ds)))).
Proof.
  intros Hn.
  rewrite parseInt_finite_positional by (cbn [length] in Hn; lia).
  unfold number_trunc.
  now replace (Z.of_nat (length (d :: ds)) <=? n) with true
    by (symmetry; apply Z.leb_le; lia).
Qed.

End NumberFacts.

(* ================================================================== *)
(** ** Facts about the helpers of static.js                            *)
(* ================================================================== *)

Module StaticFacts.
Import JS Static NumberFacts.

Lemma join_cons (sep part next : string) (rest : list string) :
  join sep (part :: next :: rest) = part +:+ sep +:+ join sep (next :: rest).
Proof. reflexivity. Qed.

Lemma split_not_nil (sep : ascii) (s : string) : split sep s <> [].
Proof.
  destruct s as [|c s]; cbn [split]; [discriminate|].
  destruct (Ascii.eqb c sep); [discriminate|].
  destruct (split sep s); discriminate.
Qed.

(** Joining the lines of a text gives the text back. *)
Lemma join_split (s : string) : join new_line (split line_feed s) = s.
Proof.
  induction s as [|c s IH]; [reflexivity|]. cbn [split].
  destruct (Ascii.eqb_spec c line_feed) as [->|Hc].
  - pose proof (split_not_nil line_feed s) as Hn.
    destruct (split line_feed s) as [|first rest]; [congruence|].
    rewrite join_cons, IH. reflexivity.
  - pose proof (split_not_nil line_feed s) as Hn.
    destruct (split line_feed s) as [|first rest]; [congruence|].
    destruct rest as [|next rest].
    + cbn [join] in *. now rewrite IH.
    + rewrite join_cons in *. rewrite append_String, IH. reflexivity.
Qed.

Lemma split_free (sep : ascii) (s : string) :
  occurs sep s = false -> split sep s = [s].
Proof.
  induction s as [|c s IH]; [reflexivity|]. cbn [occurs split].
  intros H. apply orb_false_iff in H. destruct H as [Hc Hs].
  rewrite Hc, (IH Hs). reflexivity.
Qed.

Lemma split_append (sep : ascii) (x s : string) :
  occurs sep x = false ->
  split sep (x +:+ String sep s) = x :: split sep s.
Proof.
  induction x as [|c x IH]; intros H.
  - rewrite append_empty. cbn [split]. now rewrite Ascii.eqb_refl.
  - cbn [occurs] in H. apply orb_false_iff in H. destruct H as [Hc Hx].
    rewrite append_String. cbn [split]. rewrite Hc, (IH Hx). reflexivity.
Qed.

(** Splitting what was joined gives the lines back, if there is a line and
    no line holds a line feed. *)
Lemma split_join (lines : list string) :
  lines <> [] ->
  Forall (fun line => occurs line_feed line = false) lines ->
  split line_feed (join new_line lines) = lines.
Proof.
  induction lines as [|line rest IH]; intros Hne Hfree; [congruence|].
  apply Forall_cons in Hfree. destruct Hfree as [Hline Hrest].
  destruct rest as [|next rest].
  - cbn [join]. now apply split_free.
  - rewrite join_cons. unfold new_line at 1. rewrite append_String, append_empty.
    rewrite split_append by exact Hline.
    now rewrite IH.
Qed.

Lemma split_lines_free (s : string) :
  Forall (fun line => occurs line_feed line = false) (split line_feed s).
Proof.
  induction s as [|c s IH]; [repeat constructor|]. cbn [split].
  destruct (Ascii.eqb c line_feed) eqn:Hc.
  - constructor; [reflexivity|exact IH].
  - destruct (split line_feed s) as [|first rest].
    + repeat constructor. cbn [occurs]. now rewrite Hc.
    + apply Forall_cons in IH. destruct IH as [Hf Hr].
      constructor; [|exact Hr]. cbn [occurs]. now rewrite Hc, Hf.
Qed.

Lemma occurs_append (c : ascii) (a b : string) :
  occurs c (a +:+ b) = occurs c a || occurs c b.
Proof.
  induction a as [|x a IH]; [reflexivity|].
  rewrite append_String. cbn [occurs]. rewrite IH. now rewrite orb_assoc.
Qed.

Lemma join_holes (n : nat) :
  join " " (replicate (S n) EmptyString) = spaces n.
Proof.
  induction n as [|n IH]; [reflexivity|].
  change (replicate (S (S n)) EmptyString)
    with (EmptyString :: EmptyString :: replicate n EmptyString).
  rewrite join_cons.
  change (EmptyString :: replicate n EmptyString)
    with (replicate (S n) EmptyString).
  rewrite IH. reflexivity.
Qed.

Lemma messageGap_spaces (level : nat) :
  messageGap level = spaces (4 * level).
Proof.
  unfold messageGap. cbn [Nat.add]. rewrite join_holes. f_equal. lia.
Qed.

Lemma spaces_free (c : ascii) (n : nat) :
  c <> " "%char -> occurs c (spaces n) = false.
Proof.
  intros Hc. induction n as [|n IH]; [reflexivity|].
  cbn [spaces occurs]. rewrite IH, orb_false_r.
  apply Ascii.eqb_neq. congruence.
Qed.

Lemma indented_free (gap : string) (lines : list string) :
  occurs line_feed gap = false ->
  Forall (fun line => occurs line_feed line = false) lines ->
  Forall (fun line => occurs line_feed line = false)
         (map (fun line => gap +:+ line) lines).
Proof.
  intros Hgap Hlines. apply Forall_map.
  eapply Forall_impl; [exact Hlines|].
  intros line Hline. cbn. now rewrite occurs_append, Hgap, Hline.
Qed.

Lemma imap_indent (gap : string) (lines : list string) :
  imap (fun index line =>
          (match index with O => EmptyString | S _ => gap end) +:+ line)
       lines
  = match lines with
    | [] => []
    | first :: rest => first :: map (fun line => gap +:+ line) rest
    end.
Proof.
  destruct lines as [|first rest]; [reflexivity|].
  rewrite imap_cons, append_empty. f_equal.
  induction rest as [|line rest IH]; [reflexivity|].
  rewrite imap_cons. cbn [map]. f_equal. exact IH.
Qed.

Lemma spaces_has_bracketed_path (n : nat) (line : string) :
  has_bracketed_path (spaces n +:+ line) = has_bracketed_path line.
Proof.
  induction n as [|n IH]; [reflexivity|].
  cbn [spaces]. rewrite append_String. cbn [has_bracketed_path].
  exact IH.
Qed.

End StaticFacts.

(* ================================================================== *)
(** ** Facts about the sequence loop                                   *)
(* ================================================================== *)

Module SequenceFacts.
Import JS Static Errors Driver Sequence SequenceSpec.

Lemma is_undefined_true (v : value) : is_undefined v = true -> v = VUndefined.
Proof. destruct v; simpl; congruence. Qed.

Lemma is_undefined_false (v : value) : is_undefined v = false -> v <> VUndefined.
Proof. destruct v; simpl; congruence. Qed.

Ltac norm_states :=
  cbv beta iota zeta delta
    [src_delay dest_delay called_dest kept delivered called_source tick
     set_destTime set_srcTime set_data set_tracked on_new_turn set_frames
     arrive arrives_later andb data srcTime destTime tracked clock frames].

Ltac norm_states_in H :=
  cbv beta iota zeta delta
    [src_delay dest_delay called_dest kept delivered called_source tick
     set_destTime set_srcTime set_data set_tracked on_new_turn set_frames
     arrive arrives_later andb data srcTime destTime tracked clock frames] in H.

Section Facts.

Variable now : nat -> Z.
Variable resolve : value -> nat -> value -> delay -> resolution.
Variable call : value -> nat -> value -> delay -> completion.
Variable settle : value -> settlement.
Variable source_later : value -> nat -> value -> delay -> bool.
Variable sink_later : value -> bool.
Variable source dest : value.
Variable limit : option Z.
Variable track : value.
Variable start : Z.

#[local] Abbreviation loop_body := (Sequence.loop_body now resolve call settle source_later sink_later source dest limit track start).
#[local] Abbreviation loop := (Sequence.loop now resolve call settle source_later sink_later source dest limit track start).
#[local] Abbreviation next := (Sequence.next now limit track start).
#[local] Abbreviation success := (Sequence.success now track start).
#[local] Abbreviation iteration := (SequenceSpec.iteration now resolve call settle source_later sink_later source dest limit track start).
#[local] Abbreviation arrives_later := (SequenceSpec.arrives_later now source_later source).

Ltac use_case H :=
  norm_states_in H;
  repeat match goal with
  | E : truthy track = _ |- _ => rewrite E in H
  | E : source_later _ _ _ _ = _ |- _ => norm_states_in E; rewrite E in H
  | E : sink_later _ = _ |- _ => rewrite E in H
  end;
  norm_states_in H; solve [eapply H; eauto].

Ltac by_case K :=
  let H := fresh "K" in
  match goal with
  | Hres : _ = OnSuccess ?v ?d |- _ => epose proof (K v d) as H
  end;
  use_case H.

Ltac by_promise K :=
  let H := fresh "K" in
  match goal with
  | Hres : _ = OnSuccess ?v ?d, Hs : settle ?r = _ ?w |- _ =>
      epose proof (K v d r w) as H
  end;
  use_case H.

Lemma loop_body_iteration (idx : nat) (st : state) :
  iteration idx st (fst (loop_body idx st)) (snd (loop_body idx st)).
Proof.
  unfold Sequence.loop_body.
  destruct (resolve source idx (data st) (delay_at idx (now (clock st)) (srcTime st)))
    as [v delayed|reason isRej] eqn:Hres.
  - unfold on_success. cbn [data set_data].
    destruct (is_undefined v) eqn:Hv;
      [ apply is_undefined_true in Hv; subst v; cbn [fst snd app];
        now apply source_ended |].
    apply is_undefined_false in Hv. unfold notify.
    destruct (source_later source idx (data st)
                (delay_at idx (now (clock st)) (srcTime st))) eqn:Hsl.
    all: destruct (truthy track) eqn:Htr, delayed;
        (destruct (truthy dest) eqn:Hdest;
         [ norm_states;
           destruct (call dest idx v _) as [r|e] eqn:Hcall;
           [ destruct (isPromise r) eqn:Hp;
             [ destruct (settle r) as [w|error] eqn:Hs;
               [ destruct (sink_later r) eqn:Hsk |] |] |] |]);
        norm_states; cbn [fst snd app].
    all: first
      [ by_promise (dest_fulfilled now resolve call settle source_later sink_later source dest limit track start idx st)
      | by_promise (dest_rejected now resolve call settle source_later sink_later source dest limit track start idx st)
      | by_case (dest_returned now resolve call settle source_later sink_later source dest limit track start idx st)
      | by_case (dest_threw now resolve call settle source_later sink_later source dest limit track start idx st)
      | by_case (no_dest now resolve call settle source_later sink_later source dest limit track start idx st) ].
  - cbn [on_error fst snd app].
    exact (source_failed _ _ _ _ _ _ _ _ _ _ _ idx st reason isRej Hres).
Qed.

Lemma loop_S (fuel idx : nat) (st : state) :
  loop (S fuel) idx st =
  match snd (loop_body idx st) with
  | Stop o => (fst (loop_body idx st), Some o)
  | Recurse idx' st' =>
      (fst (loop_body idx st) ++ Direct idx'
         :: fst (loop fuel idx' (set_frames st' (S (frames st')))),
       snd (loop fuel idx' (set_frames st' (S (frames st')))))
  | Defer idx' st' =>
      (fst (loop_body idx st) ++ Scheduled idx'
         :: fst (loop fuel idx' (set_frames st' 1)),
       snd (loop fuel idx' (set_frames st' 1)))
  end.
Proof.
  cbn [Sequence.loop]. destruct (loop_body idx st) as [called [o|idx' st'|idx' st']];
    cbn [fst snd]; try reflexivity.
  - now destruct (loop fuel idx' _).
  - now destruct (loop fuel idx' _).
Qed.

(** Induction over a run, one activation of [loop] at a time. *)
Lemma loop_ind
    (P : nat -> state -> list event -> option (outcome result) -> Prop) :
  (forall idx st, P idx st [] None) ->
  (forall idx st called o,
      iteration idx st called (Stop o) -> P idx st called (Some o)) ->
  (forall idx st called idx' st' rest o,
      iteration idx st called (Recurse idx' st') ->
      P idx' (set_frames st' (S (frames st'))) rest o ->
      P idx st (called ++ Direct idx' :: rest) o) ->
  (forall idx st called idx' st' rest o,
      iteration idx st called (Defer idx' st') ->
      P idx' (set_frames st' 1) rest o ->
      P idx st (called ++ Scheduled idx' :: rest) o) ->
  forall fuel idx st, P idx st (fst (loop fuel idx st)) (snd (loop fuel idx st)).
Proof.
  intros Hout Hstop Hdirect Hdefer.
  induction fuel as [|fuel IH]; intros idx st.
  - apply Hout.
  - rewrite loop_S. pose proof (loop_body_iteration idx st) as Hit.
    destruct (snd (loop_body idx st)) as [o|idx' st'|idx' st']; cbn [fst snd].
    + now apply Hstop.
    + eapply Hdirect; [exact Hit | apply IH].
    + eapply Hdefer; [exact Hit | apply IH].
Qed.

Lemma next_stop (idx : nat) (st : state) (delayed : bool) (o : outcome result) :
  next idx st delayed = Stop o ->
  limit_is limit (S idx) = true /\ o = success (S idx) st.
Proof.
  unfold Sequence.next. destruct (limit_is limit (S idx)), delayed;
    intros H; inversion H; auto.
Qed.

Lemma next_recurse (idx : nat) (st : state) (delayed : bool) idx' st' :
  next idx st delayed = Recurse idx' st' ->
  limit_is limit (S idx) = false /\ idx' = S idx /\ st' = st /\ delayed = true.
Proof.
  unfold Sequence.next. destruct (limit_is limit (S idx)), delayed;
    intros H; inversion H; auto.
Qed.

Lemma next_defer (idx : nat) (st : state) (delayed : bool) idx' st' :
  next idx st delayed = Defer idx' st' ->
  limit_is limit (S idx) = false /\ idx' = S idx /\ st' = st /\ delayed = false.
Proof.
  unfold Sequence.next. destruct (limit_is limit (S idx)), delayed;
    intros H; inversion H; auto.
Qed.

Lemma source_indices_app (a b : list event) :
  source_indices (a ++ b) = source_indices a ++ source_indices b.
Proof. apply omap_app. Qed.

Lemma iteration_source_indices idx st called s :
  iteration idx st called s -> source_indices called = [idx].
Proof. intros H; inversion H; reflexivity. Qed.

Lemma iteration_source_event idx st called s :
  iteration idx st called s ->
  In (Source idx (data st) (src_delay now idx st)) called.
Proof. intros H; inversion H; cbn; auto. Qed.

Lemma iteration_index idx st called s idx' st' :
  iteration idx st called s ->
  s = Recurse idx' st' \/ s = Defer idx' st' ->
  idx' = S idx /\ limit_is limit (S idx) = false.
Proof.
  intros H Hs. inversion H; subst; clear H;
    destruct Hs as [Hs|Hs]; try discriminate;
    first [ apply next_recurse in Hs | apply next_defer in Hs ]; tauto.
Qed.

Lemma iteration_resolved_stop idx st called r :
  iteration idx st called (Stop (Resolved r)) ->
  limit_is limit (S idx) = true \/
  exists delayed,
    resolve source idx (data st) (src_delay now idx st)
    = OnSuccess VUndefined delayed.
Proof.
  intros H. inversion H; subst; clear H; try discriminate.
  - right; eauto.
  - left. match goal with H : _ = Stop _ |- _ => apply next_stop in H end. tauto.
  - left. match goal with H : _ = Stop _ |- _ => apply next_stop in H end. tauto.
  - left. match goal with H : _ = Stop _ |- _ => apply next_stop in H end. tauto.
Qed.

Lemma limit_is_nat (L idx : nat) :
  limit_is (Some (Z.of_nat L)) idx = bool_decide (L = idx).
Proof.
  unfold limit_is. destruct (Z.eqb_spec (Z.of_nat L) (Z.of_nat idx)) as [E|E].
  - apply Nat2Z.inj in E. now rewrite bool_decide_eq_true_2.
  - rewrite bool_decide_eq_false_2; [reflexivity|]. intros ->. now apply E.
Qed.

(** The limit law and the ordering law on a run of [loop] entered at
    [idx]. *)
Lemma loop_source_calls (fuel idx : nat) (st : state) :
  exists n : nat,
    source_indices (fst (loop fuel idx st)) = seq idx n /\
    (forall L : nat,
        limit = Some (Z.of_nat L) -> (idx < L)%nat ->
        (idx + n <= L)%nat /\
        (forall r, snd (loop fuel idx st) = Some (Resolved r) ->
                   (idx + n)%nat = L \/
                   ended_by_undefined resolve source (fst (loop fuel idx st)))).
Proof.
  apply (loop_ind (fun idx st trace o =>
    exists n : nat,
      source_indices trace = seq idx n /\
      (forall L : nat,
          limit = Some (Z.of_nat L) -> (idx < L)%nat ->
          (idx + n <= L)%nat /\
          (forall r, o = Some (Resolved r) ->
                     (idx + n)%nat = L \/
                     ended_by_undefined resolve source trace)))); clear.
  - intros idx st. exists 0%nat. split; [reflexivity|].
    intros L _ HL. split; [lia|discriminate].
  - intros idx st called o Hit. exists 1%nat. split.
    + now apply iteration_source_indices in Hit.
    + intros L Hlim HL. split; [lia|]. intros r [= ->].
      destruct (iteration_resolved_stop _ _ _ _ Hit) as [Hl|[delayed Hres]].
      * left. rewrite Hlim, limit_is_nat in Hl.
        apply bool_decide_eq_true_1 in Hl. lia.
      * right. exists idx, (data st), (src_delay now idx st), delayed.
        split; [|exact Hres]. eapply iteration_source_event; eauto.
  - intros idx st called idx' st' rest o Hit [n [Hn IH]].
    destruct (iteration_index _ _ _ _ _ _ Hit (or_introl eq_refl)) as [-> Hl].
    exists (S n). split.
    + rewrite source_indices_app, (iteration_source_indices _ _ _ _ Hit).
      change (source_indices (Direct (S idx) :: rest)) with (source_indices rest).
      now rewrite Hn.
    + intros L Hlim HL. rewrite Hlim, limit_is_nat in Hl.
      apply bool_decide_eq_false_1 in Hl.
      destruct (IH L Hlim ltac:(lia)) as [Hle Hres]. split; [lia|].
      intros r Ho. destruct (Hres r Ho) as [E|(i & d & dl & dd & Hin & Hr)].
      * left; lia.
      * right. exists i, d, dl, dd. split; [|exact Hr].
        apply in_or_app. right. now right.
  - intros idx st called idx' st' rest o Hit [n [Hn IH]].
    destruct (iteration_index _ _ _ _ _ _ Hit (or_intror eq_refl)) as [-> Hl].
    exists (S n). split.
    + rewrite source_indices_app, (iteration_source_indices _ _ _ _ Hit).
      change (source_indices (Scheduled (S idx) :: rest)) with (source_indices rest).
      now rewrite Hn.
    + intros L Hlim HL. rewrite Hlim, limit_is_nat in Hl.
      apply bool_decide_eq_false_1 in Hl.
      destruct (IH L Hlim ltac:(lia)) as [Hle Hres]. split; [lia|].
      intros r Ho. destruct (Hres r Ho) as [E|(i & d & dl & dd & Hin & Hr)].
      * left; lia.
      * right. exists i, d, dl, dd. split; [|exact Hr].
        apply in_or_app. right. now right.
Qed.

(* ------------------------------------------------------------------ *)
(** *** How the next activation is entered                             *)

Lemma iteration_events idx st called s ev :
  iteration idx st called s ->
  In ev called ->
  ev = Loop idx (frames st) \/
  ev = Source idx (data st) (src_delay now idx st) \/
  exists v dl, ev = Dest idx v dl.
Proof.
  intros H Hin. inversion H; subst; clear H; cbn in Hin;
    intuition (subst; eauto).
Qed.

Lemma iteration_recurse idx st called idx' st' :
  iteration idx st called (Recurse idx' st') ->
  ((forall i d dl, source_later source i d dl = true) ->
   (forall p, sink_later p = true) ->
   frames st' = 0%nat) /\
  exists v delayed,
    resolve source idx (data st) (src_delay now idx st) = OnSuccess v delayed /\
    (delayed = true \/
     exists dl p, In (Dest idx v dl) called /\
                  call dest idx v dl = Returns p /\ isPromise p = true).
Proof.
  intros H. inversion H; subst; clear H;
    match goal with
    | H : _ = Recurse _ _ |- _ =>
        apply next_recurse in H; destruct H as (_ & _ & -> & ?); subst
    end.
  - split; [|eauto 6]. intros Hsrc _.
    unfold kept, delivered, SequenceSpec.arrives_later. rewrite Hsrc.
    now destruct (truthy track).
  - split; [|eauto 6]. intros Hsrc _.
    unfold called_dest, kept, delivered, SequenceSpec.arrives_later.
    rewrite Hsrc. now destruct (truthy track).
  - split; [intros _ Hsink; now rewrite Hsink|].
    exists v, delayed. split; [assumption|].
    right. exists (dest_delay now track idx st v (arrives_later idx st delayed)), r.
    cbn. auto.
Qed.

Lemma iteration_defer idx st called idx' st' :
  iteration idx st called (Defer idx' st') ->
  exists v,
    resolve source idx (data st) (src_delay now idx st) = OnSuccess v false /\
    (truthy dest = false \/
     exists dl p, In (Dest idx v dl) called /\
                  call dest idx v dl = Returns p /\ isPromise p = false).
Proof.
  intros H. inversion H; subst; clear H;
    match goal with
    | H : _ = Defer _ _ |- _ =>
        apply next_defer in H; destruct H as (_ & _ & -> & ?); subst
    end; try discriminate.
  - eauto.
  - exists v. split; [assumption|]. right.
    exists (dest_delay now track idx st v false), r. cbn. auto.
Qed.

(** When every deferred calls back on a later turn, as the promises of a
    Promises/A+ library do, every activation of [loop] has a single
    activation of [loop] on the stack: its own. *)
Lemma loop_frames (fuel idx : nat) (st : state) :
  (forall i d dl, source_later source i d dl = true) ->
  (forall p, sink_later p = true) ->
  frames st = 1%nat ->
  forall i f, In (Loop i f) (fst (loop fuel idx st)) -> f = 1%nat.
Proof.
  intros Hsrc Hsink. revert fuel idx st.
  apply (loop_ind (fun idx st trace o =>
    frames st = 1%nat -> forall i f, In (Loop i f) trace -> f = 1%nat)).
  - intros idx st _ i f [].
  - intros idx st called o Hit Hf i f Hin.
    destruct (iteration_events _ _ _ _ _ Hit Hin) as [E|[E|(v & dl & E)]];
      congruence.
  - intros idx st called idx' st' rest o Hit IH Hf i f Hin.
    apply in_app_or in Hin. destruct Hin as [Hin|[Hin|Hin]]; try discriminate.
    + destruct (iteration_events _ _ _ _ _ Hit Hin) as [E|[E|(v & dl & E)]];
        congruence.
    + destruct (iteration_recurse _ _ _ _ _ Hit) as [Hfr _].
      apply (IH ltac:(cbn; now rewrite (Hfr Hsrc Hsink)) i f Hin).
  - intros idx st called idx' st' rest o Hit IH Hf i f Hin.
    apply in_app_or in Hin. destruct Hin as [Hin|[Hin|Hin]]; try discriminate.
    + destruct (iteration_events _ _ _ _ _ Hit Hin) as [E|[E|(v & dl & E)]];
        congruence.
    + apply (IH eq_refl i f Hin).
Qed.

(** Whatever the deferreds do, a run that makes no direct call has a
    single activation of [loop] on the stack at every activation. *)
Lemma loop_frames_scheduled (fuel idx : nat) (st : state) :
  frames st = 1%nat ->
  (forall i, ~ In (Direct i) (fst (loop fuel idx st))) ->
  forall i f, In (Loop i f) (fst (loop fuel idx st)) -> f = 1%nat.
Proof.
  revert fuel idx st.
  apply (loop_ind (fun idx st trace o =>
    frames st = 1%nat ->
    (forall i, ~ In (Direct i) trace) ->
    forall i f, In (Loop i f) trace -> f = 1%nat)).
  - intros idx st _ _ i f [].
  - intros idx st called o Hit Hf _ i f Hin.
    destruct (iteration_events _ _ _ _ _ Hit Hin) as [E|[E|(v & dl & E)]];
      congruence.
  - intros idx st called idx' st' rest o Hit IH Hf Hno i f Hin.
    exfalso. apply (Hno idx'). apply in_or_app. right. left. reflexivity.
  - intros idx st called idx' st' rest o Hit IH Hf Hno i f Hin.
    apply in_app_or in Hin. destruct Hin as [Hin|[Hin|Hin]]; try discriminate.
    + destruct (iteration_events _ _ _ _ _ Hit Hin) as [E|[E|(v & dl & E)]];
        congruence.
    + apply (IH eq_refl) with (i := i); [|exact Hin].
      intros j Hj. apply (Hno j). apply in_or_app. right. now right.
Qed.

(** A direct call of [loop] follows an asynchronous resolution or an
    asynchronous sink. *)
Lemma loop_direct (fuel idx : nat) (st : state) :
  forall i, In (Direct i) (fst (loop fuel idx st)) ->
  exists j d dl v delayed,
    i = S j /\
    In (Source j d dl) (fst (loop fuel idx st)) /\
    resolve source j d dl = OnSuccess v delayed /\
    (delayed = true \/
     exists ddl p, In (Dest j v ddl) (fst (loop fuel idx st)) /\
                   call dest j v ddl = Returns p /\ isPromise p = true).
Proof.
  apply (loop_ind (fun idx st trace o =>
    forall i, In (Direct i) trace ->
    exists j d dl v delayed,
      i = S j /\ In (Source j d dl) trace /\
      resolve source j d dl = OnSuccess v delayed /\
      (delayed = true \/
       exists ddl p, In (Dest j v ddl) trace /\
                     call dest j v ddl = Returns p /\ isPromise p = true)));
    clear.
  - intros idx st i [].
  - intros idx st called o Hit i Hin.
    destruct (iteration_events _ _ _ _ _ Hit Hin) as [E|[E|(v & dl & E)]];
      discriminate.
  - intros idx st called idx' st' rest o Hit IH i Hin.
    apply in_app_or in Hin. destruct Hin as [Hin|[Hin|Hin]].
    + destruct (iteration_events _ _ _ _ _ Hit Hin) as [E|[E|(v & dl & E)]];
        discriminate.
    + injection Hin as <-.
      destruct (iteration_index _ _ _ _ _ _ Hit (or_introl eq_refl)) as [-> _].
      destruct (iteration_recurse _ _ _ _ _ Hit) as (_ & v & delayed & Hres & Hd).
      exists idx, (data st), (src_delay now idx st), v, delayed.
      split; [reflexivity|]. split.
      { apply in_or_app. left. eapply iteration_source_event; eauto. }
      split; [exact Hres|].
      destruct Hd as [->|(ddl & p & Hd & Hc & Hp)]; [now left|right].
      exists ddl, p. split; [apply in_or_app; now left|auto].
    + destruct (IH i Hin) as (j & d & dl & v & delayed & -> & Hs & Hres & Hd).
      exists j, d, dl, v, delayed. split; [reflexivity|].
      split; [apply in_or_app; right; now right|]. split; [exact Hres|].
      destruct Hd as [->|(ddl & p & Hd & Hc & Hp)]; [now left|right].
      exists ddl, p. split; [apply in_or_app; right; now right|auto].
  - intros idx st called idx' st' rest o Hit IH i Hin.
    apply in_app_or in Hin. destruct Hin as [Hin|[Hin|Hin]]; try discriminate.
    + destruct (iteration_events _ _ _ _ _ Hit Hin) as [E|[E|(v & dl & E)]];
        discriminate.
    + destruct (IH i Hin) as (j & d & dl & v & delayed & -> & Hs & Hres & Hd).
      exists j, d, dl, v, delayed. split; [reflexivity|].
      split; [apply in_or_app; right; now right|]. split; [exact Hres|].
      destruct Hd as [->|(ddl & p & Hd & Hc & Hp)]; [now left|right].
      exists ddl, p. split; [apply in_or_app; right; now right|auto].
Qed.

(** A scheduled call of [loop] follows a synchronous resolution with no
    asynchronous sink. *)
Lemma loop_scheduled (fuel idx : nat) (st : state) :
  forall i, In (Scheduled i) (fst (loop fuel idx st)) ->
  exists j d dl v,
    i = S j /\
    In (Source j d dl) (fst (loop fuel idx st)) /\
    resolve source j d dl = OnSuccess v false /\
    (truthy dest = false \/
     exists ddl p, In (Dest j v ddl) (fst (loop fuel idx st)) /\
                   call dest j v ddl = Returns p /\ isPromise p = false).
Proof.
  apply (loop_ind (fun idx st trace o =>
    forall i, In (Scheduled i) trace ->
    exists j d dl v,
      i = S j /\ In (Source j d dl) trace /\
      resolve source j d dl = OnSuccess v false /\
      (truthy dest = false \/
       exists ddl p, In (Dest j v ddl) trace /\
                     call dest j v ddl = Returns p /\ isPromise p = false)));
    clear.
  - intros idx st i [].
  - intros idx st called o Hit i Hin.
    destruct (iteration_events _ _ _ _ _ Hit Hin) as [E|[E|(v & dl & E)]];
      discriminate.
  - intros idx st called idx' st' rest o Hit IH i Hin.
    apply in_app_or in Hin. destruct Hin as [Hin|[Hin|Hin]]; try discriminate.
    + destruct (iteration_events _ _ _ _ _ Hit Hin) as [E|[E|(v & dl & E)]];
        discriminate.
    + destruct (IH i Hin) as (j & d & dl & v & -> & Hs & Hres & Hd).
      exists j, d, dl, v. split; [reflexivity|].
      split; [apply in_or_app; right; now right|]. split; [exact Hres|].
      destruct Hd as [?|(ddl & p & Hd & Hc & Hp)]; [now left|right].
      exists ddl, p. split; [apply in_or_app; right; now right|auto].
  - intros idx st called idx' st' rest o Hit IH i Hin.
    apply in_app_or in Hin. destruct Hin as [Hin|[Hin|Hin]].
    + destruct (iteration_events _ _ _ _ _ Hit Hin) as [E|[E|(v & dl & E)]];
        discriminate.
    + injection Hin as <-.
      destruct (iteration_index _ _ _ _ _ _ Hit (or_intror eq_refl)) as [-> _].
      destruct (iteration_defer _ _ _ _ _ Hit) as (v & Hres & Hd).
      exists idx, (data st), (src_delay now idx st), v.
      split; [reflexivity|]. split.
      { apply in_or_app. left. eapply iteration_source_event; eauto. }
      split; [exact Hres|].
      destruct Hd as [?|(ddl & p & Hd & Hc & Hp)]; [now left|right].
      exists ddl, p. split; [apply in_or_app; now left|auto].
    + destruct (IH i Hin) as (j & d & dl & v & -> & Hs & Hres & Hd).
      exists j, d, dl, v. split; [reflexivity|].
      split; [apply in_or_app; right; now right|]. split; [exact Hres|].
      destruct Hd as [?|(ddl & p & Hd & Hc & Hp)]; [now left|right].
      exists ddl, p. split; [apply in_or_app; right; now right|auto].
Qed.

(* ------------------------------------------------------------------ *)
(** *** What an activation hands to the next                           *)

Lemma arrive_data st later : data (arrive st later) = data st.
Proof. now destruct later. Qed.

Lemma arrive_tracked st later : tracked (arrive st later) = tracked st.
Proof. now destruct later. Qed.

Lemma arrive_clock st later : clock (arrive st later) = clock st.
Proof. now destruct later. Qed.

Lemma arrive_srcTime st later : srcTime (arrive st later) = srcTime st.
Proof. now destruct later. Qed.

Lemma arrive_destTime st later : destTime (arrive st later) = destTime st.
Proof. now destruct later. Qed.

Lemma delivered_tracked st v later :
  tracked (delivered now st v later) = tracked st.
Proof. now destruct later. Qed.

Lemma kept_data st v delayed : data (kept now track st v delayed) = v.
Proof. unfold kept. now destruct (truthy track), delayed. Qed.

Lemma kept_tracked st v delayed :
  tracked (kept now track st v delayed)
  = if truthy track then push (tracked st) v else tracked st.
Proof. unfold kept. now destruct (truthy track), delayed. Qed.

Lemma kept_clock st v delayed :
  clock (kept now track st v delayed) = S (clock st).
Proof. unfold kept. now destruct (truthy track), delayed. Qed.

Lemma iteration_continues idx st called s idx' st' :
  iteration idx st called s ->
  s = Recurse idx' st' \/ s = Defer idx' st' ->
  exists v delayed,
    resolve source idx (data st) (src_delay now idx st) = OnSuccess v delayed /\
    v <> VUndefined /\
    data st' = v /\
    tracked st' = (if truthy track then push (tracked st) v else tracked st) /\
    (clock st < clock st')%nat.
Proof.
  intros H Hs. inversion H; subst; clear H;
    destruct Hs as [Hs|Hs]; try discriminate;
    first [ apply next_recurse in Hs | apply next_defer in Hs ];
    destruct Hs as (_ & _ & -> & ?); subst;
    eexists _, _; (split; [eassumption|]); (split; [assumption|]);
    rewrite ?arrive_data, ?arrive_tracked, ?arrive_clock;
    unfold called_dest;
    cbn [on_new_turn set_frames tick set_destTime data tracked clock];
    rewrite ?kept_data, ?kept_tracked, ?kept_clock; repeat split; lia.
Qed.

(* ------------------------------------------------------------------ *)
(** *** Termination by [undefined]                                     *)

Lemma iteration_goes_on idx st called s v delayed :
  iteration idx st called s ->
  resolve source idx (data st) (src_delay now idx st) = OnSuccess v delayed ->
  v <> VUndefined ->
  limit_is limit (S idx) = false ->
  (truthy dest = true ->
   forall dl, exists r,
     call dest idx v dl = Returns r /\
     (isPromise r = true -> exists w, settle r = Fulfils w)) ->
  exists st', s = Recurse (S idx) st' \/ s = Defer (S idx) st'.
Proof.
  intros H Hres Hv Hl Hdest.
  assert (Hnext : forall st0 d, exists st',
    next idx st0 d = Recurse (S idx) st' \/ next idx st0 d = Defer (S idx) st').
  { intros st0 d. unfold Sequence.next. rewrite Hl. destruct d; eauto. }
  inversion H; subst; clear H; try congruence;
    match goal with
    | H1 : resolve _ _ _ _ = OnSuccess _ _ |- _ =>
        rewrite Hres in H1; injection H1 as <- <-
    end;
    try apply Hnext;
    match goal with
    | Hd : truthy dest = true, Hc : call dest _ _ ?dl = _ |- _ =>
        destruct (Hdest Hd dl) as (r' & Hr' & Hp');
        rewrite Hr' in Hc; try discriminate; injection Hc as <-
    end;
    match goal with
    | Hp : isPromise _ = true |- _ => destruct (Hp' Hp) as [w' Hw']; congruence
    end.
Qed.

Lemma loop_ends_at_undefined (k : nat) :
  (forall i d dl, (i < k)%nat ->
      exists v delayed,
        resolve source i d dl = OnSuccess v delayed /\ v <> VUndefined) ->
  (forall d dl, exists delayed,
      resolve source k d dl = OnSuccess VUndefined delayed) ->
  (truthy dest = true ->
   forall i v dl, (i < k)%nat ->
      exists r, call dest i v dl = Returns r /\
                (isPromise r = true -> exists w, settle r = Fulfils w)) ->
  (forall i, (1 <= i <= k)%nat -> limit_is limit i = false) ->
  truthy track = false ->
  forall fuel idx st,
    (idx <= k)%nat -> (k - idx < fuel)%nat ->
    exists c,
      snd (loop fuel idx st) = Some (Resolved (Summary k (now c - start))).
Proof.
  intros Hsrc Hend Hdest Hlim Htrack.
  induction fuel as [|fuel IH]; intros idx st Hle Hfuel; [lia|].
  rewrite loop_S. pose proof (loop_body_iteration idx st) as Hit.
  destruct (Nat.eq_dec idx k) as [->|Hne].
  - destruct (Hend (data st) (src_delay now k st)) as [delayed Hres].
    inversion Hit; subst; try congruence.
    cbn [snd]. unfold Sequence.success. rewrite Htrack. eauto.
  - destruct (Hsrc idx (data st) (src_delay now idx st) ltac:(lia))
      as (v & delayed & Hres & Hv).
    destruct (iteration_goes_on _ _ _ _ _ _ Hit Hres Hv) as [st' [E|E]].
    + apply Hlim; lia.
    + intros Hd dl. apply Hdest; [exact Hd|lia].
    + rewrite E. cbn [snd]. apply IH; lia.
    + rewrite E. cbn [snd]. apply IH; lia.
Qed.

(* ------------------------------------------------------------------ *)
(** *** The tracked array                                              *)

Lemma resolved_values_app (a b : list event) :
  resolved_values resolve source (a ++ b)
  = resolved_values resolve source a ++ resolved_values resolve source b.
Proof. apply omap_app. Qed.

Lemma iteration_resolved_values idx st called s v delayed :
  iteration idx st called s ->
  resolve source idx (data st) (src_delay now idx st) = OnSuccess v delayed ->
  resolved_values resolve source called
  = if is_undefined v then [] else [v].
Proof.
  intros H Hres.
  assert (E : resolved_values resolve source
                [Source idx (data st) (src_delay now idx st)]
              = if is_undefined v then [] else [v]).
  { unfold resolved_values. simpl. rewrite Hres. now destruct v. }
  inversion H; subst; clear H; exact E.
Qed.

Lemma extend_fresh (arr : array_object Z) (d : Z) :
  named arr = ∅ ->
  extend arr "duration" d
  = Some (ArrayObject (elems arr)
            {["duration" := Descriptor d false false false]}).
Proof.
  intros E. unfold extend, defineProperty. rewrite E, lookup_empty.
  now rewrite insert_empty.
Qed.

Lemma success_tracked idx st :
  truthy track = true ->
  named (tracked st) = ∅ ->
  success idx st
  = Resolved (Tracked (ArrayObject (elems (tracked st))
       {["duration" := Descriptor (now (clock st) - start) false false false]})).
Proof.
  intros Ht E. unfold Sequence.success. now rewrite Ht, extend_fresh.
Qed.

Lemma loop_tracked (fuel idx : nat) (st : state) :
  truthy track = true ->
  named (tracked st) = ∅ ->
  forall r, snd (loop fuel idx st) = Some (Resolved r) ->
  exists d,
    r = Tracked (ArrayObject
          (elems (tracked st)
           ++ resolved_values resolve source (fst (loop fuel idx st)))
          {["duration" := Descriptor d false false false]}).
Proof.
  intros Ht. revert fuel idx st.
  apply (loop_ind (fun idx st trace o =>
    named (tracked st) = ∅ ->
    forall r, o = Some (Resolved r) ->
    exists d,
      r = Tracked (ArrayObject
            (elems (tracked st) ++ resolved_values resolve source trace)
            {["duration" := Descriptor d false false false]}))).
  - intros idx st _ r [=].
  - intros idx st called o Hit Hn r [= ->].
    inversion Hit; subst; clear Hit; try discriminate.
    + (* the source ended the sequence *)
      match goal with H : Sequence.success _ _ _ _ _ = _ |- _ =>
        rewrite success_tracked in H
          by (assumption || (now rewrite delivered_tracked));
        injection H as <-
      end.
      eexists.
      erewrite (iteration_resolved_values idx st) by
        (eauto using source_ended). cbn [is_undefined].
      now rewrite app_nil_r, arrive_tracked.
    + match goal with H : _ = Stop _ |- _ =>
        apply next_stop in H; destruct H as [_ H] end.
      rewrite success_tracked in H
        by (assumption || (rewrite kept_tracked, Ht; exact Hn)).
      injection H as ->. eexists.
      erewrite (iteration_resolved_values idx st) by
        (eauto using no_dest).
      rewrite kept_tracked, Ht. cbn [push elems].
      destruct v; try congruence; reflexivity.
    + match goal with H : _ = Stop _ |- _ =>
        apply next_stop in H; destruct H as [_ H] end.
      rewrite success_tracked in H
        by (assumption || (cbn; rewrite kept_tracked, Ht; exact Hn)).
      injection H as ->. eexists.
      erewrite (iteration_resolved_values idx st) by
        (eauto using dest_returned).
      cbn [called_dest tick set_destTime tracked].
      rewrite kept_tracked, Ht. cbn [push elems].
      destruct v; try congruence; reflexivity.
    + match goal with H : _ = Stop _ |- _ =>
        apply next_stop in H; destruct H as [_ H] end.
      rewrite success_tracked in H
        by (assumption ||
            (rewrite arrive_tracked; cbn; rewrite kept_tracked, Ht; exact Hn)).
      injection H as ->. eexists.
      erewrite (iteration_resolved_values idx st) by
        (eauto using dest_fulfilled).
      rewrite arrive_tracked.
      cbn [called_dest tick set_destTime on_new_turn set_frames tracked].
      rewrite kept_tracked, Ht. cbn [push elems].
      destruct v; try congruence; reflexivity.
  - intros idx st called idx' st' rest o Hit IH Hn r Ho.
    destruct (iteration_continues _ _ _ _ _ _ Hit (or_introl eq_refl))
      as (v & delayed & Hres & Hv & _ & Htr & _).
    rewrite Ht in Htr.
    destruct (IH ltac:(cbn; rewrite Htr; exact Hn) r Ho) as [d ->].
    exists d. cbn [set_frames tracked]. rewrite Htr. cbn [push elems].
    rewrite resolved_values_app,
      (iteration_resolved_values _ _ _ _ _ _ Hit Hres).
    replace (is_undefined v) with false by (now destruct v).
    now rewrite <- app_assoc.
  - intros idx st called idx' st' rest o Hit IH Hn r Ho.
    destruct (iteration_continues _ _ _ _ _ _ Hit (or_intror eq_refl))
      as (v & delayed & Hres & Hv & _ & Htr & _).
    rewrite Ht in Htr.
    destruct (IH ltac:(cbn; rewrite Htr; exact Hn) r Ho) as [d ->].
    exists d. cbn [set_frames tracked]. rewrite Htr. cbn [push elems].
    rewrite resolved_values_app,
      (iteration_resolved_values _ _ _ _ _ _ Hit Hres).
    replace (is_undefined v) with false by (now destruct v).
    now rewrite <- app_assoc.
Qed.

(* ------------------------------------------------------------------ *)
(** *** What the callbacks are called with                             *)

(** Linked sequencing: [source] gets [undefined] first and then the value
    its previous call resolved with. *)
Lemma loop_source_data (fuel idx : nat) (st : state) :
  forall j d dl, In (Source j d dl) (fst (loop fuel idx st)) ->
  (j = idx /\ d = data st) \/
  ((idx < j)%nat /\
   exists d' dl' delayed,
     In (Source (j - 1) d' dl') (fst (loop fuel idx st)) /\
     resolve source (j - 1) d' dl' = OnSuccess d delayed).
Proof.
  apply (loop_ind (fun idx st trace o =>
    forall j d dl, In (Source j d dl) trace ->
    (j = idx /\ d = data st) \/
    ((idx < j)%nat /\
     exists d' dl' delayed,
       In (Source (j - 1) d' dl') trace /\
       resolve source (j - 1) d' dl' = OnSuccess d delayed))); clear.
  - intros idx st j d dl [].
  - intros idx st called o Hit j d dl Hin. left.
    destruct (iteration_events _ _ _ _ _ Hit Hin) as [E|[E|(v & dl' & E)]];
      try discriminate. now injection E as -> -> _.
  - intros idx st called idx' st' rest o Hit IH j d dl Hin.
    apply in_app_or in Hin. destruct Hin as [Hin|[Hin|Hin]]; try discriminate.
    + left.
      destruct (iteration_events _ _ _ _ _ Hit Hin) as [E|[E|(v & dl' & E)]];
        try discriminate. now injection E as -> -> _.
    + right.
      destruct (iteration_index _ _ _ _ _ _ Hit (or_introl eq_refl)) as [-> _].
      destruct (iteration_continues _ _ _ _ _ _ Hit (or_introl eq_refl))
        as (v & delayed & Hres & _ & Hd & _).
      destruct (IH j d dl Hin) as [[-> ->]|(Hlt & d' & dl' & dd & Hs & Hr)].
      * split; [lia|]. exists (data st), (src_delay now idx st), delayed.
        replace (S idx - 1)%nat with idx by lia. split.
        { apply in_or_app. left. eapply iteration_source_event; eauto. }
        cbn [set_frames data]. now rewrite Hd.
      * split; [lia|]. exists d', dl', dd. split; [|exact Hr].
        apply in_or_app. right. now right.
  - intros idx st called idx' st' rest o Hit IH j d dl Hin.
    apply in_app_or in Hin. destruct Hin as [Hin|[Hin|Hin]]; try discriminate.
    + left.
      destruct (iteration_events _ _ _ _ _ Hit Hin) as [E|[E|(v & dl' & E)]];
        try discriminate. now injection E as -> -> _.
    + right.
      destruct (iteration_index _ _ _ _ _ _ Hit (or_intror eq_refl)) as [-> _].
      destruct (iteration_continues _ _ _ _ _ _ Hit (or_intror eq_refl))
        as (v & delayed & Hres & _ & Hd & _).
      destruct (IH j d dl Hin) as [[-> ->]|(Hlt & d' & dl' & dd & Hs & Hr)].
      * split; [lia|]. exists (data st), (src_delay now idx st), delayed.
        replace (S idx - 1)%nat with idx by lia. split.
        { apply in_or_app. left. eapply iteration_source_event; eauto. }
        cbn [set_frames data]. now rewrite Hd.
      * split; [lia|]. exists d', dl', dd. split; [|exact Hr].
        apply in_or_app. right. now right.
Qed.

Lemma success_not_rejected idx st rej : success idx st <> Rejected rej.
Proof.
  unfold Sequence.success. destruct (truthy track); [|discriminate].
  destruct (extend _ _ _); discriminate.
Qed.

(** A rejected run failed on its source or on its sink. *)
Lemma loop_rejected (fuel idx : nat) (st : state) :
  forall rej, snd (loop fuel idx st) = Some (Rejected rej) ->
  exists e,
    rej = Failure e /\ name e = "SequenceError" /\
    (failed_on_source resolve source (fst (loop fuel idx st)) e \/
     failed_on_sink call settle dest (fst (loop fuel idx st)) e).
Proof.
  apply (loop_ind (fun idx st trace o =>
    forall rej, o = Some (Rejected rej) ->
    exists e,
      rej = Failure e /\ name e = "SequenceError" /\
      (failed_on_source resolve source trace e \/
       failed_on_sink call settle dest trace e))); clear.
  - intros idx st rej [=].
  - intros idx st called o Hit rej [= ->].
    inversion Hit; subst; clear Hit;
      try (match goal with H : _ = Stop _ |- _ =>
             apply next_stop in H; destruct H as [_ H]; symmetry in H;
             now apply success_not_rejected in H end);
      try (match goal with H : Sequence.success _ _ _ _ _ = _ |- _ =>
             now apply success_not_rejected in H end).
    all: eexists; (split; [reflexivity|]); (split; [reflexivity|]).
    + left. exists [], idx, (frames st), (data st), (src_delay now idx st).
      eexists _, _. cbn. repeat split; eauto.
    + right.
      exists [Loop idx (frames st); Source idx (data st) (src_delay now idx st)],
        idx, v, (dest_delay now track idx st v (arrives_later idx st delayed)).
      eexists. cbn. split; [reflexivity|]. split; [left; eauto|].
      repeat split.
    + right.
      exists [Loop idx (frames st); Source idx (data st) (src_delay now idx st)],
        idx, v, (dest_delay now track idx st v (arrives_later idx st delayed)).
      eexists. cbn. split; [reflexivity|]. split; [right; eauto|].
      repeat split.
  - intros idx st called idx' st' rest o Hit IH rej Ho.
    destruct (IH rej Ho) as (e & -> & Hname & Hcase).
    exists e. split; [reflexivity|]. split; [exact Hname|].
    destruct Hcase as [(pre & H)|(pre & H)]; [left|right];
      exists (called ++ Direct idx' :: pre).
    + destruct H as (i & f & d & dl & reason & isRej & -> & H).
      exists i, f, d, dl, reason, isRej.
      split; [now rewrite <- app_assoc|exact H].
    + destruct H as (i & v & dl & err & -> & H).
      exists i, v, dl, err. split; [now rewrite <- app_assoc|exact H].
  - intros idx st called idx' st' rest o Hit IH rej Ho.
    destruct (IH rej Ho) as (e & -> & Hname & Hcase).
    exists e. split; [reflexivity|]. split; [exact Hname|].
    destruct Hcase as [(pre & H)|(pre & H)]; [left|right];
      exists (called ++ Scheduled idx' :: pre).
    + destruct H as (i & f & d & dl & reason & isRej & -> & H).
      exists i, f, d, dl, reason, isRej.
      split; [now rewrite <- app_assoc|exact H].
    + destruct H as (i & v & dl & err & -> & H).
      exists i, v, dl, err. split; [now rewrite <- app_assoc|exact H].
Qed.

(* ------------------------------------------------------------------ *)
(** *** One call of [source] per index                                 *)

Lemma loop_event_bounds (fuel idx : nat) (st : state) :
  forall ev, In ev (fst (loop fuel idx st)) ->
  match ev with
  | Loop i _ | Source i _ _ | Dest i _ _ => (idx <= i)%nat
  | Direct i | Scheduled i => (idx < i)%nat
  end.
Proof.
  apply (loop_ind (fun idx st trace o =>
    forall ev, In ev trace ->
    match ev with
    | Loop i _ | Source i _ _ | Dest i _ _ => (idx <= i)%nat
    | Direct i | Scheduled i => (idx < i)%nat
    end)); clear.
  - intros idx st ev [].
  - intros idx st called o Hit ev Hin.
    destruct (iteration_events _ _ _ _ _ Hit Hin) as [->|[->|(v & dl & ->)]];
      lia.
  - intros idx st called idx' st' rest o Hit IH ev Hin.
    destruct (iteration_index _ _ _ _ _ _ Hit (or_introl eq_refl)) as [-> _].
    apply in_app_or in Hin. destruct Hin as [Hin|[<-|Hin]]; [| lia |].
    + destruct (iteration_events _ _ _ _ _ Hit Hin) as [->|[->|(v & dl & ->)]];
        lia.
    + specialize (IH ev Hin). destruct ev; lia.
  - intros idx st called idx' st' rest o Hit IH ev Hin.
    destruct (iteration_index _ _ _ _ _ _ Hit (or_intror eq_refl)) as [-> _].
    apply in_app_or in Hin. destruct Hin as [Hin|[<-|Hin]]; [| lia |].
    + destruct (iteration_events _ _ _ _ _ Hit Hin) as [->|[->|(v & dl & ->)]];
        lia.
    + specialize (IH ev Hin). destruct ev; lia.
Qed.

(** An asynchronous resolution is never followed by a scheduled call. *)
Lemma loop_delayed_not_scheduled (fuel idx : nat) (st : state) :
  forall j d dl v,
    In (Source j d dl) (fst (loop fuel idx st)) ->
    resolve source j d dl = OnSuccess v true ->
    ~ In (Scheduled (S j)) (fst (loop fuel idx st)).
Proof.
  revert fuel idx st.
  induction fuel as [|fuel IH]; intros idx st j d dl v Hin Hres Hsch;
    [destruct Hin|].
  pose proof (loop_event_bounds fuel) as Hb.
  rewrite loop_S in Hin, Hsch. pose proof (loop_body_iteration idx st) as Hit.
  destruct (snd (loop_body idx st)) as [o|idx' st'|idx' st'] eqn:Es;
    cbn [fst snd] in Hin, Hsch.
  - destruct (iteration_events _ _ _ _ _ Hit Hsch) as [E|[E|(v' & dl' & E)]];
      discriminate.
  - destruct (iteration_index _ _ _ _ _ _ Hit (or_introl eq_refl)) as [-> _].
    apply in_app_or in Hsch. destruct Hsch as [Hsch|[Hsch|Hsch]];
      try discriminate.
    { destruct (iteration_events _ _ _ _ _ Hit Hsch) as [E|[E|(v' & dl' & E)]];
        discriminate. }
    apply in_app_or in Hin. destruct Hin as [Hin|[Hin|Hin]]; try discriminate.
    + destruct (iteration_events _ _ _ _ _ Hit Hin) as [E|[E|(v' & dl' & E)]];
        try discriminate. injection E as -> _ _.
      specialize (Hb (S idx) _ _ Hsch). cbn in Hb. lia.
    + exact (IH _ _ j d dl v Hin Hres Hsch).
  - destruct (iteration_index _ _ _ _ _ _ Hit (or_intror eq_refl)) as [-> _].
    destruct (iteration_defer _ _ _ _ _ Hit) as (v0 & Hres0 & _).
    apply in_app_or in Hin. destruct Hin as [Hin|[Hin|Hin]]; try discriminate.
    + destruct (iteration_events _ _ _ _ _ Hit Hin) as [E|[E|(v' & dl' & E)]];
        try discriminate. injection E as -> -> ->. congruence.
    + apply in_app_or in Hsch. destruct Hsch as [Hsch|[Hsch|Hsch]].
      * destruct (iteration_events _ _ _ _ _ Hit Hsch) as [E|[E|(v' & dl' & E)]];
          discriminate.
      * injection Hsch as <-.
        specialize (Hb (S idx) _ _ Hin). cbn in Hb. lia.
      * exact (IH _ _ j d dl v Hin Hres Hsch).
Qed.

Lemma iteration_dest_event idx st called s j v dl :
  iteration idx st called s ->
  In (Dest j v dl) called ->
  j = idx /\
  exists delayed,
    resolve source idx (data st) (src_delay now idx st) = OnSuccess v delayed.
Proof.
  intros Hit Hin.
  inversion Hit; subst; clear Hit; cbn in Hin.
  all: repeat match goal with
       | H : _ \/ _ |- _ => destruct H
       | H : False |- _ => destruct H
       | H : Loop _ _ = Dest _ _ _ |- _ => discriminate H
       | H : Source _ _ _ = Dest _ _ _ |- _ => discriminate H
       | H : Dest _ _ _ = Dest _ _ _ |- _ => injection H as <- <- _
       end.
  all: eauto.
Qed.

(** The sink is handed the value that the source just resolved with. *)
Lemma loop_dest_data (fuel idx : nat) (st : state) :
  forall j v dl, In (Dest j v dl) (fst (loop fuel idx st)) ->
  exists d sdl delayed,
    In (Source j d sdl) (fst (loop fuel idx st)) /\
    resolve source j d sdl = OnSuccess v delayed.
Proof.
  apply (loop_ind (fun idx st trace o =>
    forall j v dl, In (Dest j v dl) trace ->
    exists d sdl delayed,
      In (Source j d sdl) trace /\
      resolve source j d sdl = OnSuccess v delayed)).
  - intros idx0 st0 j v dl [].
  - intros idx0 st0 called o Hit j v dl Hin.
    destruct (iteration_dest_event _ _ _ _ _ _ _ Hit Hin) as [-> [dd Hres]].
    exists (data st0), (src_delay now idx0 st0), dd.
    split; [eapply iteration_source_event; eauto|exact Hres].
  - intros idx0 st0 called idx' st' rest o Hit IH j v dl Hin.
    apply in_app_or in Hin. destruct Hin as [Hin|[Hin|Hin]]; try discriminate.
    + destruct (iteration_dest_event _ _ _ _ _ _ _ Hit Hin) as [-> [dd Hres]].
      exists (data st0), (src_delay now idx0 st0), dd. split; [|exact Hres].
      apply in_or_app. left. eapply iteration_source_event; eauto.
    + destruct (IH j v dl Hin) as (d & sdl & dd & H1 & H2).
      exists d, sdl, dd. split; [apply in_or_app; right; now right|exact H2].
  - intros idx0 st0 called idx' st' rest o Hit IH j v dl Hin.
    apply in_app_or in Hin. destruct Hin as [Hin|[Hin|Hin]]; try discriminate.
    + destruct (iteration_dest_event _ _ _ _ _ _ _ Hit Hin) as [-> [dd Hres]].
      exists (data st0), (src_delay now idx0 st0), dd. split; [|exact Hres].
      apply in_or_app. left. eapply iteration_source_event; eauto.
    + destruct (IH j v dl Hin) as (d & sdl & dd & H1 & H2).
      exists d, sdl, dd. split; [apply in_or_app; right; now right|exact H2].
Qed.

(** A synchronous resolution whose sink, if any, returns no promise is
    never followed by a direct call. *)
Lemma loop_sync_not_direct (fuel idx : nat) (st : state) :
  forall j d dl v,
    In (Source j d dl) (fst (loop fuel idx st)) ->
    resolve source j d dl = OnSuccess v false ->
    (forall ddl p, call dest j v ddl = Returns p -> isPromise p = false) ->
    ~ In (Direct (S j)) (fst (loop fuel idx st)).
Proof.
  revert fuel idx st.
  induction fuel as [|fuel IH]; intros idx st j d dl v Hin Hres Hsink Hdir;
    [destruct Hin|].
  pose proof (loop_event_bounds fuel) as Hb.
  rewrite loop_S in Hin, Hdir. pose proof (loop_body_iteration idx st) as Hit.
  destruct (snd (loop_body idx st)) as [o|idx' st'|idx' st'] eqn:Es;
    cbn [fst snd] in Hin, Hdir.
  - destruct (iteration_events _ _ _ _ _ Hit Hdir) as [E|[E|(v' & dl' & E)]];
      discriminate.
  - destruct (iteration_index _ _ _ _ _ _ Hit (or_introl eq_refl)) as [-> _].
    destruct (iteration_recurse _ _ _ _ _ Hit) as (_ & v0 & dd & Hres0 & Hd).
    apply in_app_or in Hin. destruct Hin as [Hin|[Hin|Hin]]; try discriminate.
    + destruct (iteration_events _ _ _ _ _ Hit Hin) as [E|[E|(v' & dl' & E)]];
        try discriminate. injection E as -> -> ->.
      rewrite Hres in Hres0. injection Hres0 as <- <-.
      destruct Hd as [Hd|(ddl & p & _ & Hc & Hp)]; [discriminate|].
      rewrite (Hsink ddl p Hc) in Hp. discriminate.
    + apply in_app_or in Hdir. destruct Hdir as [Hdir|[Hdir|Hdir]].
      * destruct (iteration_events _ _ _ _ _ Hit Hdir) as [E|[E|(v' & dl' & E)]];
          discriminate.
      * injection Hdir as <-.
        specialize (Hb (S idx) _ _ Hin). cbn in Hb. lia.
      * exact (IH _ _ j d dl v Hin Hres Hsink Hdir).
  - destruct (iteration_index _ _ _ _ _ _ Hit (or_intror eq_refl)) as [-> _].
    apply in_app_or in Hdir. destruct Hdir as [Hdir|[Hdir|Hdir]];
      try discriminate.
    { destruct (iteration_events _ _ _ _ _ Hit Hdir) as [E|[E|(v' & dl' & E)]];
        discriminate. }
    apply in_app_or in Hin. destruct Hin as [Hin|[Hin|Hin]]; try discriminate.
    + destruct (iteration_events _ _ _ _ _ Hit Hin) as [E|[E|(v' & dl' & E)]];
        try discriminate. injection E as -> _ _.
      specialize (Hb (S idx) _ _ Hdir). cbn in Hb. lia.
    + exact (IH _ _ j d dl v Hin Hres Hsink Hdir).
Qed.

(** Every activation of [loop] but the first was started by [next],
    directly or through the scheduler. *)
Lemma loop_entered (fuel idx : nat) (st : state) :
  forall i f, In (Loop i f) (fst (loop fuel idx st)) ->
  i = idx \/
  In (Direct i) (fst (loop fuel idx st)) \/
  In (Scheduled i) (fst (loop fuel idx st)).
Proof.
  apply (loop_ind (fun idx st trace o =>
    forall i f, In (Loop i f) trace ->
    i = idx \/ In (Direct i) trace \/ In (Scheduled i) trace)); clear.
  - intros idx st i f [].
  - intros idx st called o Hit i f Hin. left.
    destruct (iteration_events _ _ _ _ _ Hit Hin) as [E|[E|(v & dl & E)]];
      congruence.
  - intros idx st called idx' st' rest o Hit IH i f Hin.
    apply in_app_or in Hin. destruct Hin as [Hin|[Hin|Hin]]; try discriminate.
    + left.
      destruct (iteration_events _ _ _ _ _ Hit Hin) as [E|[E|(v & dl & E)]];
        congruence.
    + right. destruct (IH i f Hin) as [->|[H|H]].
      * left. apply in_or_app. right. now left.
      * left. apply in_or_app. right. now right.
      * right. apply in_or_app. right. now right.
  - intros idx st called idx' st' rest o Hit IH i f Hin.
    apply in_app_or in Hin. destruct Hin as [Hin|[Hin|Hin]]; try discriminate.
    + left.
      destruct (iteration_events _ _ _ _ _ Hit Hin) as [E|[E|(v & dl & E)]];
        congruence.
    + right. destruct (IH i f Hin) as [->|[H|H]].
      * right. apply in_or_app. right. now left.
      * left. apply in_or_app. right. now right.
      * right. apply in_or_app. right. now right.
Qed.

(** A failure of the source ends the run with reason code 0 or 1. *)
Lemma loop_source_error (fuel idx : nat) (st : state) :
  forall i d dl reason isRej,
    In (Source i d dl) (fst (loop fuel idx st)) ->
    resolve source i d dl = OnError reason isRej ->
    exists e,
      snd (loop fuel idx st) = Some (Rejected (Failure e)) /\
      name e = "SequenceError" /\
      code e = (if isRej then 0 else 1)%nat /\
      error e = reason /\
      index e = Some i /\
      Errors.source e = Some d /\
      Errors.dest e = None.
Proof.
  apply (loop_ind (fun idx st trace o =>
    forall i d dl reason isRej,
      In (Source i d dl) trace ->
      resolve source i d dl = OnError reason isRej ->
      exists e,
        o = Some (Rejected (Failure e)) /\
        name e = "SequenceError" /\
        code e = (if isRej then 0 else 1)%nat /\
        error e = reason /\
        index e = Some i /\
        Errors.source e = Some d /\
        Errors.dest e = None)); clear.
  - intros idx st i d dl reason isRej [].
  - intros idx st called o Hit i d dl reason isRej Hin Hres.
    destruct (iteration_events _ _ _ _ _ Hit Hin) as [E|[E|(v' & dl' & E)]];
      try discriminate. injection E as -> -> ->.
    inversion Hit; subst; clear Hit;
      match goal with
      | H1 : resolve ?a ?b ?c ?d = _, H2 : resolve ?a ?b ?c ?d = _ |- _ =>
          rewrite H1 in H2; inversion H2; subst
      end.
    eexists. split; [reflexivity|]. cbn. repeat split.
  - intros idx st called idx' st' rest o Hit IH i d dl reason isRej Hin Hres.
    apply in_app_or in Hin. destruct Hin as [Hin|[Hin|Hin]]; try discriminate.
    + destruct (iteration_events _ _ _ _ _ Hit Hin) as [E|[E|(v' & dl' & E)]];
        try discriminate. injection E as -> -> ->.
      destruct (iteration_continues _ _ _ _ _ _ Hit (or_introl eq_refl))
        as (v & dd & Hres' & _).
      rewrite Hres in Hres'. discriminate.
    + exact (IH i d dl reason isRej Hin Hres).
  - intros idx st called idx' st' rest o Hit IH i d dl reason isRej Hin Hres.
    apply in_app_or in Hin. destruct Hin as [Hin|[Hin|Hin]]; try discriminate.
    + destruct (iteration_events _ _ _ _ _ Hit Hin) as [E|[E|(v' & dl' & E)]];
        try discriminate. injection E as -> -> ->.
      destruct (iteration_continues _ _ _ _ _ _ Hit (or_intror eq_refl))
        as (v & dd & Hres' & _).
      rewrite Hres in Hres'. discriminate.
    + exact (IH i d dl reason isRej Hin Hres).
Qed.

(* ------------------------------------------------------------------ *)
(** *** What a successful run reports                                  *)

Lemma resolved_values_cons_other (ev : event) (rest : list event) :
  (forall i d dl, ev <> Source i d dl) ->
  resolved_values resolve source (ev :: rest)
  = resolved_values resolve source rest.
Proof.
  intros H. destruct ev as [| i d dl | | |]; try reflexivity.
  now destruct (H i d dl).
Qed.

Lemma success_summary idx st :
  truthy track = false ->
  success idx st = Resolved (Summary idx (now (clock st) - start)).
Proof. intros Ht. unfold Sequence.success. now rewrite Ht. Qed.

(** [total] counts the values, other than [undefined], that the source
    resolved with. *)
Lemma loop_total (fuel idx : nat) (st : state) :
  truthy track = false ->
  forall r, snd (loop fuel idx st) = Some (Resolved r) ->
  exists d,
    r = Summary (idx + length (resolved_values resolve source
                                 (fst (loop fuel idx st)))) d.
Proof.
  intros Ht. revert fuel idx st.
  apply (loop_ind (fun idx st trace o =>
    forall r, o = Some (Resolved r) ->
    exists d,
      r = Summary (idx + length (resolved_values resolve source trace)) d)).
  - intros idx st r [=].
  - intros idx st called o Hit r [= ->].
    inversion Hit; subst; clear Hit; try discriminate.
    + match goal with H : Sequence.success _ _ _ _ _ = _ |- _ =>
        rewrite success_summary in H by exact Ht; injection H as <- end.
      erewrite iteration_resolved_values
        by (eauto using SequenceSpec.source_ended).
      cbn [is_undefined length]. rewrite Nat.add_0_r. eauto.
    + match goal with H : _ = Stop _ |- _ =>
        apply next_stop in H; destruct H as [_ H] end.
      rewrite success_summary in H by exact Ht. injection H as ->.
      erewrite iteration_resolved_values by (eauto using SequenceSpec.no_dest).
      replace (is_undefined v) with false by (now destruct v).
      cbn [length]. replace (idx + 1)%nat with (S idx) by lia. eauto.
    + match goal with H : _ = Stop _ |- _ =>
        apply next_stop in H; destruct H as [_ H] end.
      rewrite success_summary in H by exact Ht. injection H as ->.
      erewrite iteration_resolved_values
        by (eauto using SequenceSpec.dest_returned).
      replace (is_undefined v) with false by (now destruct v).
      cbn [length]. replace (idx + 1)%nat with (S idx) by lia. eauto.
    + match goal with H : _ = Stop _ |- _ =>
        apply next_stop in H; destruct H as [_ H] end.
      rewrite success_summary in H by exact Ht. injection H as ->.
      erewrite iteration_resolved_values
        by (eauto using SequenceSpec.dest_fulfilled).
      replace (is_undefined v) with false by (now destruct v).
      cbn [length]. replace (idx + 1)%nat with (S idx) by lia. eauto.
  - intros idx st called idx' st' rest o Hit IH r Ho.
    destruct (iteration_index _ _ _ _ _ _ Hit (or_introl eq_refl)) as [-> _].
    destruct (iteration_continues _ _ _ _ _ _ Hit (or_introl eq_refl))
      as (v & delayed & Hres & Hv & _).
    destruct (IH r Ho) as [d ->]. exists d. f_equal.
    rewrite resolved_values_app,
      (iteration_resolved_values _ _ _ _ _ _ Hit Hres).
    replace (is_undefined v) with false by (now destruct v).
    rewrite resolved_values_cons_other by discriminate.
    cbn [app length]. lia.
  - intros idx st called idx' st' rest o Hit IH r Ho.
    destruct (iteration_index _ _ _ _ _ _ Hit (or_intror eq_refl)) as [-> _].
    destruct (iteration_continues _ _ _ _ _ _ Hit (or_intror eq_refl))
      as (v & delayed & Hres & Hv & _).
    destruct (IH r Ho) as [d ->]. exists d. f_equal.
    rewrite resolved_values_app,
      (iteration_resolved_values _ _ _ _ _ _ Hit Hres).
    replace (is_undefined v) with false by (now destruct v).
    rewrite resolved_values_cons_other by discriminate.
    cbn [app length]. lia.
Qed.

(** With no limit that an index can reach, only [undefined] ends a run
    successfully. *)
Lemma loop_unlimited (fuel idx : nat) (st : state) :
  (forall i, limit_is limit (S i) = false) ->
  forall r, snd (loop fuel idx st) = Some (Resolved r) ->
  ended_by_undefined resolve source (fst (loop fuel idx st)).
Proof.
  intros Hl. revert fuel idx st.
  apply (loop_ind (fun idx st trace o =>
    forall r, o = Some (Resolved r) ->
    ended_by_undefined resolve source trace)).
  - intros idx st r [=].
  - intros idx st called o Hit r [= ->].
    destruct (iteration_resolved_stop _ _ _ _ Hit)
      as [H|[delayed Hres]]; [now rewrite Hl in H|].
    exists idx, (data st), (src_delay now idx st), delayed.
    split; [|exact Hres]. eapply iteration_source_event; eauto.
  - intros idx st called idx' st' rest o Hit IH r Ho.
    destruct (IH r Ho) as (i & d & dl & dd & Hin & Hr).
    exists i, d, dl, dd. split; [|exact Hr].
    apply in_or_app. right. now right.
  - intros idx st called idx' st' rest o Hit IH r Ho.
    destruct (IH r Ho) as (i & d & dl & dd & Hin & Hr).
    exists i, d, dl, dd. split; [|exact Hr].
    apply in_or_app. right. now right.
Qed.

(** A source that keeps resolving with values, under a sink that does not
    fail, is stopped by the limit after exactly [L] calls. *)
Lemma loop_reaches_limit (L : nat) :
  limit = Some (Z.of_nat L) ->
  (forall i d dl, (i < L)%nat ->
      exists v delayed,
        resolve source i d dl = OnSuccess v delayed /\ v <> VUndefined) ->
  (truthy dest = true ->
   forall i v dl, (i < L)%nat ->
      exists r, call dest i v dl = Returns r /\
                (isPromise r = true -> exists w, settle r = Fulfils w)) ->
  forall fuel idx st,
    (idx < L)%nat -> (L - idx <= fuel)%nat ->
    (exists st', snd (loop fuel idx st) = Some (success L st')) /\
    source_indices (fst (loop fuel idx st)) = seq idx (L - idx).
Proof.
  intros Hlim Hsrc Hdest.
  induction fuel as [|fuel IH]; intros idx st Hlt Hfuel; [lia|].
  rewrite loop_S. pose proof (loop_body_iteration idx st) as Hit.
  destruct (Hsrc idx (data st) (src_delay now idx st) Hlt)
    as (v & delayed & Hres & Hv).
  pose proof (iteration_source_indices _ _ _ _ Hit) as Hsi.
  destruct (Nat.eq_dec (S idx) L) as [E|Hne].
  - (* the limit is reached *)
    assert (Hl : limit_is limit (S idx) = true).
    { rewrite Hlim, limit_is_nat. now apply bool_decide_eq_true_2. }
    assert (Hnext : forall st0 d0, next idx st0 d0 = Stop (success L st0)).
    { intros st0 d0. unfold Sequence.next. rewrite Hl. now rewrite E. }
    replace (L - idx)%nat with 1%nat by lia. cbn [seq].
    assert (Hstop : exists st0 d0, snd (loop_body idx st) = next idx st0 d0).
    { inversion Hit; subst; try congruence; eauto;
        match goal with
        | H1 : resolve ?a ?b ?c ?d = OnSuccess _ _, H2 : resolve ?a ?b ?c ?d = _ |- _ =>
            rewrite Hres in H1; injection H1 as <- <-
        end;
        match goal with
        | Hd : truthy dest = true, Hc : call dest idx ?v ?dl = _ |- _ =>
            destruct (Hdest Hd idx v dl Hlt) as (r' & Hr' & Hp');
            rewrite Hr' in Hc; try discriminate Hc; injection Hc as <-
        end;
        match goal with
        | Hp : isPromise _ = true |- _ =>
            destruct (Hp' Hp) as [w' Hw']; congruence
        end. }
    destruct Hstop as (st0 & d0 & ->). rewrite Hnext. cbn [fst snd].
    split; [eauto|exact Hsi].
  - assert (Hl : limit_is limit (S idx) = false).
    { rewrite Hlim, limit_is_nat. apply bool_decide_eq_false_2. lia. }
    destruct (iteration_goes_on _ _ _ _ _ _ Hit Hres Hv Hl) as [st' [E|E]].
    + intros Hd dl. now apply Hdest.
    + rewrite E. cbn [fst snd].
      destruct (IH (S idx) (set_frames st' (S (frames st'))) ltac:(lia)
                  ltac:(lia)) as (Ho & Hi).
      split; [exact Ho|].
      rewrite source_indices_app, Hsi.
      change (source_indices (Direct (S idx) :: ?r)) with (source_indices r).
      rewrite Hi. replace (L - idx)%nat with (S (L - S idx)) by lia.
      reflexivity.
    + rewrite E. cbn [fst snd].
      destruct (IH (S idx) (set_frames st' 1) ltac:(lia) ltac:(lia))
        as (Ho & Hi).
      split; [exact Ho|].
      rewrite source_indices_app, Hsi.
      change (source_indices (Scheduled (S idx) :: ?r)) with (source_indices r).
      rewrite Hi. replace (L - idx)%nat with (S (L - S idx)) by lia.
      reflexivity.
Qed.

(* ------------------------------------------------------------------ *)
(** *** The delays handed to the callbacks                             *)

Lemma kept_srcTime st v delayed :
  srcTime (kept now track st v delayed) = Some (now (clock st)).
Proof. unfold kept. now destruct (truthy track), delayed. Qed.

Lemma kept_destTime st v delayed :
  destTime (kept now track st v delayed) = destTime st.
Proof. unfold kept. now destruct (truthy track), delayed. Qed.

Lemma iteration_times idx st called s idx' st' :
  iteration idx st called s ->
  s = Recurse idx' st' \/ s = Defer idx' st' ->
  srcTime st' = Some (now (clock st)) /\
  (clock st < clock st')%nat /\
  (truthy dest = true -> destTime st' = Some (now (S (clock st))) /\
                         (S (clock st) < clock st')%nat).
Proof.
  intros H Hs. inversion H; subst; clear H;
    destruct Hs as [Hs|Hs]; try discriminate;
    first [ apply next_recurse in Hs | apply next_defer in Hs ];
    destruct Hs as (_ & _ & -> & ?); subst;
    rewrite ?arrive_srcTime, ?arrive_destTime, ?arrive_clock;
    unfold called_dest;
    cbn [on_new_turn set_frames tick set_destTime srcTime destTime clock];
    rewrite ?kept_srcTime, ?kept_clock;
    (split; [reflexivity|]); (split; [lia|]); intros Hd;
    try congruence; (split; [reflexivity|lia]).
Qed.

Lemma timed_state_frames idx st n :
  timed_state now dest idx st -> timed_state now dest idx (set_frames st n).
Proof. intros H. exact H. Qed.

Lemma iteration_timed idx st called s :
  (forall a b, (a <= b)%nat -> now a <= now b) ->
  iteration idx st called s ->
  timed_state now dest idx st ->
  (forall j d dl, In (Source j d dl) called \/ In (Dest j d dl) called ->
                  well_timed j dl) /\
  (forall idx' st', s = Recurse idx' st' \/ s = Defer idx' st' ->
                    timed_state now dest idx' st').
Proof.
  intros Hmono Hit Hst. split.
  - assert (Hsrc : well_timed idx (src_delay now idx st)).
    { unfold src_delay, delay_at. destruct idx as [|i]; [exact I|].
      destruct Hst as [Hst|[(c & -> & Hc) _]]; [discriminate|].
      cbn. specialize (Hmono c (clock st)). lia. }
    assert (Hdst : forall v delayed, truthy dest = true ->
              well_timed idx (dest_delay now track idx st v delayed)).
    { intros v delayed Hd. unfold dest_delay, delay_at.
      destruct idx as [|i]; [exact I|].
      destruct Hst as [Hst|[_ Hdt]]; [discriminate|].
      destruct (Hdt Hd) as (c & -> & Hc). rewrite kept_clock.
      cbn. specialize (Hmono c (S (clock st))). lia. }
    intros j d dl Hin.
    inversion Hit; subst; clear Hit; cbn in Hin;
      repeat match goal with
      | H : _ \/ _ |- _ => destruct H
      | H : False |- _ => destruct H
      | H : _ = Source _ _ _ |- _ => inversion H; subst; clear H
      | H : _ = Dest _ _ _ |- _ => inversion H; subst; clear H
      end; auto.
  - intros idx' st' Hs. right.
    destruct (iteration_times _ _ _ _ _ _ Hit Hs) as (Hsrc & Hc & Hd).
    split.
    + exists (clock st). split; [exact Hsrc|exact Hc].
    + intros Hdest. destruct (Hd Hdest) as [E Hlt].
      exists (S (clock st)). split; [exact E|exact Hlt].
Qed.

(** Under a clock that never runs backwards, every callback call of a run
    entered in a state where the two times are set is well timed. *)
Lemma loop_timed (fuel idx : nat) (st : state) :
  (forall a b, (a <= b)%nat -> now a <= now b) ->
  timed_state now dest idx st ->
  forall j d dl,
    In (Source j d dl) (fst (loop fuel idx st)) \/
    In (Dest j d dl) (fst (loop fuel idx st)) ->
    well_timed j dl.
Proof.
  intros Hmono. revert fuel idx st.
  apply (loop_ind (fun idx st trace o =>
    timed_state now dest idx st ->
    forall j d dl,
      In (Source j d dl) trace \/ In (Dest j d dl) trace ->
      well_timed j dl)).
  - intros idx st _ j d dl [[]|[]].
  - intros idx st called o Hit Hst.
    exact (proj1 (iteration_timed _ _ _ _ Hmono Hit Hst)).
  - intros idx st called idx' st' rest o Hit IH Hst j d dl Hin.
    destruct (iteration_timed _ _ _ _ Hmono Hit Hst) as [Hev Hnext].
    specialize (IH (Hnext _ _ (or_introl eq_refl))).
    destruct Hin as [Hin|Hin]; apply in_app_or in Hin;
      destruct Hin as [Hin|[Hin|Hin]]; try discriminate; eauto.
  - intros idx st called idx' st' rest o Hit IH Hst j d dl Hin.
    destruct (iteration_timed _ _ _ _ Hmono Hit Hst) as [Hev Hnext].
    specialize (IH (Hnext _ _ (or_intror eq_refl))).
    destruct Hin as [Hin|Hin]; apply in_app_or in Hin;
      destruct Hin as [Hin|[Hin|Hin]]; try discriminate; eauto.
Qed.

(* ------------------------------------------------------------------ *)
(** *** The driver's own code does not throw                           *)

Lemma success_no_throw idx st :
  named (tracked st) = ∅ -> success idx st <> Threw.
Proof.
  intros Hn. unfold Sequence.success.
  destruct (truthy track); [|discriminate].
  now rewrite extend_fresh.
Qed.

Lemma kept_named st v delayed :
  named (tracked (kept now track st v delayed)) = named (tracked st).
Proof. rewrite kept_tracked. now destruct (truthy track). Qed.

(** [extend] is called once, on an array that has no [duration] yet. *)
Lemma loop_no_throw (fuel idx : nat) (st : state) :
  named (tracked st) = ∅ ->
  snd (loop fuel idx st) <> Some Threw.
Proof.
  revert fuel idx st.
  apply (loop_ind (fun idx st trace o =>
    named (tracked st) = ∅ -> o <> Some Threw)).
  - discriminate.
  - intros idx st called o Hit Hn E. injection E as ->.
    inversion Hit; subst; clear Hit; try discriminate;
      try match goal with
      | H : _ = Stop Threw |- _ =>
          apply next_stop in H; destruct H as [_ H]; symmetry in H
      end;
      match goal with
      | H : Sequence.success _ _ _ _ _ = Threw |- _ =>
          revert H; apply success_no_throw
      end;
      rewrite ?arrive_tracked, ?delivered_tracked;
      unfold called_dest;
      cbn [on_new_turn set_frames tick set_destTime set_data tracked];
      rewrite ?kept_named; exact Hn.
  - intros idx st called idx' st' rest o Hit IH Hn.
    destruct (iteration_continues _ _ _ _ _ _ Hit (or_introl eq_refl))
      as (v & delayed & _ & _ & _ & Htr & _).
    apply IH. cbn [set_frames tracked]. rewrite Htr.
    now destruct (truthy track).
  - intros idx st called idx' st' rest o Hit IH Hn.
    destruct (iteration_continues _ _ _ _ _ _ Hit (or_intror eq_refl))
      as (v & delayed & _ & _ & _ & Htr & _).
    apply IH. cbn [set_frames tracked]. rewrite Htr.
    now destruct (truthy track).
Qed.

(* ------------------------------------------------------------------ *)
(** *** More on what the callbacks are called with                     *)

Lemma iteration_dest_defined idx st called s j v dl :
  iteration idx st called s ->
  In (Dest j v dl) called ->
  truthy dest = true /\ v <> VUndefined.
Proof.
  intros Hit Hin.
  inversion Hit; subst; clear Hit; cbn in Hin.
  all: repeat match goal with
       | H : _ \/ _ |- _ => destruct H
       | H : False |- _ => destruct H
       | H : Loop _ _ = Dest _ _ _ |- _ => discriminate H
       | H : Source _ _ _ = Dest _ _ _ |- _ => discriminate H
       | H : Dest _ _ _ = Dest _ _ _ |- _ => injection H as <- <- _
       end.
  all: split; assumption.
Qed.

(** The sink is only called when there is one, and never with
    [undefined]. *)
Lemma loop_dest_defined (fuel idx : nat) (st : state) :
  forall j v dl, In (Dest j v dl) (fst (loop fuel idx st)) ->
  truthy dest = true /\ v <> VUndefined.
Proof.
  revert fuel idx st.
  apply (loop_ind (fun idx st trace o =>
    forall j v dl, In (Dest j v dl) trace ->
    truthy dest = true /\ v <> VUndefined)).
  - intros idx st j v dl [].
  - intros idx st called o Hit j v dl Hin.
    exact (iteration_dest_defined _ _ _ _ _ _ _ Hit Hin).
  - intros idx st called idx' st' rest o Hit IH j v dl Hin.
    apply in_app_or in Hin. destruct Hin as [Hin|[Hin|Hin]]; try discriminate.
    + exact (iteration_dest_defined _ _ _ _ _ _ _ Hit Hin).
    + exact (IH j v dl Hin).
  - intros idx st called idx' st' rest o Hit IH j v dl Hin.
    apply in_app_or in Hin. destruct Hin as [Hin|[Hin|Hin]]; try discriminate.
    + exact (iteration_dest_defined _ _ _ _ _ _ _ Hit Hin).
    + exact (IH j v dl Hin).
Qed.

(** A call of [source] that the resolver reports as failed ends the run
    with the error that [fail] builds for it. *)
Lemma loop_source_failure (fuel idx : nat) (st : state) :
  forall i d dl reason isRej,
    In (Source i d dl) (fst (loop fuel idx st)) ->
    resolve source i d dl = OnError reason isRej ->
    exists st',
      snd (loop fuel idx st)
      = Some (Sequence.fail now start i st'
                (Reason reason (Some d) None None)
                (if isRej then 0 else 1)%nat (get_prop source "name")).
Proof.
  revert fuel idx st.
  apply (loop_ind (fun idx st trace o =>
    forall i d dl reason isRej,
      In (Source i d dl) trace ->
      resolve source i d dl = OnError reason isRej ->
      exists st',
        o = Some (Sequence.fail now start i st'
                    (Reason reason (Some d) None None)
                    (if isRej then 0 else 1)%nat (get_prop source "name")))).
  - intros idx st i d dl reason isRej [].
  - intros idx st called o Hit i d dl reason isRej Hin Hres.
    destruct (iteration_events _ _ _ _ _ Hit Hin) as [E|[E|(v' & dl' & E)]];
      try discriminate. injection E as -> -> ->.
    inversion Hit; subst; clear Hit;
      match goal with
      | H1 : resolve ?a ?b ?c ?d = _, H2 : resolve ?a ?b ?c ?d = _ |- _ =>
          rewrite H1 in H2; inversion H2; subst
      end.
    eexists. reflexivity.
  - intros idx st called idx' st' rest o Hit IH i d dl reason isRej Hin Hres.
    apply in_app_or in Hin. destruct Hin as [Hin|[Hin|Hin]]; try discriminate.
    + destruct (iteration_events _ _ _ _ _ Hit Hin) as [E|[E|(v' & dl' & E)]];
        try discriminate. injection E as -> -> ->.
      destruct (iteration_continues _ _ _ _ _ _ Hit (or_introl eq_refl))
        as (v & dd & Hres' & _).
      rewrite Hres in Hres'. discriminate.
    + exact (IH i d dl reason isRej Hin Hres).
  - intros idx st called idx' st' rest o Hit IH i d dl reason isRej Hin Hres.
    apply in_app_or in Hin. destruct Hin as [Hin|[Hin|Hin]]; try discriminate.
    + destruct (iteration_events _ _ _ _ _ Hit Hin) as [E|[E|(v' & dl' & E)]];
        try discriminate. injection E as -> -> ->.
      destruct (iteration_continues _ _ _ _ _ _ Hit (or_intror eq_refl))
        as (v & dd & Hres' & _).
      rewrite Hres in Hres'. discriminate.
    + exact (IH i d dl reason isRej Hin Hres).
Qed.

(* ------------------------------------------------------------------ *)
(** *** How [next] goes on                                             *)

Lemma iteration_source idx st called s j d dl :
  iteration idx st called s ->
  In (Source j d dl) called ->
  j = idx /\ d = data st /\ dl = src_delay now idx st.
Proof.
  intros Hit Hin.
  destruct (iteration_events _ _ _ _ _ Hit Hin) as [E|[E|(v & ddl & E)]];
    try discriminate.
  now injection E as -> -> ->.
Qed.

(** After a synchronous resolution with a value, below the limit and with
    a sink, if any, that returns no promise, [next] hands the following
    iteration to the scheduler. *)
Lemma loop_sync_schedules (fuel idx : nat) (st : state) :
  forall j d dl v,
    In (Source j d dl) (fst (loop fuel idx st)) ->
    resolve source j d dl = OnSuccess v false ->
    v <> VUndefined ->
    limit_is limit (S j) = false ->
    (truthy dest = true ->
     forall ddl, exists p,
       call dest j v ddl = Returns p /\ isPromise p = false) ->
    In (Scheduled (S j)) (fst (loop fuel idx st)).
Proof.
  revert fuel idx st.
  apply (loop_ind (fun idx st trace o =>
    forall j d dl v,
      In (Source j d dl) trace ->
      resolve source j d dl = OnSuccess v false ->
      v <> VUndefined ->
      limit_is limit (S j) = false ->
      (truthy dest = true ->
       forall ddl, exists p,
         call dest j v ddl = Returns p /\ isPromise p = false) ->
      In (Scheduled (S j)) trace)).
  - intros idx st j d dl v [].
  - intros idx st called o Hit j d dl v Hin Hres Hv Hl Hsink.
    destruct (iteration_source _ _ _ _ _ _ _ Hit Hin) as (-> & -> & ->).
    destruct (iteration_goes_on _ _ _ _ _ _ Hit Hres Hv Hl) as [st' [E|E]];
      try discriminate.
    intros Hd ddl. destruct (Hsink Hd ddl) as (p & Hc & Hp).
    exists p. split; [exact Hc|]. rewrite Hp. discriminate.
  - intros idx st called idx' st' rest o Hit IH j d dl v Hin Hres Hv Hl Hsink.
    apply in_app_or in Hin. destruct Hin as [Hin|[Hin|Hin]]; try discriminate.
    + exfalso.
      destruct (iteration_source _ _ _ _ _ _ _ Hit Hin) as (-> & -> & ->).
      destruct (iteration_recurse _ _ _ _ _ Hit)
        as (_ & v0 & delayed & Hres0 & Hd).
      rewrite Hres in Hres0. injection Hres0 as <- <-.
      destruct Hd as [Hd|(ddl & p & Hdest & Hc & Hp)]; [discriminate|].
      destruct (iteration_dest_defined _ _ _ _ _ _ _ Hit Hdest) as [Htd _].
      destruct (Hsink Htd ddl) as (p' & Hc' & Hp').
      rewrite Hc in Hc'. injection Hc' as <-. congruence.
    + apply in_or_app. right. right. exact (IH j d dl v Hin Hres Hv Hl Hsink).
  - intros idx st called idx' st' rest o Hit IH j d dl v Hin Hres Hv Hl Hsink.
    apply in_app_or in Hin. destruct Hin as [Hin|[Hin|Hin]]; try discriminate.
    + destruct (iteration_source _ _ _ _ _ _ _ Hit Hin) as (-> & -> & ->).
      destruct (iteration_index _ _ _ _ _ _ Hit (or_intror eq_refl)) as [-> _].
      apply in_or_app. right. now left.
    + apply in_or_app. right. right. exact (IH j d dl v Hin Hres Hv Hl Hsink).
Qed.

(** After a delayed resolution with a value, below the limit and with a
    sink, if any, that does not fail, [next] calls [loop] itself. *)
Lemma loop_delayed_recurses (fuel idx : nat) (st : state) :
  forall j d dl v,
    In (Source j d dl) (fst (loop fuel idx st)) ->
    resolve source j d dl = OnSuccess v true ->
    v <> VUndefined ->
    limit_is limit (S j) = false ->
    (truthy dest = true ->
     forall ddl, exists r,
       call dest j v ddl = Returns r /\
       (isPromise r = true -> exists w, settle r = Fulfils w)) ->
    In (Direct (S j)) (fst (loop fuel idx st)).
Proof.
  revert fuel idx st.
  apply (loop_ind (fun idx st trace o =>
    forall j d dl v,
      In (Source j d dl) trace ->
      resolve source j d dl = OnSuccess v true ->
      v <> VUndefined ->
      limit_is limit (S j) = false ->
      (truthy dest = true ->
       forall ddl, exists r,
         call dest j v ddl = Returns r /\
         (isPromise r = true -> exists w, settle r = Fulfils w)) ->
      In (Direct (S j)) trace)).
  - intros idx st j d dl v [].
  - intros idx st called o Hit j d dl v Hin Hres Hv Hl Hsink.
    destruct (iteration_source _ _ _ _ _ _ _ Hit Hin) as (-> & -> & ->).
    destruct (iteration_goes_on _ _ _ _ _ _ Hit Hres Hv Hl Hsink)
      as [st' [E|E]]; discriminate.
  - intros idx st called idx' st' rest o Hit IH j d dl v Hin Hres Hv Hl Hsink.
    apply in_app_or in Hin. destruct Hin as [Hin|[Hin|Hin]]; try discriminate.
    + destruct (iteration_source _ _ _ _ _ _ _ Hit Hin) as (-> & -> & ->).
      destruct (iteration_index _ _ _ _ _ _ Hit (or_introl eq_refl)) as [-> _].
      apply in_or_app. right. now left.
    + apply in_or_app. right. right. exact (IH j d dl v Hin Hres Hv Hl Hsink).
  - intros idx st called idx' st' rest o Hit IH j d dl v Hin Hres Hv Hl Hsink.
    apply in_app_or in Hin. destruct Hin as [Hin|[Hin|Hin]]; try discriminate.
    + exfalso.
      destruct (iteration_source _ _ _ _ _ _ _ Hit Hin) as (-> & -> & ->).
      destruct (iteration_defer _ _ _ _ _ Hit) as (v0 & Hres0 & _).
      rewrite Hres in Hres0. discriminate.
    + apply in_or_app. right. right. exact (IH j d dl v Hin Hres Hv Hl Hsink).
Qed.

End Facts.
End SequenceFacts.

(* ================================================================== *)
(** ** Facts about the page loop                                       *)
(* ================================================================== *)

Module PageFacts.
Import JS Static Errors Driver Page PageSpec.

Ltac norm_states :=
  cbv beta iota zeta delta
    [src_delay dest_delay called_dest batched answered src_events tick
     set_destTime set_srcTime set_request set_total on_new_turn set_frames
     request srcTime destTime total_so_far clock frames].

Ltac norm_states_in H :=
  cbv beta iota zeta delta
    [src_delay dest_delay called_dest batched answered src_events tick
     set_destTime set_srcTime set_request set_total on_new_turn set_frames
     request srcTime destTime total_so_far clock frames] in H.

Ltac by_case K :=
  let H := fresh "K" in
  epose proof K as H; norm_states_in H; solve [eapply H; eauto].

Section Facts.

Variable now : nat -> Z.
Variable resolve : value -> nat -> value -> delay -> resolution.
Variable call : value -> nat -> value -> delay -> completion.
Variable settle : value -> settlement.
Variable batch : list value -> batch_settlement.
Variable source dest : value.
Variable limit : option Z.
Variable start : Z.

#[local] Abbreviation loop_body := (Page.loop_body now resolve call settle batch source dest limit start).
#[local] Abbreviation loop := (Page.loop now resolve call settle batch source dest limit start).
#[local] Abbreviation next := (Page.next now limit start).
#[local] Abbreviation success := (Page.success now start).
#[local] Abbreviation iteration := (PageSpec.iteration now resolve call settle batch source dest limit start).

Lemma as_array_some (v : value) (page : list value) :
  as_array v = Some page -> v = VArr page.
Proof. destruct v; simpl; congruence. Qed.

Lemma page_loop_body_iteration (idx : nat) (st : state) :
  iteration idx st (fst (loop_body idx st)) (snd (loop_body idx st)).
Proof.
  unfold Page.loop_body.
  destruct (resolve source idx (request st) (delay_at idx (now (clock st)) (srcTime st)))
    as [v delayed|reason isRej] eqn:Hres.
  - unfold on_success.
    destruct (is_undefined v) eqn:Hv.
    + destruct v; try discriminate. cbn [fst snd app].
      exact (source_ended _ _ _ _ _ _ _ _ _ idx st delayed Hres).
    + assert (Hv' : v <> VUndefined) by (intros ->; discriminate).
      destruct (as_array v) as [page|] eqn:Harr.
      * apply as_array_some in Harr. subst v.
        destruct (batch page) as [data|error] eqn:Hb.
        -- unfold on_batch.
           destruct delayed;
             (destruct (truthy dest) eqn:Hdest;
              [ norm_states;
                destruct (call dest idx (VArr data) _) as [r|e] eqn:Hcall;
                [ destruct (isPromise r) eqn:Hp;
                  [ destruct (settle r) as [w|error] eqn:Hs |] |] |]);
             norm_states; cbn [fst snd app].
           all: first
             [ by_case (dest_fulfilled now resolve call settle batch source dest limit start idx st page)
             | by_case (dest_rejected now resolve call settle batch source dest limit start idx st page)
             | by_case (dest_returned now resolve call settle batch source dest limit start idx st page)
             | by_case (dest_threw now resolve call settle batch source dest limit start idx st page)
             | by_case (no_dest now resolve call settle batch source dest limit start idx st page) ].
        -- cbn [fst snd app].
           exact (batch_rejected _ _ _ _ _ _ _ _ _ idx st page delayed error Hres Hb).
      * cbn [fst snd app].
        destruct delayed;
          exact (not_an_array _ _ _ _ _ _ _ _ _ idx st v _ Hres Hv' Harr).
  - cbn [on_error fst snd app].
    exact (source_failed _ _ _ _ _ _ _ _ _ idx st reason isRej Hres).
Qed.

Lemma page_loop_S (fuel idx : nat) (st : state) :
  loop (S fuel) idx st =
  match snd (loop_body idx st) with
  | Stop o => (fst (loop_body idx st), Some o)
  | Recurse idx' st' =>
      (fst (loop_body idx st) ++ Direct idx'
         :: fst (loop fuel idx' (set_frames st' (S (frames st')))),
       snd (loop fuel idx' (set_frames st' (S (frames st')))))
  end.
Proof.
  cbn [Page.loop]. destruct (loop_body idx st) as [called [o|idx' st']];
    cbn [fst snd]; try reflexivity.
  now destruct (loop fuel idx' _).
Qed.

(** Induction over a run of the page loop. *)
Lemma page_loop_ind
    (P : nat -> state -> list event -> option (outcome result) -> Prop) :
  (forall idx st, P idx st [] None) ->
  (forall idx st called o,
      iteration idx st called (Stop o) -> P idx st called (Some o)) ->
  (forall idx st called idx' st' rest o,
      iteration idx st called (Recurse idx' st') ->
      P idx' (set_frames st' (S (frames st'))) rest o ->
      P idx st (called ++ Direct idx' :: rest) o) ->
  forall fuel idx st, P idx st (fst (loop fuel idx st)) (snd (loop fuel idx st)).
Proof.
  intros Hout Hstop Hdirect.
  induction fuel as [|fuel IH]; intros idx st.
  - apply Hout.
  - rewrite page_loop_S. pose proof (page_loop_body_iteration idx st) as Hit.
    destruct (snd (loop_body idx st)) as [o|idx' st']; cbn [fst snd].
    + now apply Hstop.
    + eapply Hdirect; [exact Hit | apply IH].
Qed.

Lemma page_next_stop (idx : nat) (st : state) (o : outcome result) :
  next idx st = Stop o ->
  limit_is limit (S idx) = true /\ o = success (S idx) st.
Proof.
  unfold Page.next. destruct (limit_is limit (S idx));
    intros H; inversion H; auto.
Qed.

Lemma page_next_recurse (idx : nat) (st : state) idx' st' :
  next idx st = Recurse idx' st' ->
  limit_is limit (S idx) = false /\ idx' = S idx /\ st' = st.
Proof.
  unfold Page.next. destruct (limit_is limit (S idx));
    intros H; inversion H; auto.
Qed.

Lemma page_iteration_source_indices idx st called s :
  iteration idx st called s -> source_indices called = [idx].
Proof. intros H; inversion H; reflexivity. Qed.

Lemma page_iteration_source_event idx st called s :
  iteration idx st called s ->
  In (Source idx (request st) (src_delay now idx st)) called.
Proof. intros H; inversion H; cbn; auto. Qed.

Lemma page_iteration_events idx st called s ev :
  iteration idx st called s ->
  In ev called ->
  ev = Loop idx (frames st) \/
  ev = Source idx (request st) (src_delay now idx st) \/
  exists v dl, ev = Dest idx v dl.
Proof.
  intros H Hin. inversion H; subst; clear H; cbn in Hin;
    intuition (subst; eauto).
Qed.

(** What is known of an activation that goes on to the next page. *)
Lemma page_iteration_continues idx st called idx' st' :
  iteration idx st called (Recurse idx' st') ->
  idx' = S idx /\ limit_is limit (S idx) = false /\
  exists page delayed data,
    resolve source idx (request st) (src_delay now idx st)
    = OnSuccess (VArr page) delayed /\
    batch page = BatchResolves data /\
    request st' = VArr data /\
    total_so_far st' = (total_so_far st + length data)%nat /\
    frames st' = 0%nat.
Proof.
  intros H. inversion H; subst; clear H;
    match goal with
    | H : _ = Recurse _ _ |- _ =>
        apply page_next_recurse in H; destruct H as (? & -> & ->)
    end;
    (split; [reflexivity|]); (split; [assumption|]);
    eexists _, _, _; (split; [eassumption|]); (split; [eassumption|]);
    repeat split.
Qed.

Lemma page_iteration_resolved_stop idx st called r :
  iteration idx st called (Stop (Resolved r)) ->
  limit_is limit (S idx) = true \/
  exists delayed,
    resolve source idx (request st) (src_delay now idx st)
    = OnSuccess VUndefined delayed.
Proof.
  intros H. inversion H; subst; clear H; try discriminate;
    try (right; eauto; fail);
    left; match goal with H : _ = Stop _ |- _ => apply page_next_stop in H end;
    tauto.
Qed.

(** The limit law and the ordering law on a run of the page loop. *)
Lemma page_loop_source_calls (fuel idx : nat) (st : state) :
  exists n : nat,
    source_indices (fst (loop fuel idx st)) = seq idx n /\
    (forall L : nat,
        limit = Some (Z.of_nat L) -> (idx < L)%nat ->
        (idx + n <= L)%nat /\
        (forall r, snd (loop fuel idx st) = Some (Resolved r) ->
                   (idx + n)%nat = L \/
                   ended_by_undefined resolve source (fst (loop fuel idx st)))).
Proof.
  apply (page_loop_ind (fun idx st trace o =>
    exists n : nat,
      source_indices trace = seq idx n /\
      (forall L : nat,
          limit = Some (Z.of_nat L) -> (idx < L)%nat ->
          (idx + n <= L)%nat /\
          (forall r, o = Some (Resolved r) ->
                     (idx + n)%nat = L \/
                     ended_by_undefined resolve source trace)))); clear.
  - intros idx st. exists 0%nat. split; [reflexivity|].
    intros L _ HL. split; [lia|discriminate].
  - intros idx st called o Hit. exists 1%nat. split.
    + now apply page_iteration_source_indices in Hit.
    + intros L Hlim HL. split; [lia|]. intros r [= ->].
      destruct (page_iteration_resolved_stop _ _ _ _ Hit) as [Hl|[delayed Hres]].
      * left. rewrite Hlim, SequenceFacts.limit_is_nat in Hl.
        apply bool_decide_eq_true_1 in Hl. lia.
      * right. exists idx, (request st), (src_delay now idx st), delayed.
        split; [|exact Hres]. eapply page_iteration_source_event; eauto.
  - intros idx st called idx' st' rest o Hit [n [Hn IH]].
    destruct (page_iteration_continues _ _ _ _ _ Hit) as (-> & Hl & _).
    exists (S n). split.
    + rewrite SequenceFacts.source_indices_app, (page_iteration_source_indices _ _ _ _ Hit).
      change (source_indices (Direct (S idx) :: rest)) with (source_indices rest).
      now rewrite Hn.
    + intros L Hlim HL. rewrite Hlim, SequenceFacts.limit_is_nat in Hl.
      apply bool_decide_eq_false_1 in Hl.
      destruct (IH L Hlim ltac:(lia)) as [Hle Hres]. split; [lia|].
      intros r Ho. destruct (Hres r Ho) as [E|(i & d & dl & dd & Hin & Hr)].
      * left; lia.
      * right. exists i, d, dl, dd. split; [|exact Hr].
        apply in_or_app. right. now right.
Qed.

(** [source] gets [undefined] first and then the batch outcome of the
    page its previous call resolved with. *)
Lemma page_loop_source_data (fuel idx : nat) (st : state) :
  forall j d dl, In (Source j d dl) (fst (loop fuel idx st)) ->
  (j = idx /\ d = request st) \/
  ((idx < j)%nat /\
   exists d' dl' page delayed data,
     In (Source (j - 1) d' dl') (fst (loop fuel idx st)) /\
     resolve source (j - 1) d' dl' = OnSuccess (VArr page) delayed /\
     batch page = BatchResolves data /\
     d = VArr data).
Proof.
  apply (page_loop_ind (fun idx st trace o =>
    forall j d dl, In (Source j d dl) trace ->
    (j = idx /\ d = request st) \/
    ((idx < j)%nat /\
     exists d' dl' page delayed data,
       In (Source (j - 1) d' dl') trace /\
       resolve source (j - 1) d' dl' = OnSuccess (VArr page) delayed /\
       batch page = BatchResolves data /\
       d = VArr data))); clear.
  - intros idx st j d dl [].
  - intros idx st called o Hit j d dl Hin. left.
    destruct (page_iteration_events _ _ _ _ _ Hit Hin) as [E|[E|(v & dl' & E)]];
      try discriminate. now injection E as -> -> _.
  - intros idx st called idx' st' rest o Hit IH j d dl Hin.
    apply in_app_or in Hin. destruct Hin as [Hin|[Hin|Hin]]; try discriminate.
    + left.
      destruct (page_iteration_events _ _ _ _ _ Hit Hin) as [E|[E|(v & dl' & E)]];
        try discriminate. now injection E as -> -> _.
    + right.
      destruct (page_iteration_continues _ _ _ _ _ Hit)
        as (-> & _ & page & delayed & data & Hres & Hb & Hreq & _).
      destruct (IH j d dl Hin)
        as [[-> ->]|(Hlt & d' & dl' & pg & dd & dt & Hs & Hr & Hb' & ->)].
      * split; [lia|].
        exists (request st), (src_delay now idx st), page, delayed, data.
        replace (S idx - 1)%nat with idx by lia. split.
        { apply in_or_app. left. eapply page_iteration_source_event; eauto. }
        cbn [set_frames request]. auto.
      * split; [lia|]. exists d', dl', pg, dd, dt. split; [|auto].
        apply in_or_app. right. now right.
Qed.

Lemma page_success_not_rejected idx st rej : success idx st <> Rejected rej.
Proof. discriminate. Qed.

(** A rejected run failed on its source, on what the source resolved
    with, on the batch of a page, or on its sink. *)
Lemma page_loop_rejected (fuel idx : nat) (st : state) :
  forall rej, snd (loop fuel idx st) = Some (Rejected rej) ->
  exists e,
    rej = Failure e /\ name e = "PageError" /\
    (failed_on_source resolve source (fst (loop fuel idx st)) e \/
     failed_on_data resolve source (fst (loop fuel idx st)) e \/
     failed_on_batch resolve batch source (fst (loop fuel idx st)) e \/
     failed_on_sink call settle dest (fst (loop fuel idx st)) e).
Proof.
  apply (page_loop_ind (fun idx st trace o =>
    forall rej, o = Some (Rejected rej) ->
    exists e,
      rej = Failure e /\ name e = "PageError" /\
      (failed_on_source resolve source trace e \/
       failed_on_data resolve source trace e \/
       failed_on_batch resolve batch source trace e \/
       failed_on_sink call settle dest trace e))); clear.
  - intros idx st rej [=].
  - intros idx st called o Hit rej [= ->].
    inversion Hit; subst; clear Hit;
      try (match goal with H : _ = Stop _ |- _ =>
             apply page_next_stop in H; destruct H as [_ H]; discriminate H end);
      try discriminate.
    all: eexists; (split; [reflexivity|]); (split; [reflexivity|]).
    + left. exists [], idx, (frames st), (request st), (src_delay now idx st).
      eexists _, _. cbn. repeat split; eauto.
    + right; left.
      exists [], idx, (frames st), (request st), (src_delay now idx st).
      eexists _, _. cbn. repeat split; eauto.
    + right; right; left.
      exists [], idx, (frames st), (request st), (src_delay now idx st).
      eexists _, _, _. cbn. repeat split; eauto.
    + right; right; right.
      exists (src_events now idx st), idx, (VArr data), (dest_delay now idx st).
      eexists. cbn. split; [reflexivity|]. split; [left; eauto|].
      repeat split.
    + right; right; right.
      exists (src_events now idx st), idx, (VArr data), (dest_delay now idx st).
      eexists. cbn. split; [reflexivity|]. split; [right; eauto|].
      repeat split.
  - intros idx st called idx' st' rest o Hit IH rej Ho.
    destruct (IH rej Ho) as (e & -> & Hname & Hcase).
    exists e. split; [reflexivity|]. split; [exact Hname|].
    destruct Hcase as [(pre & H)|[(pre & H)|[(pre & H)|(pre & H)]]];
      [left|right; left|right; right; left|right; right; right];
      exists (called ++ Direct idx' :: pre).
    + destruct H as (i & f & d & dl & reason & isRej & -> & H).
      exists i, f, d, dl, reason, isRej.
      split; [now rewrite <- app_assoc|exact H].
    + destruct H as (i & f & d & dl & v & dd & -> & H).
      exists i, f, d, dl, v, dd.
      split; [now rewrite <- app_assoc|exact H].
    + destruct H as (i & f & d & dl & pg & dd & err & -> & H).
      exists i, f, d, dl, pg, dd, err.
      split; [now rewrite <- app_assoc|exact H].
    + destruct H as (i & v & dl & err & -> & H).
      exists i, v, dl, err. split; [now rewrite <- app_assoc|exact H].
Qed.

(** A value that is neither [undefined] nor an array ends the run with
    reason code 5. *)
Lemma page_loop_not_an_array (fuel idx : nat) (st : state) :
  forall i d dl v delayed,
    In (Source i d dl) (fst (loop fuel idx st)) ->
    resolve source i d dl = OnSuccess v delayed ->
    v <> VUndefined ->
    as_array v = None ->
    exists e,
      snd (loop fuel idx st) = Some (Rejected (Failure e)) /\
      name e = "PageError" /\
      code e = 5%nat /\
      error e = Error "Unexpected data returned from the source." /\
      index e = Some i /\
      Errors.source e = Some d /\
      Errors.dest e = None.
Proof.
  apply (page_loop_ind (fun idx st trace o =>
    forall i d dl v delayed,
      In (Source i d dl) trace ->
      resolve source i d dl = OnSuccess v delayed ->
      v <> VUndefined ->
      as_array v = None ->
      exists e,
        o = Some (Rejected (Failure e)) /\
        name e = "PageError" /\
        code e = 5%nat /\
        error e = Error "Unexpected data returned from the source." /\
        index e = Some i /\
        Errors.source e = Some d /\
        Errors.dest e = None)); clear.
  - intros idx st i d dl v delayed [].
  - intros idx st called o Hit i d dl v delayed Hin Hres Hv Harr.
    destruct (page_iteration_events _ _ _ _ _ Hit Hin) as [E|[E|(v' & dl' & E)]];
      try discriminate. injection E as -> -> ->.
    inversion Hit; subst; clear Hit;
      match goal with
      | H1 : resolve ?a ?b ?c ?d = _, H2 : resolve ?a ?b ?c ?d = _ |- _ =>
          rewrite H1 in H2; inversion H2; subst
      end; try congruence; try discriminate.
    eexists. split; [reflexivity|]. cbn. repeat split.
  - intros idx st called idx' st' rest o Hit IH i d dl v delayed Hin Hres Hv Harr.
    apply in_app_or in Hin. destruct Hin as [Hin|[Hin|Hin]]; try discriminate.
    + destruct (page_iteration_events _ _ _ _ _ Hit Hin) as [E|[E|(v' & dl' & E)]];
        try discriminate. injection E as -> -> ->.
      destruct (page_iteration_continues _ _ _ _ _ Hit)
        as (_ & _ & page & dd & data & Hres' & _).
      rewrite Hres in Hres'. injection Hres' as -> _. discriminate.
    + exact (IH i d dl v delayed Hin Hres Hv Harr).
Qed.

(** A failure of the source ends the run with reason code 1 or 2. *)
Lemma page_loop_source_error (fuel idx : nat) (st : state) :
  forall i d dl reason isRej,
    In (Source i d dl) (fst (loop fuel idx st)) ->
    resolve source i d dl = OnError reason isRej ->
    exists e,
      snd (loop fuel idx st) = Some (Rejected (Failure e)) /\
      name e = "PageError" /\
      code e = (if isRej then 1 else 2)%nat /\
      error e = reason /\
      index e = Some i /\
      Errors.source e = Some d /\
      Errors.dest e = None.
Proof.
  apply (page_loop_ind (fun idx st trace o =>
    forall i d dl reason isRej,
      In (Source i d dl) trace ->
      resolve source i d dl = OnError reason isRej ->
      exists e,
        o = Some (Rejected (Failure e)) /\
        name e = "PageError" /\
        code e = (if isRej then 1 else 2)%nat /\
        error e = reason /\
        index e = Some i /\
        Errors.source e = Some d /\
        Errors.dest e = None)); clear.
  - intros idx st i d dl reason isRej [].
  - intros idx st called o Hit i d dl reason isRej Hin Hres.
    destruct (page_iteration_events _ _ _ _ _ Hit Hin) as [E|[E|(v' & dl' & E)]];
      try discriminate. injection E as -> -> ->.
    inversion Hit; subst; clear Hit;
      match goal with
      | H1 : resolve ?a ?b ?c ?d = _, H2 : resolve ?a ?b ?c ?d = _ |- _ =>
          rewrite H1 in H2; inversion H2; subst
      end.
    eexists. split; [reflexivity|]. cbn. repeat split.
  - intros idx st called idx' st' rest o Hit IH i d dl reason isRej Hin Hres.
    apply in_app_or in Hin. destruct Hin as [Hin|[Hin|Hin]]; try discriminate.
    + destruct (page_iteration_events _ _ _ _ _ Hit Hin) as [E|[E|(v' & dl' & E)]];
        try discriminate. injection E as -> -> ->.
      destruct (page_iteration_continues _ _ _ _ _ Hit)
        as (_ & _ & page & dd & data & Hres' & _).
      rewrite Hres in Hres'. discriminate.
    + exact (IH i d dl reason isRej Hin Hres).
Qed.

(* ------------------------------------------------------------------ *)
(** *** The sink, the totals, the delays and the stack                 *)

Lemma page_iteration_dest_event idx st called s j v dl :
  iteration idx st called s ->
  In (Dest j v dl) called ->
  j = idx /\
  exists page delayed data,
    resolve source idx (request st) (src_delay now idx st)
    = OnSuccess (VArr page) delayed /\
    batch page = BatchResolves data /\
    v = VArr data.
Proof.
  intros Hit Hin.
  inversion Hit; subst; clear Hit; cbn in Hin.
  all: repeat match goal with
       | H : _ \/ _ |- _ => destruct H
       | H : False |- _ => destruct H
       | H : Loop _ _ = Dest _ _ _ |- _ => discriminate H
       | H : Source _ _ _ = Dest _ _ _ |- _ => discriminate H
       | H : Dest _ _ _ = Dest _ _ _ |- _ => injection H as <- <- _
       end.
  all: split; [reflexivity|]; eexists _, _, _; repeat split; eassumption.
Qed.

(** The sink is handed the batch outcome of the page that the source just
    resolved with. *)
Lemma page_loop_dest_data (fuel idx : nat) (st : state) :
  forall j v dl, In (Dest j v dl) (fst (loop fuel idx st)) ->
  exists d sdl page delayed data,
    In (Source j d sdl) (fst (loop fuel idx st)) /\
    resolve source j d sdl = OnSuccess (VArr page) delayed /\
    batch page = BatchResolves data /\
    v = VArr data.
Proof.
  apply (page_loop_ind (fun idx st trace o =>
    forall j v dl, In (Dest j v dl) trace ->
    exists d sdl page delayed data,
      In (Source j d sdl) trace /\
      resolve source j d sdl = OnSuccess (VArr page) delayed /\
      batch page = BatchResolves data /\
      v = VArr data)).
  - intros idx0 st0 j v dl [].
  - intros idx0 st0 called o Hit j v dl Hin.
    destruct (page_iteration_dest_event _ _ _ _ _ _ _ Hit Hin)
      as [-> (pg & dd & data & Hres & Hb & ->)].
    exists (request st0), (src_delay now idx0 st0), pg, dd, data.
    split; [eapply page_iteration_source_event; eauto|auto].
  - intros idx0 st0 called idx' st' rest o Hit IH j v dl Hin.
    apply in_app_or in Hin. destruct Hin as [Hin|[Hin|Hin]]; try discriminate.
    + destruct (page_iteration_dest_event _ _ _ _ _ _ _ Hit Hin)
        as [-> (pg & dd & data & Hres & Hb & ->)].
      exists (request st0), (src_delay now idx0 st0), pg, dd, data.
      split; [|auto].
      apply in_or_app. left. eapply page_iteration_source_event; eauto.
    + destruct (IH j v dl Hin) as (d & sdl & pg & dd & data & H1 & H2).
      exists d, sdl, pg, dd, data.
      split; [apply in_or_app; right; now right|exact H2].
Qed.

Lemma batched_pages_app (a b : list event) :
  batched_pages resolve batch source (a ++ b)
  = batched_pages resolve batch source a
    ++ batched_pages resolve batch source b.
Proof. apply omap_app. Qed.

Lemma batched_pages_source idx d dl :
  batched_pages resolve batch source [Source idx d dl]
  = match resolve source idx d dl with
    | OnSuccess (VArr page) _ =>
        match batch page with
        | BatchResolves data => [data]
        | BatchRejects _ => []
        end
    | _ => []
    end.
Proof.
  unfold batched_pages. simpl.
  destruct (resolve source idx d dl) as [[| | | | | |pg|] ?|]; try reflexivity.
  now destruct (batch pg).
Qed.

Lemma page_iteration_batched idx st called s :
  iteration idx st called s ->
  batched_pages resolve batch source called
  = batched_pages resolve batch source
      [Source idx (request st) (src_delay now idx st)].
Proof. intros H. inversion H; reflexivity. Qed.

(** [pages] counts the pages whose batch resolved, and [total] adds up what
    the batches resolved with. *)
Lemma page_loop_totals (fuel idx : nat) (st : state) :
  forall r, snd (loop fuel idx st) = Some (Resolved r) ->
  pages r = (idx + length (batched_pages resolve batch source
                             (fst (loop fuel idx st))))%nat /\
  total r = (total_so_far st
             + list_sum (map length (batched_pages resolve batch source
                                       (fst (loop fuel idx st)))))%nat.
Proof.
  revert fuel idx st.
  apply (page_loop_ind (fun idx st trace o =>
    forall r, o = Some (Resolved r) ->
    pages r = (idx + length (batched_pages resolve batch source trace))%nat /\
    total r = (total_so_far st
               + list_sum (map length
                             (batched_pages resolve batch source trace)))%nat)).
  - intros idx st r [=].
  - intros idx st called o Hit r [= ->].
    rewrite (page_iteration_batched _ _ _ _ Hit), batched_pages_source.
    inversion Hit; subst; clear Hit; try discriminate;
      match goal with
      | H : resolve _ _ _ _ = _ |- _ => rewrite H
      end;
      try match goal with
      | H : batch _ = _ |- _ => rewrite H
      end;
      try match goal with
      | H : _ = Stop _ |- _ =>
          apply page_next_stop in H; destruct H as [_ H]
      end;
      try match goal with
      | H : _ = Resolved r |- _ => injection H as <-
      | H : Resolved r = _ |- _ => injection H as ->
      end;
      cbn; split; try lia;
      unfold answered; destruct delayed; cbn; lia.
  - intros idx st called idx' st' rest o Hit IH r Ho.
    destruct (page_iteration_continues _ _ _ _ _ Hit)
      as (-> & Hl & pg & dd & data & Hres & Hb & _ & Htot & _).
    destruct (IH r Ho) as [Hp Ht].
    rewrite batched_pages_app, (page_iteration_batched _ _ _ _ Hit),
      batched_pages_source, Hres, Hb.
    change (batched_pages resolve batch source (Direct (S idx) :: rest))
      with (batched_pages resolve batch source rest).
    cbn [app length map list_sum set_frames total_so_far] in *.
    rewrite Htot in Ht. unfold list_sum in *. cbn [fold_right].
    split; lia.
Qed.

(** With no limit that an index can reach, only [undefined] ends a run
    successfully. *)
Lemma page_loop_unlimited (fuel idx : nat) (st : state) :
  (forall i, limit_is limit (S i) = false) ->
  forall r, snd (loop fuel idx st) = Some (Resolved r) ->
  ended_by_undefined resolve source (fst (loop fuel idx st)).
Proof.
  intros Hl. revert fuel idx st.
  apply (page_loop_ind (fun idx st trace o =>
    forall r, o = Some (Resolved r) ->
    ended_by_undefined resolve source trace)).
  - intros idx st r [=].
  - intros idx st called o Hit r [= ->].
    destruct (page_iteration_resolved_stop _ _ _ _ Hit)
      as [H|[delayed Hres]]; [now rewrite Hl in H|].
    exists idx, (request st), (src_delay now idx st), delayed.
    split; [|exact Hres]. eapply page_iteration_source_event; eauto.
  - intros idx st called idx' st' rest o Hit IH r Ho.
    destruct (IH r Ho) as (i & d & dl & dd & Hin & Hr).
    exists i, d, dl, dd. split; [|exact Hr].
    apply in_or_app. right. now right.
Qed.

(** Every activation of the page loop runs with a single activation of
    [loop] on the stack. *)
Lemma page_loop_frames (fuel idx : nat) (st : state) :
  frames st = 1%nat ->
  forall j f, In (Loop j f) (fst (loop fuel idx st)) -> f = 1%nat.
Proof.
  revert fuel idx st.
  apply (page_loop_ind (fun idx st trace o =>
    frames st = 1%nat ->
    forall j f, In (Loop j f) trace -> f = 1%nat)).
  - intros idx st _ j f [].
  - intros idx st called o Hit Hf j f Hin.
    destruct (page_iteration_events _ _ _ _ _ Hit Hin)
      as [E|[E|(v & dl & E)]]; try discriminate. now injection E as _ ->.
  - intros idx st called idx' st' rest o Hit IH Hf j f Hin.
    destruct (page_iteration_continues _ _ _ _ _ Hit)
      as (_ & _ & _ & _ & _ & _ & _ & _ & _ & Hfr).
    apply in_app_or in Hin. destruct Hin as [Hin|[Hin|Hin]]; try discriminate.
    + destruct (page_iteration_events _ _ _ _ _ Hit Hin)
        as [E|[E|(v & dl & E)]]; try discriminate. now injection E as _ ->.
    + apply (IH ltac:(cbn; now rewrite Hfr) j f Hin).
Qed.

(** The page driver's own code never throws. *)
Lemma page_loop_no_throw (fuel idx : nat) (st : state) :
  snd (loop fuel idx st) <> Some Threw.
Proof.
  revert fuel idx st.
  apply (page_loop_ind (fun idx st trace o => o <> Some Threw)).
  - discriminate.
  - intros idx st called o Hit.
    inversion Hit; subst; clear Hit; try discriminate;
      match goal with
      | H : _ = Stop o |- _ =>
          apply page_next_stop in H; destruct H as [_ ->]; discriminate
      end.
  - auto.
Qed.

Lemma page_iteration_times idx st called idx' st' :
  iteration idx st called (Recurse idx' st') ->
  srcTime st' = Some (now (clock st)) /\
  (clock st < clock st')%nat /\
  (truthy dest = true -> destTime st' = Some (now (S (clock st))) /\
                         (S (clock st) < clock st')%nat).
Proof.
  intros H. inversion H; subst; clear H;
    match goal with
    | H : _ = Recurse _ _ |- _ =>
        apply page_next_recurse in H; destruct H as (_ & _ & ->)
    end; cbn;
    (split; [reflexivity|]); (split; [lia|]); intros Hd;
    try congruence; (split; [reflexivity|lia]).
Qed.

Lemma page_iteration_timed idx st called s :
  (forall a b, (a <= b)%nat -> now a <= now b) ->
  iteration idx st called s ->
  timed_state now dest idx st ->
  (forall j d dl, In (Source j d dl) called \/ In (Dest j d dl) called ->
                  well_timed j dl) /\
  (forall idx' st', s = Recurse idx' st' -> timed_state now dest idx' st').
Proof.
  intros Hmono Hit Hst. split.
  - assert (Hsrc : well_timed idx (src_delay now idx st)).
    { unfold src_delay, delay_at. destruct idx as [|i]; [exact I|].
      destruct Hst as [Hst|[(c & -> & Hc) _]]; [discriminate|].
      cbn. specialize (Hmono c (clock st)). lia. }
    assert (Hdst : truthy dest = true ->
              well_timed idx (dest_delay now idx st)).
    { intros Hd. unfold dest_delay, delay_at.
      destruct idx as [|i]; [exact I|].
      destruct Hst as [Hst|[_ Hdt]]; [discriminate|].
      destruct (Hdt Hd) as (c & -> & Hc).
      cbn. specialize (Hmono c (S (clock st))). lia. }
    intros j d dl Hin.
    inversion Hit; subst; clear Hit; cbn in Hin;
      repeat match goal with
      | H : _ \/ _ |- _ => destruct H
      | H : False |- _ => destruct H
      | H : _ = Source _ _ _ |- _ => inversion H; subst; clear H
      | H : _ = Dest _ _ _ |- _ => inversion H; subst; clear H
      end; auto.
  - intros idx' st' ->. right.
    destruct (page_iteration_times _ _ _ _ _ Hit) as (Hsrc & Hc & Hd).
    split.
    + exists (clock st). split; [exact Hsrc|exact Hc].
    + intros Hdest. destruct (Hd Hdest) as [E Hlt].
      exists (S (clock st)). split; [exact E|exact Hlt].
Qed.

(** Under a clock that never runs backwards, every callback call of a run
    of the page loop is well timed. *)
Lemma page_loop_timed (fuel idx : nat) (st : state) :
  (forall a b, (a <= b)%nat -> now a <= now b) ->
  timed_state now dest idx st ->
  forall j d dl,
    In (Source j d dl) (fst (loop fuel idx st)) \/
    In (Dest j d dl) (fst (loop fuel idx st)) ->
    well_timed j dl.
Proof.
  intros Hmono. revert fuel idx st.
  apply (page_loop_ind (fun idx st trace o =>
    timed_state now dest idx st ->
    forall j d dl,
      In (Source j d dl) trace \/ In (Dest j d dl) trace ->
      well_timed j dl)).
  - intros idx st _ j d dl [[]|[]].
  - intros idx st called o Hit Hst.
    exact (proj1 (page_iteration_timed _ _ _ _ Hmono Hit Hst)).
  - intros idx st called idx' st' rest o Hit IH Hst j d dl Hin.
    destruct (page_iteration_timed _ _ _ _ Hmono Hit Hst) as [Hev Hnext].
    specialize (IH (Hnext _ _ eq_refl)).
    destruct Hin as [Hin|Hin]; apply in_app_or in Hin;
      destruct Hin as [Hin|[Hin|Hin]]; try discriminate; eauto.
Qed.

(** A source that keeps resolving with pages whose batches resolve, under a
    sink that does not fail, is stopped by the limit after exactly [L]
    calls. *)
Lemma page_loop_reaches_limit (L : nat) :
  limit = Some (Z.of_nat L) ->
  (forall i d dl, (i < L)%nat ->
      exists page delayed data,
        resolve source i d dl = OnSuccess (VArr page) delayed /\
        batch page = BatchResolves data) ->
  (truthy dest = true ->
   forall i v dl, (i < L)%nat ->
      exists r, call dest i v dl = Returns r /\
                (isPromise r = true -> exists w, settle r = Fulfils w)) ->
  forall fuel idx st,
    (idx < L)%nat -> (L - idx <= fuel)%nat ->
    (exists st', snd (loop fuel idx st) = Some (success L st')) /\
    source_indices (fst (loop fuel idx st)) = seq idx (L - idx).
Proof.
  intros Hlim Hsrc Hdest.
  induction fuel as [|fuel IH]; intros idx st Hlt Hfuel; [lia|].
  rewrite page_loop_S. pose proof (page_loop_body_iteration idx st) as Hit.
  destruct (Hsrc idx (request st) (src_delay now idx st) Hlt)
    as (pg & delayed & data & Hres & Hb).
  pose proof (page_iteration_source_indices _ _ _ _ Hit) as Hsi.
  assert (Hgo : exists st0, snd (loop_body idx st) = next idx st0).
  { inversion Hit; subst;
      repeat match goal with
      | H1 : resolve ?a ?b ?c ?d = _, H2 : resolve ?a ?b ?c ?d = _ |- _ =>
          rewrite H1 in H2; inversion H2; subst; clear H2
      | H1 : batch ?p = _, H2 : batch ?p = _ |- _ =>
          rewrite H1 in H2; inversion H2; subst; clear H2
      | H : as_array (VArr _) = None |- _ => discriminate H
      | H : ?v <> ?v |- _ => now destruct H
      end; eauto;
      match goal with
      | Hd : truthy dest = true, Hc : call dest idx ?v ?dl = _ |- _ =>
          destruct (Hdest Hd idx v dl Hlt) as (r' & Hr' & Hp');
          rewrite Hr' in Hc; try discriminate Hc; injection Hc as <-
      end;
      match goal with
      | Hp : isPromise _ = true |- _ =>
          destruct (Hp' Hp) as [w' Hw']; congruence
      end. }
  destruct Hgo as [st0 ->]. unfold Page.next.
  destruct (Nat.eq_dec (S idx) L) as [E|Hne].
  - assert (Hl : limit_is limit (S idx) = true).
    { rewrite Hlim, SequenceFacts.limit_is_nat.
      apply bool_decide_eq_true_2. lia. }
    rewrite Hl. cbn [fst snd]. rewrite E.
    replace (L - idx)%nat with 1%nat by lia.
    split; [eauto|exact Hsi].
  - assert (Hl : limit_is limit (S idx) = false).
    { rewrite Hlim, SequenceFacts.limit_is_nat.
      apply bool_decide_eq_false_2. lia. }
    rewrite Hl. cbn [fst snd].
    destruct (IH (S idx) (set_frames st0 (S (frames st0))) ltac:(lia)
                ltac:(lia)) as (Ho & Hi).
    split; [exact Ho|].
    rewrite SequenceFacts.source_indices_app, Hsi.
    change (source_indices (Direct (S idx) :: ?r)) with (source_indices r).
    rewrite Hi. replace (L - idx)%nat with (S (L - S idx)) by lia.
    reflexivity.
Qed.

End Facts.
End PageFacts.

(* ================================================================== *)
(** ** The limit argument                                              *)
(* ================================================================== *)

Section Limit.
Import JS.

Variable host_ToNumber : value -> number.
Variable host_ToString : value -> string.

Lemma normalize_limit_number (x : number) :
  normalize_limit host_ToNumber host_ToString (VNum x)
  = if number_gt_zero x then parseInt_string (number_toString x) else Some 0.
Proof. reflexivity. Qed.

(** C10, as amended: [limit] is normalised to [parseInt(limit)] when
    [limit > 0] and to 0 otherwise.  For a positive Number that
    [Number::toString] prints in positional notation (decimal exponent
    [n] with [-6 < n <= 21], that is from 0.000001 up to but excluding
    1e21), [parseInt] is truncation toward zero: a fraction in that range
    below 1 gives 0 (unlimited) and a larger one gives its integer part. *)
Theorem normalize_limit_positional (limit : value) :
  (gt_zero host_ToNumber limit = false ->
   normalize_limit host_ToNumber host_ToString limit = Some 0) /\
  (gt_zero host_ToNumber limit = true ->
   normalize_limit host_ToNumber host_ToString limit
   = parseInt host_ToString limit) /\
  (forall d ds n,
      limit = VNum (Finite false d ds n) ->
      0 < digits_val 0 (d :: ds) ->
      -6 < n <= 21 ->
      normalize_limit host_ToNumber host_ToString limit
      = number_trunc (Finite false d ds n) /\
      (n <= 0 ->
       normalize_limit host_ToNumber host_ToString limit = Some 0)).
Proof.
  split; [|split].
  - intros H. unfold normalize_limit. now rewrite H.
  - intros H. unfold normalize_limit. now rewrite H.
  - intros d ds n -> Hpos Hn.
    assert (E : normalize_limit host_ToNumber host_ToString
                  (VNum (Finite false d ds n))
                = number_trunc (Finite false d ds n)).
    { rewrite normalize_limit_number.
      cbn [number_gt_zero negb andb].
      replace (0 <? digits_val 0 (d :: ds)) with true
        by (symmetry; now apply Z.ltb_lt).
      cbn [number_toString]. rewrite NumberFacts.append_empty.
      now apply NumberFacts.parseInt_finite_positional. }
    split; [exact E|]. intros Hn0. rewrite E.
    unfold number_trunc.
    pose proof (NumberFacts.digits_val_range (d :: ds)) as Hr.
    set (k := Z.of_nat (length (d :: ds))) in *.
    assert (0 < k) by (unfold k; cbn [length]; lia).
    replace (k <=? n) with false by (symmetry; apply Z.leb_gt; lia).
    f_equal. apply Z.div_small. split; [lia|].
    apply Z.lt_le_trans with (10 ^ k); [lia|].
    apply Z.pow_le_mono_r; lia.
Qed.

End Limit.

(** C10, counterexample: 0.0000001 lies strictly between 0 and 1 (it is
    positive and its integer part is 0) and prints as "1e-7", which
    [parseInt] reads as 1: the effective limit is 1, not 0. *)
Lemma normalize_limit_tiny_is_one :
  JS.number_gt_zero Scenario.tiny = true /\
  JS.number_trunc Scenario.tiny = Some 0 /\
  JS.number_toString Scenario.tiny = "1e-7"%string /\
  JS.normalize_limit Scenario.host_ToNumber Scenario.host_ToString
    (JS.VNum Scenario.tiny) = Some 1 /\
  JS.normalize_limit Scenario.host_ToNumber Scenario.host_ToString
    (JS.VNum Scenario.tiny) <> Some 0.
Proof. repeat split; try reflexivity. discriminate. Qed.

(** The limit 2.5 is normalised to 2. *)
Example normalize_limit_two_and_a_half :
  JS.normalize_limit Scenario.host_ToNumber Scenario.host_ToString
    (JS.VNum Scenario.two_and_a_half) = Some 2.
Proof. reflexivity. Qed.

(* ================================================================== *)
(** ** The options object                                              *)
(* ================================================================== *)

Section Options.
Import JS Driver.

Variable now : nat -> Z.
Variable wrap : value -> value.
Variable resolve : value -> nat -> value -> delay -> resolution.
Variable call : value -> nat -> value -> delay -> completion.
Variable settle : value -> settlement.
Variable source_later : value -> nat -> value -> delay -> bool.
Variable sink_later : value -> bool.
Variable batch : list value -> Page.batch_settlement.
Variable host_ToNumber : value -> number.
Variable host_ToString : value -> string.

#[local] Abbreviation sequence :=
  (Sequence.sequence now wrap resolve call settle source_later sink_later host_ToNumber host_ToString).
#[local] Abbreviation sequence_exports :=
  (Sequence.exports now wrap resolve call settle source_later sink_later host_ToNumber host_ToString).
#[local] Abbreviation page :=
  (Page.page now wrap resolve call settle batch host_ToNumber host_ToString).
#[local] Abbreviation page_exports :=
  (Page.exports now wrap resolve call settle batch host_ToNumber host_ToString).

Lemma options_test (dest : value) :
  truthy dest && String.eqb (typeof dest) "object" = is_plain_object dest.
Proof. destruct dest as [| |[]|[]| | | |]; try reflexivity. simpl.
  now rewrite Bool.andb_false_r. Qed.

(** C8: a second argument that is a non-null, non-callable object is read
    as an options object.  The run is the run of [sequence] (of [page])
    on the values of its [dest], [limit] (and [track]) properties, and so
    it is the run of the positional call with those values whenever that
    call is itself positional (its [dest] is no such object). *)
Theorem options_object_syntax (source dest limit track : value) (fuel : nat) :
  is_plain_object dest = true ->
  (sequence_exports source dest limit track fuel
   = sequence source (get_prop dest "dest") (get_prop dest "limit")
              (get_prop dest "track") fuel) /\
  (page_exports source dest limit fuel
   = page source (get_prop dest "dest") (get_prop dest "limit") fuel) /\
  (is_plain_object (get_prop dest "dest") = false ->
   sequence_exports source dest limit track fuel
   = sequence_exports source (get_prop dest "dest") (get_prop dest "limit")
                      (get_prop dest "track") fuel /\
   page_exports source dest limit fuel
   = page_exports source (get_prop dest "dest") (get_prop dest "limit") fuel).
Proof.
  intros Hobj. unfold Sequence.exports, Page.exports.
  rewrite !options_test, Hobj. split; [reflexivity|]. split; [reflexivity|].
  intros ->. split; reflexivity.
Qed.

End Options.

(** C8, witness: the options object [{dest: dst, limit: 2, track: true}]. *)
Lemma options_object_syntax_witness :
  Sequence.exports Scenario.now Scenario.wrap Scenario.counting
    Scenario.call_quiet Scenario.settle_ok
    Scenario.source_later Scenario.sink_later
    Scenario.host_ToNumber Scenario.host_ToString
    Scenario.src Scenario.options JS.VUndefined JS.VUndefined 5
  = Sequence.sequence Scenario.now Scenario.wrap Scenario.counting
      Scenario.call_quiet Scenario.settle_ok
      Scenario.source_later Scenario.sink_later
      Scenario.host_ToNumber Scenario.host_ToString
      Scenario.src Scenario.dst Scenario.two (JS.VBool true) 5.
Proof.
  exact (proj1 (options_object_syntax Scenario.now Scenario.wrap
                  Scenario.counting Scenario.call_quiet Scenario.settle_ok
                  Scenario.source_later Scenario.sink_later
                  Scenario.batch_values
                  Scenario.host_ToNumber Scenario.host_ToString
                  Scenario.src Scenario.options JS.VUndefined JS.VUndefined 5
                  eq_refl)).
Defined.

(* ================================================================== *)
(** ** The sequence driver                                             *)
(* ================================================================== *)

Section SequenceClaims.
Import JS Static Errors Driver.

Variable now : nat -> Z.
Variable wrap : value -> value.
Variable resolve : value -> nat -> value -> delay -> resolution.
Variable call : value -> nat -> value -> delay -> completion.
Variable settle : value -> settlement.
Variable source_later : value -> nat -> value -> delay -> bool.
Variable sink_later : value -> bool.
Variable host_ToNumber : value -> number.
Variable host_ToString : value -> string.

#[local] Abbreviation sequence :=
  (Sequence.sequence now wrap resolve call settle source_later sink_later host_ToNumber host_ToString).

Lemma sequence_run (source dest limit track : value) (fuel : nat) :
  sequence source dest limit track fuel
  = (if String.eqb (typeof source) "function"
     then Sequence.loop now resolve call settle source_later sink_later (wrap source) (wrap dest)
            (normalize_limit host_ToNumber host_ToString limit) track (now 0)
            fuel 0 Sequence.initial
     else ([], Some (Rejected
                       (TypeError "Parameter 'source' must be a function.")))).
Proof.
  unfold Sequence.sequence. now destruct (String.eqb (typeof source) "function").
Qed.

(** C1: the stack guard of [next].  In every run of [sequence]:
    - after a synchronous resolution ([delayed = false]) whose sink, if
      any, returns no promise, the next activation of [loop] is never a
      direct call and, when there is one, it was scheduled through
      [$p.resolve().then]; and the next iteration is so scheduled when the
      resolution was with a value, the limit is not reached and the sink,
      if any, returns;
    - after a delayed resolution the next activation is never scheduled
      and, when there is one, it is a direct call; and [next] does call
      [loop] directly when the resolution was with a value, the limit is
      not reached and the sink, if any, does not fail;
    - a run whose values all resolve synchronously, with no promise from
      the sink, makes no direct call at all, and every activation of
      [loop] then runs with a single activation of [loop] on the stack;
    - when every deferred calls back on a later turn, as the promises of a
      Promises/A+ library do, every activation of [loop] runs with a
      single activation of [loop] on the stack. *)
Theorem sequence_stack_guard (source dest limit track : value) (fuel : nat) :
  let trace := fst (sequence source dest limit track fuel) in
  let lim := normalize_limit host_ToNumber host_ToString limit in
  (forall j d dl v,
      In (Source j d dl) trace ->
      resolve (wrap source) j d dl = OnSuccess v false ->
      (forall ddl p, call (wrap dest) j v ddl = Returns p ->
                     isPromise p = false) ->
      ~ In (Direct (S j)) trace /\
      (forall f, In (Loop (S j) f) trace -> In (Scheduled (S j)) trace) /\
      (v <> VUndefined ->
       limit_is lim (S j) = false ->
       (truthy (wrap dest) = true ->
        forall ddl, exists p, call (wrap dest) j v ddl = Returns p) ->
       In (Scheduled (S j)) trace)) /\
  (forall j d dl v,
      In (Source j d dl) trace ->
      resolve (wrap source) j d dl = OnSuccess v true ->
      ~ In (Scheduled (S j)) trace /\
      (forall f, In (Loop (S j) f) trace -> In (Direct (S j)) trace) /\
      (v <> VUndefined ->
       limit_is lim (S j) = false ->
       (truthy (wrap dest) = true ->
        forall ddl, exists r,
          call (wrap dest) j v ddl = Returns r /\
          (isPromise r = true -> exists w, settle r = Fulfils w)) ->
       In (Direct (S j)) trace)) /\
  ((forall i d dl v delayed,
       resolve (wrap source) i d dl = OnSuccess v delayed -> delayed = false) ->
   (forall i v dl p,
       call (wrap dest) i v dl = Returns p -> isPromise p = false) ->
   (forall i, ~ In (Direct i) trace) /\
   (forall i f, In (Loop i f) trace -> f = 1%nat)) /\
  ((forall i d dl, source_later (wrap source) i d dl = true) ->
   (forall p, sink_later p = true) ->
   forall i f, In (Loop i f) trace -> f = 1%nat).
Proof.
  cbv zeta. rewrite sequence_run.
  destruct (String.eqb (typeof source) "function");
    [|cbn [fst]; repeat split; unfold not; intros;
      repeat match goal with H : In _ [] |- _ => destruct H end].
  set (lim := normalize_limit host_ToNumber host_ToString limit).
  assert (Hsync : forall j d dl v,
    In (Source j d dl)
       (fst (Sequence.loop now resolve call settle source_later sink_later
               (wrap source) (wrap dest) lim track (now 0) fuel 0
               Sequence.initial)) ->
    resolve (wrap source) j d dl = OnSuccess v false ->
    (forall ddl p, call (wrap dest) j v ddl = Returns p ->
                   isPromise p = false) ->
    ~ In (Direct (S j))
        (fst (Sequence.loop now resolve call settle source_later sink_later
                (wrap source) (wrap dest) lim track (now 0) fuel 0
                Sequence.initial))).
  { intros j d dl v Hin Hres Hsink.
    eapply SequenceFacts.loop_sync_not_direct; eauto. }
  assert (Hdelayed : forall j d dl v,
    In (Source j d dl)
       (fst (Sequence.loop now resolve call settle source_later sink_later
               (wrap source) (wrap dest) lim track (now 0) fuel 0
               Sequence.initial)) ->
    resolve (wrap source) j d dl = OnSuccess v true ->
    ~ In (Scheduled (S j))
        (fst (Sequence.loop now resolve call settle source_later sink_later
                (wrap source) (wrap dest) lim track (now 0) fuel 0
                Sequence.initial))).
  { intros j d dl v Hin Hres.
    eapply SequenceFacts.loop_delayed_not_scheduled; eauto. }
  assert (Hnone :
    (forall i d dl v delayed,
        resolve (wrap source) i d dl = OnSuccess v delayed ->
        delayed = false) ->
    (forall i v dl p,
        call (wrap dest) i v dl = Returns p -> isPromise p = false) ->
    forall i,
      ~ In (Direct i)
          (fst (Sequence.loop now resolve call settle source_later sink_later
                  (wrap source) (wrap dest) lim track (now 0) fuel 0
                  Sequence.initial))).
  { intros Hs Hsink i Hd.
    destruct (SequenceFacts.loop_direct now resolve call settle source_later
                sink_later (wrap source) (wrap dest) lim track (now 0)
                fuel 0 Sequence.initial i Hd)
      as (j & d & dl & v & delayed & _ & _ & Hres &
          [->|(ddl & p & _ & Hc & Hp)]).
    - now apply Hs in Hres.
    - rewrite (Hsink _ _ _ _ Hc) in Hp. discriminate. }
  split; [|split; [|split]].
  - intros j d dl v Hin Hres Hsink. split; [|split].
    + exact (Hsync j d dl v Hin Hres Hsink).
    + intros f Hl.
      destruct (SequenceFacts.loop_entered now resolve call settle
                  source_later sink_later (wrap source) (wrap dest) lim
                  track (now 0) fuel 0 Sequence.initial (S j) f Hl)
        as [E|[Hd|Hs]]; [discriminate| |exact Hs].
      now destruct (Hsync j d dl v Hin Hres Hsink).
    + intros Hv Hl Hret.
      apply (SequenceFacts.loop_sync_schedules now resolve call settle
               source_later sink_later (wrap source) (wrap dest) lim track
               (now 0) fuel 0 Sequence.initial j d dl v Hin Hres Hv Hl).
      intros Hd ddl. destruct (Hret Hd ddl) as [p Hc].
      exists p. split; [exact Hc|exact (Hsink ddl p Hc)].
  - intros j d dl v Hin Hres. split; [|split].
    + exact (Hdelayed j d dl v Hin Hres).
    + intros f Hl.
      destruct (SequenceFacts.loop_entered now resolve call settle
                  source_later sink_later (wrap source) (wrap dest) lim
                  track (now 0) fuel 0 Sequence.initial (S j) f Hl)
        as [E|[Hd|Hs]]; [discriminate|exact Hd|].
      now destruct (Hdelayed j d dl v Hin Hres).
    + intros Hv Hl Hsink.
      exact (SequenceFacts.loop_delayed_recurses now resolve call settle
               source_later sink_later (wrap source) (wrap dest) lim track
               (now 0) fuel 0 Sequence.initial j d dl v Hin Hres Hv Hl
               Hsink).
  - intros Hs Hsink. split; [exact (Hnone Hs Hsink)|].
    apply SequenceFacts.loop_frames_scheduled; [reflexivity|].
    exact (Hnone Hs Hsink).
  - intros Hsrc Hsk.
    now apply SequenceFacts.loop_frames.
Qed.

(** C4: if the source resolves with values other than [undefined] at
    iterations 0 to k-1 and with [undefined] at iteration k, the sink, if
    any, does not fail, the limit does not stop the run before, and
    [track] is off, then the run resolves with [{total: k, duration}],
    and the duration is not negative when the clock does not go back. *)
Theorem sequence_undefined_termination
    (source dest limit track : value) (k fuel : nat) :
  typeof source = "function"%string ->
  truthy track = false ->
  (forall a b, (a <= b)%nat -> now a <= now b) ->
  (forall i d dl, (i < k)%nat ->
      exists v delayed,
        resolve (wrap source) i d dl = OnSuccess v delayed /\ v <> VUndefined) ->
  (forall d dl, exists delayed,
      resolve (wrap source) k d dl = OnSuccess VUndefined delayed) ->
  (truthy (wrap dest) = true ->
   forall i v dl, (i < k)%nat ->
      exists r, call (wrap dest) i v dl = Returns r /\
                (isPromise r = true -> exists w, settle r = Fulfils w)) ->
  (forall i, (1 <= i <= k)%nat ->
      limit_is (normalize_limit host_ToNumber host_ToString limit) i = false) ->
  (k < fuel)%nat ->
  exists duration,
    snd (sequence source dest limit track fuel)
    = Some (Resolved (Sequence.Summary k duration)) /\
    0 <= duration.
Proof.
  intros Hf Htrack Hmono Hsrc Hend Hdest Hlim Hfuel.
  rewrite sequence_run, Hf, String.eqb_refl.
  destruct (SequenceFacts.loop_ends_at_undefined now resolve call settle source_later sink_later
              (wrap source) (wrap dest)
              (normalize_limit host_ToNumber host_ToString limit) track
              (now 0) k Hsrc Hend Hdest Hlim Htrack fuel 0 Sequence.initial
              ltac:(lia) ltac:(lia)) as [c Hc].
  exists (now c - now 0). split; [exact Hc|].
  specialize (Hmono 0%nat c ltac:(lia)). lia.
Qed.

(** C7: a run with [track] on that resolves, resolves with the array of
    the values the source resolved with, in call order, whose only named
    property is a [duration] that is not configurable, not enumerable and
    not writable. *)
Theorem sequence_track_result (source dest limit track : value) (fuel : nat) :
  truthy track = true ->
  forall r,
    snd (sequence source dest limit track fuel) = Some (Resolved r) ->
    exists duration,
      r = Sequence.Tracked
            (ArrayObject
               (resolved_values resolve (wrap source)
                  (fst (sequence source dest limit track fuel)))
               {["duration" := Descriptor duration false false false]}).
Proof.
  intros Htrack r. rewrite sequence_run.
  destruct (String.eqb (typeof source) "function"); [|discriminate].
  intros Hr.
  destruct (SequenceFacts.loop_tracked now resolve call settle source_later sink_later
              (wrap source) (wrap dest)
              (normalize_limit host_ToNumber host_ToString limit) track
              (now 0) fuel 0 Sequence.initial Htrack eq_refl r Hr) as [d ->].
  now exists d.
Qed.

End SequenceClaims.

(* ================================================================== *)
(** ** Both drivers                                                    *)
(* ================================================================== *)

Section DriverClaims.
Import JS Static Errors Driver.

Variable now : nat -> Z.
Variable wrap : value -> value.
Variable resolve : value -> nat -> value -> delay -> resolution.
Variable call : value -> nat -> value -> delay -> completion.
Variable settle : value -> settlement.
Variable source_later : value -> nat -> value -> delay -> bool.
Variable sink_later : value -> bool.
Variable batch : list value -> Page.batch_settlement.
Variable host_ToNumber : value -> number.
Variable host_ToString : value -> string.

#[local] Abbreviation sequence :=
  (Sequence.sequence now wrap resolve call settle source_later sink_later host_ToNumber host_ToString).
#[local] Abbreviation page :=
  (Page.page now wrap resolve call settle batch host_ToNumber host_ToString).

Lemma page_run (source dest limit : value) (fuel : nat) :
  page source dest limit fuel
  = (if String.eqb (typeof source) "function"
     then Page.loop now resolve call settle batch (wrap source) (wrap dest)
            (normalize_limit host_ToNumber host_ToString limit) (now 0)
            fuel 0 Page.initial
     else ([], Some (Rejected
                       (TypeError "Parameter 'source' must be a function.")))).
Proof.
  unfold Page.page. now destruct (String.eqb (typeof source) "function").
Qed.

Lemma integer_limit (limit : value) (L : Z) :
  0 < L ->
  (exists x, limit = VNum x /\ is_integer x L) ->
  normalize_limit host_ToNumber host_ToString limit = Some L.
Proof.
  intros HL (x & -> & Hx).
  destruct x as [| | |[] d ds n]; try contradiction.
  destruct Hx as [Hn ->]. rewrite normalize_limit_number.
  cbn [number_gt_zero negb andb].
  assert (0 < digits_val 0 (d :: ds)).
  { assert (0 < 10 ^ (n - Z.of_nat (length (d :: ds))))
      by (apply Z.pow_pos_nonneg; lia).
    nia. }
  replace (0 <? digits_val 0 (d :: ds)) with true
    by (symmetry; now apply Z.ltb_lt).
  cbn [number_toString]. rewrite NumberFacts.append_empty.
  now apply NumberFacts.parseInt_integer.
Qed.

(** C3, as amended: with a limit that is an integer Number [L],
    [0 < L < 1e21], and more generally with any limit that line 90 of
    sequence.js and line 81 of page.js normalise to the integer [L > 0], a
    run of [sequence] or of [page] calls its source with the indices
    0, 1, ..., n-1 in this order, where [n <= L], and a run that resolves
    has [n = L] unless a call of the source resolved with [undefined]. *)
Theorem source_calls_limit_law
    (source dest limit track : value) (L fuel : nat) :
  (0 < L)%nat ->
  (exists x, limit = VNum x /\ is_integer x (Z.of_nat L)) \/
  normalize_limit host_ToNumber host_ToString limit = Some (Z.of_nat L) ->
  (exists n : nat,
      source_indices (fst (sequence source dest limit track fuel)) = seq 0 n /\
      (n <= L)%nat /\
      (forall r,
          snd (sequence source dest limit track fuel) = Some (Resolved r) ->
          n = L \/
          ended_by_undefined resolve (wrap source)
            (fst (sequence source dest limit track fuel)))) /\
  (exists n : nat,
      source_indices (fst (page source dest limit fuel)) = seq 0 n /\
      (n <= L)%nat /\
      (forall r,
          snd (page source dest limit fuel) = Some (Resolved r) ->
          n = L \/
          ended_by_undefined resolve (wrap source)
            (fst (page source dest limit fuel)))).
Proof.
  intros HL Hlim.
  assert (Hnorm : normalize_limit host_ToNumber host_ToString limit
                  = Some (Z.of_nat L)).
  { destruct Hlim as [Hint|Hn]; [|exact Hn].
    apply integer_limit; [lia|exact Hint]. }
  clear Hlim. rename Hnorm into Hlim. split.
  - rewrite sequence_run.
    destruct (String.eqb (typeof source) "function").
    + destruct (SequenceFacts.loop_source_calls now resolve call settle source_later sink_later
                  (wrap source) (wrap dest)
                  (normalize_limit host_ToNumber host_ToString limit) track
                  (now 0) fuel 0 Sequence.initial) as (n & Hn & Hb).
      destruct (Hb L Hlim HL) as [Hle Hr].
      exists n. split; [exact Hn|]. split; [lia|exact Hr].
    + exists 0%nat. cbn. split; [reflexivity|]. split; [lia|discriminate].
  - rewrite page_run.
    destruct (String.eqb (typeof source) "function").
    + destruct (PageFacts.page_loop_source_calls now resolve call settle batch
                  (wrap source) (wrap dest)
                  (normalize_limit host_ToNumber host_ToString limit)
                  (now 0) fuel 0 Page.initial) as (n & Hn & Hb).
      destruct (Hb L Hlim HL) as [Hle Hr].
      exists n. split; [exact Hn|]. split; [lia|exact Hr].
    + exists 0%nat. cbn. split; [reflexivity|]. split; [lia|discriminate].
Qed.

(** C5: every SequenceError has exactly one of [source] and [dest] set,
    and so has every PageError except those of reason code 0, which have
    neither.  (A property is set when the driver assigned it, be it to
    [undefined].) *)
Theorem driver_error_shape (source dest limit track : value) (fuel : nat) :
  (forall e,
      snd (sequence source dest limit track fuel)
      = Some (Rejected (Failure e)) ->
      name e = "SequenceError"%string /\ populated e = 1%nat) /\
  (forall e,
      snd (page source dest limit fuel) = Some (Rejected (Failure e)) ->
      name e = "PageError"%string /\
      (code e = 0%nat -> Errors.source e = None /\ Errors.dest e = None) /\
      (code e <> 0%nat -> populated e = 1%nat)).
Proof.
  split; intros e.
  - rewrite sequence_run.
    destruct (String.eqb (typeof source) "function"); [|discriminate].
    intros H. apply SequenceFacts.loop_rejected in H.
    destruct H as (e' & [= <-] & Hname & Hcase). split; [exact Hname|].
    unfold populated.
    destruct Hcase as
      [(pre & i & f & d & dl & reason & isRej & _ & _ & _ & _ & _ & _ & -> & ->)
      |(pre & i & v & dl & err & _ & _ & _ & _ & _ & -> & ->)]; reflexivity.
  - rewrite page_run.
    destruct (String.eqb (typeof source) "function"); [|discriminate].
    intros H. apply PageFacts.page_loop_rejected in H.
    destruct H as (e' & [= <-] & Hname & Hcase). split; [exact Hname|].
    unfold populated.
    destruct Hcase as
      [(pre & i & f & d & dl & reason & isRej & _ & _ & _ & _ & Hc & _ & -> & ->)
      |[(pre & i & f & d & dl & v & dd & _ & _ & _ & _ & _ & _ & Hc & _ & -> & ->)
      |[(pre & i & f & d & dl & pg & dd & err & _ & _ & _ & _ & _ & Hc & _ & -> & ->)
      |(pre & i & v & dl & err & _ & Hc & _ & _ & _ & -> & ->)]]].
    + split; [|reflexivity]. rewrite Hc. now destruct isRej.
    + split; [|reflexivity]. now rewrite Hc.
    + split; [auto|]. now rewrite Hc.
    + split; [|reflexivity].
      destruct Hc as [[_ ->]|(p & _ & _ & _ & ->)]; discriminate.
Qed.

(** C9: where the errors' [source] and [dest] come from.  The source of
    a sequence is called with [undefined] at index 0 and then with the
    value its previous call resolved with, the source of a page run with
    [undefined] and then with the batch outcome of the previous page; a
    run that fails on its source sets [source] to the data of the call
    that failed, and a run that fails on its sink sets [dest] to the data
    of the sink call that failed. *)
Theorem failure_provenance (source dest limit track : value) (fuel : nat) :
  let srun := sequence source dest limit track fuel in
  let prun := page source dest limit fuel in
  (forall i d dl,
      In (Source i d dl) (fst srun) ->
      (i = 0%nat /\ d = VUndefined) \/
      ((0 < i)%nat /\
       exists d' dl' delayed,
         In (Source (i - 1) d' dl') (fst srun) /\
         resolve (wrap source) (i - 1) d' dl' = OnSuccess d delayed)) /\
  (forall e,
      snd srun = Some (Rejected (Failure e)) ->
      SequenceSpec.failed_on_source resolve (wrap source) (fst srun) e \/
      SequenceSpec.failed_on_sink call settle (wrap dest) (fst srun) e) /\
  (forall i d dl,
      In (Source i d dl) (fst prun) ->
      (i = 0%nat /\ d = VUndefined) \/
      ((0 < i)%nat /\
       exists d' dl' pg delayed data,
         In (Source (i - 1) d' dl') (fst prun) /\
         resolve (wrap source) (i - 1) d' dl' = OnSuccess (VArr pg) delayed /\
         batch pg = Page.BatchResolves data /\
         d = VArr data)) /\
  (forall e,
      snd prun = Some (Rejected (Failure e)) ->
      PageSpec.failed_on_source resolve (wrap source) (fst prun) e \/
      PageSpec.failed_on_data resolve (wrap source) (fst prun) e \/
      PageSpec.failed_on_batch resolve batch (wrap source) (fst prun) e \/
      PageSpec.failed_on_sink call settle (wrap dest) (fst prun) e).
Proof.
  cbv zeta. rewrite sequence_run, page_run.
  destruct (String.eqb (typeof source) "function");
    [|cbn [fst snd]; repeat split; intros; try discriminate;
      repeat match goal with H : In _ [] |- _ => destruct H end].
  split; [|split; [|split]].
  - intros i d dl Hin.
    destruct (SequenceFacts.loop_source_data _ _ _ _ _ _ _ _ _ _ _ _ _ _ _ _ _ Hin)
      as [[-> ->]|H]; [now left|right; exact H].
  - intros e H. apply SequenceFacts.loop_rejected in H.
    destruct H as (e' & [= <-] & _ & Hcase). exact Hcase.
  - intros i d dl Hin.
    destruct (PageFacts.page_loop_source_data _ _ _ _ _ _ _ _ _ _ _ _ _ _ _ Hin)
      as [[-> ->]|H]; [now left|right; exact H].
  - intros e H. apply PageFacts.page_loop_rejected in H.
    destruct H as (e' & [= <-] & _ & Hcase). exact Hcase.
Qed.

(** C6: in a page run, when the source resolves with a value that is
    neither [undefined] nor an array, the run rejects with a PageError of
    reason code 5 whose [index] is the index of that call and whose
    [source] is the data of that call: [undefined] at index 0, the batch
    outcome of the previous page later.  At index 0 the run does reach
    that call. *)
Theorem page_unexpected_data (source dest limit : value) (fuel : nat) :
  let run := page source dest limit fuel in
  (forall i d dl v delayed,
      In (Source i d dl) (fst run) ->
      resolve (wrap source) i d dl = OnSuccess v delayed ->
      v <> VUndefined ->
      as_array v = None ->
      exists e,
        snd run = Some (Rejected (Failure e)) /\
        name e = "PageError"%string /\
        code e = 5%nat /\
        index e = Some i /\
        Errors.source e = Some d /\
        Errors.dest e = None /\
        ((i = 0%nat /\ d = VUndefined) \/
         ((0 < i)%nat /\
          exists d' dl' pg dd data,
            In (Source (i - 1) d' dl') (fst run) /\
            resolve (wrap source) (i - 1) d' dl' = OnSuccess (VArr pg) dd /\
            batch pg = Page.BatchResolves data /\
            d = VArr data))) /\
  (typeof source = "function"%string ->
   (0 < fuel)%nat ->
   In (Source 0 VUndefined DelayUndefined) (fst run)).
Proof.
  cbv zeta. rewrite page_run. split.
  - destruct (String.eqb (typeof source) "function");
      [|intros i d dl v delayed []].
    intros i d dl v delayed Hin Hres Hv Harr.
    destruct (PageFacts.page_loop_not_an_array _ _ _ _ _ _ _ _ _ _ _ _ _ _ _ _ _
                Hin Hres Hv Harr)
      as (e & Ho & Hname & Hcode & _ & Hidx & Hsrc & Hdst).
    exists e. repeat (split; [assumption|]).
    destruct (PageFacts.page_loop_source_data _ _ _ _ _ _ _ _ _ _ _ _ _ _ _ Hin)
      as [[-> ->]|H]; [now left|right; exact H].
  - intros -> Hfuel. rewrite String.eqb_refl.
    destruct fuel as [|fuel]; [lia|]. rewrite PageFacts.page_loop_S.
    pose proof (PageFacts.page_loop_body_iteration now resolve call settle batch
                  (wrap source) (wrap dest)
                  (normalize_limit host_ToNumber host_ToString limit) (now 0)
                  0 Page.initial) as Hit.
    apply PageFacts.page_iteration_source_event in Hit.
    destruct (snd (Page.loop_body _ _ _ _ _ _ _ _ _ _ _)); cbn [fst];
      [exact Hit|apply in_or_app; now left].
Qed.

(** C2, as amended: in a page run, when the resolver reports the failure
    of a call of the source as a rejection ([isRej = true]) the PageError
    has reason code 1, and when it reports it as thrown
    ([isRej = false]) the PageError has reason code 2; in both cases
    [source] is set, to the data of that call.  With the resolver of the
    spec, a source that throws is reported with [isRej = false], hence
    code 2, and a source that returns a promise that rejects is reported
    with [isRej = true], hence code 1. *)
Theorem page_source_failure_codes (source dest limit : value) (fuel : nat) :
  let run := page source dest limit fuel in
  forall i d dl,
    In (Source i d dl) (fst run) ->
    (forall reason isRej,
        resolve (wrap source) i d dl = OnError reason isRej ->
        exists e,
          snd run = Some (Rejected (Failure e)) /\
          code e = (if isRej then 1 else 2)%nat /\
          error e = reason /\
          index e = Some i /\
          Errors.source e = Some d /\
          Errors.dest e = None) /\
    (typeof (wrap source) = "function"%string ->
     Resolver.agrees call settle resolve (wrap source) i d dl ->
     (forall err,
         call (wrap source) i d dl = Throws err ->
         exists e,
           snd run = Some (Rejected (Failure e)) /\
           code e = 2%nat /\ error e = err /\ Errors.source e = Some d) /\
     (forall p err,
         call (wrap source) i d dl = Returns p ->
         isPromise p = true ->
         settle p = Rejects err ->
         exists e,
           snd run = Some (Rejected (Failure e)) /\
           code e = 1%nat /\ error e = err /\ Errors.source e = Some d)).
Proof.
  cbv zeta. intros i d dl Hin.
  assert (Hflag : forall reason isRej,
    resolve (wrap source) i d dl = OnError reason isRej ->
    exists e,
      snd (page source dest limit fuel) = Some (Rejected (Failure e)) /\
      code e = (if isRej then 1 else 2)%nat /\
      error e = reason /\
      index e = Some i /\
      Errors.source e = Some d /\
      Errors.dest e = None).
  { intros reason isRej Hres. revert Hin. rewrite page_run.
    destruct (String.eqb (typeof source) "function"); [|intros []].
    intros Hin.
    destruct (PageFacts.page_loop_source_error _ _ _ _ _ _ _ _ _ _ _ _ _ _ _ _ _
                Hin Hres) as (e & Ho & _ & H).
    exists e. split; [exact Ho|exact H]. }
  split; [exact Hflag|].
  intros Hfun [rfuel Hagree]. destruct rfuel as [|rfuel]; [discriminate|].
  cbn [Resolver.resolve] in Hagree.
  rewrite Hfun, String.eqb_refl in Hagree. split.
  - intros err Hcall. rewrite Hcall in Hagree.
    cbv beta iota zeta in Hagree. injection Hagree as Hres.
    destruct (Hflag err false (eq_sym Hres)) as (e & Ho & Hc & He & _ & Hs & _).
    exists e. auto.
  - intros p err Hcall Hp Hs. rewrite Hcall in Hagree.
    cbv beta iota zeta in Hagree. rewrite Hp, Hs in Hagree.
    injection Hagree as Hres.
    destruct (Hflag err true (eq_sym Hres)) as (e & Ho & Hc & He & _ & Hs' & _).
    exists e. auto.
Qed.

End DriverClaims.

(* ================================================================== *)
(** ** Sample runs                                                     *)
(* ================================================================== *)

(** C2, counterexample: with the resolver of the spec, a source that
    throws is reported with [isRej = false] and the PageError has reason
    code 2, not 1; a source that returns a promise that rejects is
    reported with [isRej = true] and the PageError has reason code 1, not
    2. *)
Lemma page_source_codes_swapped :
  (Resolver.resolve Scenario.call_throws Scenario.settle_ok 1
     Scenario.src 0 JS.VUndefined Driver.DelayUndefined false
   = Some (Scenario.threw Scenario.src 0%nat JS.VUndefined Driver.DelayUndefined) /\
   exists e,
     snd (Page.page Scenario.now Scenario.wrap Scenario.threw
            Scenario.call_throws Scenario.settle_ok Scenario.batch_values
            Scenario.host_ToNumber Scenario.host_ToString
            Scenario.src JS.VUndefined JS.VUndefined 1)
     = Some (Driver.Rejected (Driver.Failure e)) /\
     Errors.code e = 2%nat /\ Errors.code e <> 1%nat) /\
  (Resolver.resolve Scenario.call_promise Scenario.settle_rejects 1
     Scenario.src 0 JS.VUndefined Driver.DelayUndefined false
   = Some (Scenario.rejected Scenario.src 0%nat JS.VUndefined Driver.DelayUndefined) /\
   exists e,
     snd (Page.page Scenario.now Scenario.wrap Scenario.rejected
            Scenario.call_promise Scenario.settle_rejects Scenario.batch_values
            Scenario.host_ToNumber Scenario.host_ToString
            Scenario.src JS.VUndefined JS.VUndefined 1)
     = Some (Driver.Rejected (Driver.Failure e)) /\
     Errors.code e = 1%nat /\ Errors.code e <> 2%nat).
Proof.
  split; (split; [reflexivity|]); eexists; (split; [reflexivity|]);
    (split; [reflexivity|discriminate]).
Qed.

(** C2, witness: a page run whose source throws at index 0. *)
Lemma page_source_failure_codes_witness :
  exists e,
    snd (Page.page Scenario.now Scenario.wrap Scenario.threw
           Scenario.call_throws Scenario.settle_ok Scenario.batch_values
           Scenario.host_ToNumber Scenario.host_ToString
           Scenario.src JS.VUndefined JS.VUndefined 1)
    = Some (Driver.Rejected (Driver.Failure e)) /\
    Errors.code e = 2%nat /\
    Errors.error e = Scenario.boom /\
    Errors.source e = Some JS.VUndefined.
Proof.
  refine (proj1 (proj2 (page_source_failure_codes Scenario.now Scenario.wrap
            Scenario.threw Scenario.call_throws Scenario.settle_ok
            Scenario.batch_values Scenario.host_ToNumber
            Scenario.host_ToString Scenario.src JS.VUndefined JS.VUndefined 1
            0%nat JS.VUndefined Driver.DelayUndefined _) eq_refl _)
          Scenario.boom eq_refl).
  - vm_compute. right. left. reflexivity.
  - exists 1%nat. reflexivity.
Defined.

(** C1, witness: the source that resolves synchronously with 0, 1, 2 has
    its second iteration scheduled, not called directly; the source that
    returns deferreds has it called directly, not scheduled. *)
Lemma sequence_stack_guard_witness :
  (~ In (Driver.Direct 1)
       (fst (Sequence.sequence Scenario.now Scenario.wrap Scenario.counting
               Scenario.call_quiet Scenario.settle_ok
               Scenario.source_later Scenario.sink_later
               Scenario.host_ToNumber Scenario.host_ToString
               Scenario.src Scenario.dst JS.VUndefined JS.VUndefined 4)) /\
   In (Driver.Scheduled 1)
      (fst (Sequence.sequence Scenario.now Scenario.wrap Scenario.counting
              Scenario.call_quiet Scenario.settle_ok
              Scenario.source_later Scenario.sink_later
              Scenario.host_ToNumber Scenario.host_ToString
              Scenario.src Scenario.dst JS.VUndefined JS.VUndefined 4))) /\
  (~ In (Driver.Scheduled 1)
       (fst (Sequence.sequence Scenario.now Scenario.wrap Scenario.deferring
               Scenario.call_quiet Scenario.settle_ok
               Scenario.source_later Scenario.sink_later
               Scenario.host_ToNumber Scenario.host_ToString
               Scenario.src Scenario.dst JS.VUndefined JS.VUndefined 4)) /\
   In (Driver.Direct 1)
      (fst (Sequence.sequence Scenario.now Scenario.wrap Scenario.deferring
              Scenario.call_quiet Scenario.settle_ok
              Scenario.source_later Scenario.sink_later
              Scenario.host_ToNumber Scenario.host_ToString
              Scenario.src Scenario.dst JS.VUndefined JS.VUndefined 4))).
Proof.
  split.
  - destruct (proj1 (sequence_stack_guard Scenario.now Scenario.wrap
                Scenario.counting Scenario.call_quiet Scenario.settle_ok
                Scenario.source_later Scenario.sink_later
                Scenario.host_ToNumber Scenario.host_ToString
                Scenario.src Scenario.dst JS.VUndefined JS.VUndefined 4)
              0%nat JS.VUndefined Driver.DelayUndefined Scenario.zero)
      as (Hdirect & _ & Hscheduled).
    + vm_compute. right. left. reflexivity.
    + reflexivity.
    + intros ddl p [= <-]. reflexivity.
    + split; [exact Hdirect|]. apply Hscheduled.
      * discriminate.
      * reflexivity.
      * intros _ ddl. exists JS.VUndefined. reflexivity.
  - destruct (proj1 (proj2 (sequence_stack_guard Scenario.now Scenario.wrap
                Scenario.deferring Scenario.call_quiet Scenario.settle_ok
                Scenario.source_later Scenario.sink_later
                Scenario.host_ToNumber Scenario.host_ToString
                Scenario.src Scenario.dst JS.VUndefined JS.VUndefined 4))
              0%nat JS.VUndefined Driver.DelayUndefined Scenario.zero)
      as (Hscheduled & _ & Hdirect).
    + vm_compute. right. left. reflexivity.
    + reflexivity.
    + split; [exact Hscheduled|]. apply Hdirect.
      * discriminate.
      * reflexivity.
      * intros _ ddl. exists JS.VUndefined. split; [reflexivity|].
        discriminate.
Defined.

(** With thenables that call back at once, inside their [then], the direct
    calls of [next] nest: the activations of [loop] run with 1, 2, 3 and
    4 activations on the stack.  With deferreds that call back on a later
    turn the same run has a single activation at each. *)
Example sequence_nests_on_thenables_that_call_back_at_once :
  Driver.activations
    (fst (Sequence.sequence Scenario.now Scenario.wrap Scenario.deferring
            Scenario.call_quiet Scenario.settle_ok
            Scenario.source_at_once Scenario.sink_at_once
            Scenario.host_ToNumber Scenario.host_ToString
            Scenario.src JS.VUndefined JS.VUndefined JS.VUndefined 9))
  = [1; 2; 3; 4]%nat /\
  Driver.activations
    (fst (Sequence.sequence Scenario.now Scenario.wrap Scenario.deferring
            Scenario.call_quiet Scenario.settle_ok
            Scenario.source_later Scenario.sink_later
            Scenario.host_ToNumber Scenario.host_ToString
            Scenario.src JS.VUndefined JS.VUndefined JS.VUndefined 9))
  = [1; 1; 1; 1]%nat.
Proof. split; reflexivity. Qed.

(** C3, counterexample: the limit 0.3 is greater than 0 and its integer
    part is 0, yet the source is called four times: the limit is
    normalised to 0, which is no limit.  The limit 2e21 prints as "2e+21"
    and is normalised to 2: the run resolves after two calls of the
    source, none of which resolved with [undefined]. *)
Lemma limit_law_fails_off_the_integers :
  (JS.number_gt_zero Scenario.three_tenths = true /\
   JS.number_trunc Scenario.three_tenths = Some 0 /\
   Driver.source_indices
     (fst (Sequence.sequence Scenario.now Scenario.wrap Scenario.counting
             Scenario.call_quiet Scenario.settle_ok
             Scenario.source_later Scenario.sink_later
             Scenario.host_ToNumber Scenario.host_ToString
             Scenario.src JS.VUndefined (JS.VNum Scenario.three_tenths)
             JS.VUndefined 9))
   = seq 0 4) /\
  (JS.number_trunc Scenario.two_sextillion = Some (2 * 10 ^ 21) /\
   Driver.source_indices
     (fst (Sequence.sequence Scenario.now Scenario.wrap Scenario.counting
             Scenario.call_quiet Scenario.settle_ok
             Scenario.source_later Scenario.sink_later
             Scenario.host_ToNumber Scenario.host_ToString
             Scenario.src JS.VUndefined (JS.VNum Scenario.two_sextillion)
             JS.VUndefined 9))
   = seq 0 2 /\
   snd (Sequence.sequence Scenario.now Scenario.wrap Scenario.counting
          Scenario.call_quiet Scenario.settle_ok
          Scenario.source_later Scenario.sink_later
          Scenario.host_ToNumber Scenario.host_ToString
          Scenario.src JS.VUndefined (JS.VNum Scenario.two_sextillion)
          JS.VUndefined 9)
   = Some (Driver.Resolved (Sequence.Summary 2 30)) /\
   ~ Driver.ended_by_undefined Scenario.counting (Scenario.wrap Scenario.src)
       (fst (Sequence.sequence Scenario.now Scenario.wrap Scenario.counting
               Scenario.call_quiet Scenario.settle_ok
               Scenario.source_later Scenario.sink_later
               Scenario.host_ToNumber Scenario.host_ToString
               Scenario.src JS.VUndefined (JS.VNum Scenario.two_sextillion)
               JS.VUndefined 9))).
Proof.
  split; [repeat split; reflexivity|].
  split; [reflexivity|]. split; [reflexivity|]. split; [reflexivity|].
  intros (i & d & dl & delayed & Hin & Hres).
  vm_compute in Hin.
  repeat match goal with
  | H : _ \/ _ |- _ => destruct H
  | H : False |- _ => destruct H
  end;
  try discriminate;
  match goal with
  | H : Driver.Source _ _ _ = Driver.Source _ _ _ |- _ =>
      injection H as <- <- <-
  end;
  discriminate Hres.
Qed.

(** C3, witness: the limit 2 on a source that goes on to index 3. *)
Lemma source_calls_limit_law_witness :
  (exists n : nat,
      Driver.source_indices
        (fst (Sequence.sequence Scenario.now Scenario.wrap Scenario.counting
                Scenario.call_quiet Scenario.settle_ok
                Scenario.source_later Scenario.sink_later
                Scenario.host_ToNumber Scenario.host_ToString
                Scenario.src JS.VUndefined Scenario.two JS.VUndefined 9))
      = seq 0 n /\ (n <= 2)%nat) /\
  (exists n : nat,
      Driver.source_indices
        (fst (Page.page Scenario.now Scenario.wrap Scenario.paging
                Scenario.call_quiet Scenario.settle_ok Scenario.batch_values
                Scenario.host_ToNumber Scenario.host_ToString
                Scenario.src JS.VUndefined Scenario.two 9))
      = seq 0 n /\ (n <= 2)%nat).
Proof.
  assert (Htwo : exists x, Scenario.two = JS.VNum x /\ JS.is_integer x 2).
  { exists (JS.Finite false JS.d2 [] 1). split; [reflexivity|].
    cbn. split; [lia|reflexivity]. }
  split.
  - destruct (proj1 (source_calls_limit_law Scenario.now Scenario.wrap
                Scenario.counting Scenario.call_quiet Scenario.settle_ok
                Scenario.source_later Scenario.sink_later
                Scenario.batch_values Scenario.host_ToNumber
                Scenario.host_ToString Scenario.src JS.VUndefined
                Scenario.two JS.VUndefined 2 9 ltac:(lia) (or_introl Htwo)))
      as (n & Hn & Hle & _).
    exists n. split; assumption.
  - destruct (proj2 (source_calls_limit_law Scenario.now Scenario.wrap
                Scenario.paging Scenario.call_quiet Scenario.settle_ok
                Scenario.source_later Scenario.sink_later
                Scenario.batch_values Scenario.host_ToNumber
                Scenario.host_ToString Scenario.src JS.VUndefined
                Scenario.two JS.VUndefined 2 9 ltac:(lia) (or_introl Htwo)))
      as (n & Hn & Hle & _).
    exists n. split; assumption.
Defined.

(** C4, witness: a source that resolves with 0, 1, 2 and then
    [undefined]. *)
Lemma sequence_undefined_termination_witness :
  exists duration,
    snd (Sequence.sequence Scenario.now Scenario.wrap Scenario.counting
           Scenario.call_quiet Scenario.settle_ok
           Scenario.source_later Scenario.sink_later
           Scenario.host_ToNumber Scenario.host_ToString
           Scenario.src JS.VUndefined JS.VUndefined JS.VUndefined 4)
    = Some (Driver.Resolved (Sequence.Summary 3 duration)) /\
    0 <= duration.
Proof.
  apply (sequence_undefined_termination Scenario.now Scenario.wrap
           Scenario.counting Scenario.call_quiet Scenario.settle_ok
           Scenario.source_later Scenario.sink_later
           Scenario.host_ToNumber Scenario.host_ToString
           Scenario.src JS.VUndefined JS.VUndefined JS.VUndefined 3 4).
  - reflexivity.
  - reflexivity.
  - intros a b Hab. unfold Scenario.now. lia.
  - intros i d dl Hi.
    destruct i as [|[|[|i]]]; [| | |lia]; eexists _, _;
      (split; [reflexivity|discriminate]).
  - intros d dl. exists false. reflexivity.
  - discriminate.
  - intros i Hi. destruct i as [|i]; [lia|reflexivity].
  - lia.
Defined.

(** C7, witness: the same source with [track] on. *)
Lemma sequence_track_result_witness :
  exists duration,
    Sequence.Tracked
      (Static.ArrayObject [Scenario.zero; Scenario.one; Scenario.two]
         {["duration"%string := Static.Descriptor 50 false false false]})
    = Sequence.Tracked
        (Static.ArrayObject
           (Driver.resolved_values Scenario.counting
              (Scenario.wrap Scenario.src)
              (fst (Sequence.sequence Scenario.now Scenario.wrap
                      Scenario.counting Scenario.call_quiet Scenario.settle_ok
                      Scenario.source_later Scenario.sink_later
                      Scenario.host_ToNumber Scenario.host_ToString
                      Scenario.src JS.VUndefined JS.VUndefined
                      (JS.VBool true) 4)))
           {["duration"%string := Static.Descriptor duration false false false]}).
Proof.
  apply (sequence_track_result Scenario.now Scenario.wrap Scenario.counting
           Scenario.call_quiet Scenario.settle_ok
           Scenario.source_later Scenario.sink_later
           Scenario.host_ToNumber Scenario.host_ToString
           Scenario.src JS.VUndefined JS.VUndefined (JS.VBool true) 4).
  - reflexivity.
  - vm_compute. reflexivity.
Defined.

(* ================================================================== *)
(** ** Further properties of the drivers                               *)
(* ================================================================== *)

Section DriverProperties.
Import JS Static Errors Driver.

Variable now : nat -> Z.
Variable wrap : value -> value.
Variable resolve : value -> nat -> value -> delay -> resolution.
Variable call : value -> nat -> value -> delay -> completion.
Variable settle : value -> settlement.
Variable source_later : value -> nat -> value -> delay -> bool.
Variable sink_later : value -> bool.
Variable batch : list value -> Page.batch_settlement.
Variable host_ToNumber : value -> number.
Variable host_ToString : value -> string.

#[local] Abbreviation sequence :=
  (Sequence.sequence now wrap resolve call settle source_later sink_later host_ToNumber host_ToString).
#[local] Abbreviation page :=
  (Page.page now wrap resolve call settle batch host_ToNumber host_ToString).
#[local] Abbreviation sequence_exports :=
  (Sequence.exports now wrap resolve call settle source_later sink_later host_ToNumber host_ToString).
#[local] Abbreviation page_exports :=
  (Page.exports now wrap resolve call settle batch host_ToNumber host_ToString).
#[local] Abbreviation normalize :=
  (normalize_limit host_ToNumber host_ToString).

(** X1: [sequence] and [page] reject with a TypeError, and call nothing,
    when [source] is not a function. *)
Theorem source_must_be_function (source dest limit track : value) (fuel : nat) :
  typeof source <> "function"%string ->
  sequence source dest limit track fuel
  = ([], Some (Rejected (TypeError "Parameter 'source' must be a function.")))
  /\
  page source dest limit fuel
  = ([], Some (Rejected (TypeError "Parameter 'source' must be a function."))).
Proof.
  intros Hs. rewrite sequence_run, page_run.
  destruct (String.eqb_spec (typeof source) "function"); [congruence|].
  split; reflexivity.
Qed.

(** X2: linked sequencing.  The first call of [source] in a sequence gets
    [undefined] as its data, and every later call gets the value that the
    call before it resolved with. *)
Theorem sequence_source_receives_previous_value
    (source dest limit track : value) (fuel : nat) (j : nat) (d : value)
    (dl : delay) :
  In (Source j d dl) (fst (sequence source dest limit track fuel)) ->
  (j = 0%nat /\ d = VUndefined) \/
  ((0 < j)%nat /\
   exists d' dl' delayed,
     In (Source (j - 1) d' dl') (fst (sequence source dest limit track fuel)) /\
     resolve (wrap source) (j - 1) d' dl' = OnSuccess d delayed).
Proof.
  rewrite sequence_run.
  destruct (String.eqb (typeof source) "function"); [|intros []].
  intros Hin.
  exact (SequenceFacts.loop_source_data now resolve call settle source_later sink_later (wrap source)
           (wrap dest) (normalize limit) track (now 0) fuel 0
           Sequence.initial j d dl Hin).
Qed.

(** X3: the sink of a sequence is only called when there is one, never
    with [undefined], and with the value that the call of [source] of the
    same index resolved with. *)
Theorem sequence_sink_receives_value
    (source dest limit track : value) (fuel : nat) (j : nat) (v : value)
    (dl : delay) :
  In (Dest j v dl) (fst (sequence source dest limit track fuel)) ->
  truthy (wrap dest) = true /\
  v <> VUndefined /\
  exists d sdl delayed,
    In (Source j d sdl) (fst (sequence source dest limit track fuel)) /\
    resolve (wrap source) j d sdl = OnSuccess v delayed.
Proof.
  rewrite sequence_run.
  destruct (String.eqb (typeof source) "function"); [|intros []].
  intros Hin.
  destruct (SequenceFacts.loop_dest_defined now resolve call settle source_later sink_later
              (wrap source) (wrap dest) (normalize limit) track (now 0)
              fuel 0 Sequence.initial j v dl Hin) as [Hd Hv].
  split; [exact Hd|]. split; [exact Hv|].
  exact (SequenceFacts.loop_dest_data now resolve call settle source_later sink_later (wrap source)
           (wrap dest) (normalize limit) track (now 0) fuel 0
           Sequence.initial j v dl Hin).
Qed.

(** X4: the sink of a page run is called with what the batch of the page
    resolved with, for the page that the call of [source] of the same
    index resolved with. *)
Theorem page_sink_receives_batch
    (source dest limit : value) (fuel : nat) (j : nat) (v : value)
    (dl : delay) :
  In (Dest j v dl) (fst (page source dest limit fuel)) ->
  exists d sdl items delayed data,
    In (Source j d sdl) (fst (page source dest limit fuel)) /\
    resolve (wrap source) j d sdl = OnSuccess (VArr items) delayed /\
    batch items = Page.BatchResolves data /\
    v = VArr data.
Proof.
  rewrite page_run.
  destruct (String.eqb (typeof source) "function"); [|intros []].
  intros Hin.
  exact (PageFacts.page_loop_dest_data now resolve call settle batch
           (wrap source) (wrap dest) (normalize limit) (now 0) fuel 0
           Page.initial j v dl Hin).
Qed.

(** X5: a call of [source] in a sequence that the resolver reports as
    failed rejects the run with the SequenceError built from the reason,
    the data of that call as [source], the index of that call, and the
    reason code 0 for a rejection ([isRej]) and 1 for a throw. *)
Theorem sequence_source_failure_codes
    (source dest limit track : value) (fuel : nat) (i : nat) (d : value)
    (dl : delay) (reason : value) (isRej : bool) :
  In (Source i d dl) (fst (sequence source dest limit track fuel)) ->
  resolve (wrap source) i d dl = OnError reason isRej ->
  exists duration,
    snd (sequence source dest limit track fuel)
    = Some (Rejected (Failure
        (SequenceError (Reason reason (Some d) None (Some i))
           (if isRej then 0 else 1)%nat
           (get_prop (wrap source) "name") duration))).
Proof.
  rewrite sequence_run.
  destruct (String.eqb (typeof source) "function"); [|intros []].
  intros Hin Hres.
  destruct (SequenceFacts.loop_source_failure now resolve call settle source_later sink_later
              (wrap source) (wrap dest) (normalize limit) track (now 0)
              fuel 0 Sequence.initial i d dl reason isRej Hin Hres)
    as [st' ->].
  eexists. reflexivity.
Qed.

(** X6: without tracking, a sequence that resolves reports as [total] the
    number of values, other than [undefined], that its source resolved
    with. *)
Theorem sequence_total_counts_values
    (source dest limit track : value) (fuel : nat) (r : Sequence.result) :
  truthy track = false ->
  snd (sequence source dest limit track fuel) = Some (Resolved r) ->
  exists duration,
    r = Sequence.Summary
          (length (resolved_values resolve (wrap source)
                     (fst (sequence source dest limit track fuel))))
          duration.
Proof.
  intros Ht. rewrite sequence_run.
  destruct (String.eqb (typeof source) "function"); [|discriminate].
  intros Hr.
  exact (SequenceFacts.loop_total now resolve call settle source_later sink_later (wrap source)
           (wrap dest) (normalize limit) track (now 0) fuel 0
           Sequence.initial Ht r Hr).
Qed.

(** X7: a page run that resolves reports as [pages] the number of pages
    whose batch resolved and as [total] the number of values that those
    batches resolved with. *)
Theorem page_totals
    (source dest limit : value) (fuel : nat) (r : Page.result) :
  snd (page source dest limit fuel) = Some (Resolved r) ->
  Page.pages r
  = length (PageSpec.batched_pages resolve batch (wrap source)
              (fst (page source dest limit fuel))) /\
  Page.total r
  = list_sum (map length
                (PageSpec.batched_pages resolve batch (wrap source)
                   (fst (page source dest limit fuel)))).
Proof.
  rewrite page_run.
  destruct (String.eqb (typeof source) "function"); [|discriminate].
  intros Hr.
  exact (PageFacts.page_loop_totals now resolve call settle batch
           (wrap source) (wrap dest) (normalize limit) (now 0) fuel 0
           Page.initial r Hr).
Qed.

(** X8: under a clock that never runs backwards, the delay handed to
    [source] and to [dest] by a sequence is [undefined] at index 0 and a
    number of milliseconds that is not negative at every later index; it
    is never NaN. *)
Theorem sequence_callbacks_well_timed
    (source dest limit track : value) (fuel : nat) (j : nat) (d : value)
    (dl : delay) :
  (forall a b, (a <= b)%nat -> now a <= now b) ->
  In (Source j d dl) (fst (sequence source dest limit track fuel)) \/
  In (Dest j d dl) (fst (sequence source dest limit track fuel)) ->
  well_timed j dl.
Proof.
  intros Hmono. rewrite sequence_run.
  destruct (String.eqb (typeof source) "function"); [|intros [[]|[]]].
  apply (SequenceFacts.loop_timed now resolve call settle source_later sink_later (wrap source)
           (wrap dest) (normalize limit) track (now 0) fuel 0
           Sequence.initial Hmono).
  now left.
Qed.

(** X9: the same for a page run. *)
Theorem page_callbacks_well_timed
    (source dest limit : value) (fuel : nat) (j : nat) (d : value)
    (dl : delay) :
  (forall a b, (a <= b)%nat -> now a <= now b) ->
  In (Source j d dl) (fst (page source dest limit fuel)) \/
  In (Dest j d dl) (fst (page source dest limit fuel)) ->
  well_timed j dl.
Proof.
  intros Hmono. rewrite page_run.
  destruct (String.eqb (typeof source) "function"); [|intros [[]|[]]].
  apply (PageFacts.page_loop_timed now resolve call settle batch
           (wrap source) (wrap dest) (normalize limit) (now 0) fuel 0
           Page.initial Hmono).
  now left.
Qed.

Lemma unlimited (limit : value) (i : nat) :
  gt_zero host_ToNumber limit = false \/
  limit = VNum (Infinity false) \/ limit = VBool true ->
  limit_is (normalize limit) (S i) = false.
Proof.
  intros [H|[->| ->]]; [|reflexivity|reflexivity].
  unfold normalize_limit. rewrite H. unfold limit_is.
  apply Z.eqb_neq. lia.
Qed.

(** X10: a [limit] that is not greater than 0 (among them [undefined],
    [null], 0, NaN and the negative numbers), and the limits [Infinity]
    and [true], which [parseInt] reads as NaN, leave the run unlimited:
    a sequence or page run that resolves then had a call of [source] that
    resolved with [undefined]. *)
Theorem unlimited_run_ends_by_undefined
    (source dest limit track : value) (fuel : nat) :
  gt_zero host_ToNumber limit = false \/
  limit = VNum (Infinity false) \/ limit = VBool true ->
  (forall r,
      snd (sequence source dest limit track fuel) = Some (Resolved r) ->
      ended_by_undefined resolve (wrap source)
        (fst (sequence source dest limit track fuel))) /\
  (forall r,
      snd (page source dest limit fuel) = Some (Resolved r) ->
      ended_by_undefined resolve (wrap source)
        (fst (page source dest limit fuel))).
Proof.
  intros Hl. rewrite sequence_run, page_run.
  destruct (String.eqb (typeof source) "function");
    [|split; intros r; discriminate].
  split; intros r Hr.
  - exact (SequenceFacts.loop_unlimited now resolve call settle source_later sink_later (wrap source)
             (wrap dest) (normalize limit) track (now 0) fuel 0
             Sequence.initial (fun i => unlimited limit i Hl) r Hr).
  - exact (PageFacts.page_loop_unlimited now resolve call settle batch
             (wrap source) (wrap dest) (normalize limit) (now 0) fuel 0
             Page.initial (fun i => unlimited limit i Hl) r Hr).
Qed.

(** X11: a sequence with the effective limit [L > 0], whose source
    resolves with a value other than [undefined] at every index below [L]
    and whose sink, if any, neither throws nor returns a promise that
    rejects, resolves with [total = L] after calling its source exactly
    at the indices 0, ..., L-1. *)
Theorem sequence_reaches_limit
    (source dest limit track : value) (L fuel : nat) :
  typeof source = "function"%string ->
  normalize limit = Some (Z.of_nat L) ->
  (0 < L <= fuel)%nat ->
  truthy track = false ->
  (forall i d dl, (i < L)%nat ->
      exists v delayed,
        resolve (wrap source) i d dl = OnSuccess v delayed /\
        v <> VUndefined) ->
  (truthy (wrap dest) = true ->
   forall i v dl, (i < L)%nat ->
      exists r, call (wrap dest) i v dl = Returns r /\
                (isPromise r = true -> exists w, settle r = Fulfils w)) ->
  (exists duration,
      snd (sequence source dest limit track fuel)
      = Some (Resolved (Sequence.Summary L duration))) /\
  source_indices (fst (sequence source dest limit track fuel)) = seq 0 L.
Proof.
  intros Hf Hlim HL Ht Hsrc Hdest. rewrite sequence_run, Hf, String.eqb_refl.
  destruct (SequenceFacts.loop_reaches_limit now resolve call settle source_later sink_later
              (wrap source) (wrap dest) (normalize limit) track (now 0) L
              Hlim Hsrc Hdest fuel 0%nat Sequence.initial
              ltac:(lia) ltac:(lia)) as [[st' Ho] Hi].
  split.
  - rewrite Ho. unfold Sequence.success. rewrite Ht. eauto.
  - rewrite Hi. f_equal. lia.
Qed.

(** X12: a page run with the effective limit [L > 0], whose source
    resolves at every index below [L] with a page whose batch resolves and
    whose sink, if any, neither throws nor returns a promise that rejects,
    resolves with [pages = L] after calling its source exactly at the
    indices 0, ..., L-1. *)
Theorem page_reaches_limit
    (source dest limit : value) (L fuel : nat) :
  typeof source = "function"%string ->
  normalize limit = Some (Z.of_nat L) ->
  (0 < L <= fuel)%nat ->
  (forall i d dl, (i < L)%nat ->
      exists items delayed data,
        resolve (wrap source) i d dl = OnSuccess (VArr items) delayed /\
        batch items = Page.BatchResolves data) ->
  (truthy (wrap dest) = true ->
   forall i v dl, (i < L)%nat ->
      exists r, call (wrap dest) i v dl = Returns r /\
                (isPromise r = true -> exists w, settle r = Fulfils w)) ->
  (exists total duration,
      snd (page source dest limit fuel)
      = Some (Resolved (Page.Result L total duration))) /\
  source_indices (fst (page source dest limit fuel)) = seq 0 L.
Proof.
  intros Hf Hlim HL Hsrc Hdest. rewrite page_run, Hf, String.eqb_refl.
  destruct (PageFacts.page_loop_reaches_limit now resolve call settle batch
              (wrap source) (wrap dest) (normalize limit) (now 0) L
              Hlim Hsrc Hdest fuel 0%nat Page.initial
              ltac:(lia) ltac:(lia)) as [[st' Ho] Hi].
  split.
  - rewrite Ho. unfold Page.success. eauto.
  - rewrite Hi. f_equal. lia.
Qed.

(** X13: a second argument that is no object, or [null], is the sink of a
    positional call. *)
Theorem positional_syntax (source dest limit track : value) (fuel : nat) :
  is_plain_object dest = false ->
  sequence_exports source dest limit track fuel
  = sequence source dest limit track fuel /\
  page_exports source dest limit fuel = page source dest limit fuel.
Proof.
  intros Hobj. unfold Sequence.exports, Page.exports.
  rewrite !options_test, Hobj. split; reflexivity.
Qed.

(** X14: the call of [extend] in [success] never throws: the result
    array, which starts empty and only grows by [push], has no [duration]
    property yet when [success] extends it. *)
Theorem success_extend_never_throws
    (source dest limit track : value) (fuel : nat) :
  snd (sequence source dest limit track fuel) <> Some Threw.
Proof.
  rewrite sequence_run.
  destruct (String.eqb (typeof source) "function"); [|discriminate].
  now apply SequenceFacts.loop_no_throw.
Qed.

(** X15: every activation of the loop of [page] runs with a single
    activation of [loop] on the stack: [next] is only reached from the
    continuation of the batch. *)
Theorem page_stack_depth
    (source dest limit : value) (fuel : nat) (j f : nat) :
  In (Loop j f) (fst (page source dest limit fuel)) -> f = 1%nat.
Proof.
  rewrite page_run.
  destruct (String.eqb (typeof source) "function"); [|intros []].
  now apply PageFacts.page_loop_frames.
Qed.

(** X16: a positive Number that [Number::toString] prints in exponential
    notation (decimal exponent [n <= -6] or [n > 21], that is below
    0.000001 or from 1e21 on) is normalised to its first digit. *)
Theorem normalize_limit_exponential (d : digit) (ds : list digit) (n : Z) :
  d <> d0 ->
  n <= -6 \/ 21 < n ->
  normalize (VNum (Finite false d ds n)) = Some (digit_val d).
Proof.
  intros Hd Hn. rewrite normalize_limit_number.
  cbn [number_gt_zero negb andb].
  replace (0 <? digits_val 0 (d :: ds)) with true
    by (symmetry; apply Z.ltb_lt; now apply NumberFacts.digits_val_leading).
  cbn [number_toString]. rewrite NumberFacts.append_empty.
  destruct (NumberFacts.finite_toString_exponential d ds n Hn)
    as (rest & -> & Hrest).
  rewrite NumberFacts.parseInt_digits by exact Hrest.
  reflexivity.
Qed.

End DriverProperties.

(* ================================================================== *)
(** ** Properties of the helpers of static.js                          *)
(* ================================================================== *)

(** X17: [messageGap(level)] is a string of [4 * level] spaces. *)
Theorem messageGap_is_spaces (level : nat) :
  Static.messageGap level = Static.spaces (4 * level) /\
  String.length (Static.messageGap level) = (4 * level)%nat.
Proof.
  rewrite StaticFacts.messageGap_spaces. split; [reflexivity|].
  induction (4 * level)%nat as [|n IH]; [reflexivity|].
  cbn [Static.spaces String.length]. now rewrite IH.
Qed.

(** X18: when some line of the stack has a path inside brackets, the
    lines of what [getStack] returns are the lines of the stack that have
    one, in their order, each behind a gap of [4 * level] spaces. *)
Theorem getStack_lines (stack : string) (level : nat) :
  List.filter Static.has_bracketed_path (Static.split Static.line_feed stack)
  <> [] ->
  Static.split Static.line_feed (Static.getStack stack level)
  = map (fun line => Static.spaces (4 * level) +:+ line)
      (List.filter Static.has_bracketed_path
         (Static.split Static.line_feed stack)).
Proof.
  intros Hne. unfold Static.getStack. rewrite StaticFacts.messageGap_spaces.
  apply StaticFacts.split_join.
  - destruct (List.filter _ _); [congruence|discriminate].
  - apply StaticFacts.indented_free.
    + now apply StaticFacts.spaces_free.
    + apply List.Forall_forall. intros line Hin.
      apply List.filter_In in Hin. destruct Hin as [Hin _].
      pose proof (StaticFacts.split_lines_free stack) as Hfree.
      rewrite List.Forall_forall in Hfree. now apply Hfree.
Qed.

(** X19: for an Error that is none of BatchError, PageError and
    SequenceError, the lines of what [formatError] returns are the lines
    of the inspected error, each but the first behind a gap of
    [4 * level] spaces; at level 0 the text is returned as it is. *)
Theorem formatError_lines
    (inspect : string) (name : JS.value) (own_toString : nat -> string)
    (level : nat) :
  Static.is_spex_error name = false ->
  (exists first rest,
      Static.split Static.line_feed inspect = first :: rest /\
      Static.split Static.line_feed
        (Static.formatError inspect true name own_toString level)
      = first :: map (fun line => Static.spaces (4 * level) +:+ line) rest) /\
  Static.formatError inspect true name own_toString 0 = inspect.
Proof.
  intros Hname. unfold Static.formatError. rewrite Hname. cbn [negb].
  rewrite !StaticFacts.imap_indent, !StaticFacts.messageGap_spaces.
  pose proof (StaticFacts.split_not_nil Static.line_feed inspect) as Hne.
  pose proof (StaticFacts.split_lines_free inspect) as Hfree.
  pose proof (StaticFacts.join_split inspect) as Hjoin.
  destruct (Static.split Static.line_feed inspect) as [|first rest];
    [congruence|].
  apply Forall_cons in Hfree. destruct Hfree as [Hfirst Hrest].
  split.
  - exists first, rest. split; [reflexivity|].
    apply StaticFacts.split_join; [discriminate|].
    constructor; [exact Hfirst|].
    apply StaticFacts.indented_free; [|exact Hrest].
    now apply StaticFacts.spaces_free.
  - cbn [Nat.mul Nat.add Static.spaces].
    assert (E : map (fun line => EmptyString +:+ line) rest = rest).
    { clear. induction rest as [|line rest IH]; [reflexivity|].
      cbn [map]. now rewrite IH, NumberFacts.append_empty. }
    rewrite E. exact Hjoin.
Qed.

(** X20: [extend] makes the property read-only: it is not configurable,
    not enumerable and not writable, and extending the object again under
    the same name with another value throws. *)
Theorem extend_is_read_only
    (obj obj' : Static.array_object Z) (name : string) (v : Z) :
  Static.extend obj name v = Some obj' ->
  Static.named obj' !! name = Some (Static.Descriptor v false false false) /\
  Static.elems obj' = Static.elems obj /\
  forall w, w <> v -> Static.extend obj' name w = None.
Proof.
  unfold Static.extend, Static.defineProperty. intros H.
  assert (E : obj' = Static.ArrayObject (Static.elems obj)
                (<[name := Static.Descriptor v false false false]>
                   (Static.named obj))).
  { destruct (Static.named obj !! name) as [old|]; [|congruence].
    destruct (Static.d_configurable old); [congruence|].
    match type of H with (if ?b then _ else _) = _ =>
      destruct b; congruence end. }
  subst obj'. cbn [Static.named Static.elems].
  rewrite lookup_insert_eq. split; [reflexivity|]. split; [reflexivity|].
  intros w Hw. cbn.
  rewrite bool_decide_eq_false_2 by exact Hw. reflexivity.
Qed.

(* ================================================================== *)
(** ** Sample runs for the further properties                          *)
(* ================================================================== *)

(** Finds an event in a run that was computed. *)
Ltac found := vm_compute; repeat (first [left; reflexivity | right]).

(** X1, witness: a string as the source. *)
Lemma source_must_be_function_witness :
  Sequence.sequence Scenario.now Scenario.wrap Scenario.counting
    Scenario.call_quiet Scenario.settle_ok
    Scenario.source_later Scenario.sink_later
    Scenario.host_ToNumber Scenario.host_ToString
    Scenario.boom JS.VUndefined JS.VUndefined JS.VUndefined 4
  = ([], Some (Driver.Rejected
                 (Driver.TypeError "Parameter 'source' must be a function.")))
  /\
  Page.page Scenario.now Scenario.wrap Scenario.counting
    Scenario.call_quiet Scenario.settle_ok Scenario.batch_values
    Scenario.host_ToNumber Scenario.host_ToString
    Scenario.boom JS.VUndefined JS.VUndefined 4
  = ([], Some (Driver.Rejected
                 (Driver.TypeError "Parameter 'source' must be a function."))).
Proof.
  apply (source_must_be_function Scenario.now Scenario.wrap Scenario.counting
           Scenario.call_quiet Scenario.settle_ok
           Scenario.source_later Scenario.sink_later Scenario.batch_values
           Scenario.host_ToNumber Scenario.host_ToString
           Scenario.boom JS.VUndefined JS.VUndefined JS.VUndefined 4).
  discriminate.
Defined.

(** X2, witness: the call at index 1 of the counting source gets the 0
    that the call at index 0 resolved with. *)
Lemma sequence_source_receives_previous_value_witness :
  (1%nat = 0%nat /\ Scenario.zero = JS.VUndefined) \/
  ((0 < 1)%nat /\
   exists d' dl' delayed,
     In (Driver.Source (1 - 1) d' dl')
        (fst (Sequence.sequence Scenario.now Scenario.wrap Scenario.counting
                Scenario.call_quiet Scenario.settle_ok
                Scenario.source_later Scenario.sink_later
                Scenario.host_ToNumber Scenario.host_ToString
                Scenario.src Scenario.dst JS.VUndefined JS.VUndefined 4)) /\
     Scenario.counting (Scenario.wrap Scenario.src) (1 - 1) d' dl'
     = Driver.OnSuccess Scenario.zero delayed).
Proof.
  apply (sequence_source_receives_previous_value Scenario.now Scenario.wrap
           Scenario.counting Scenario.call_quiet Scenario.settle_ok
           Scenario.source_later Scenario.sink_later
           Scenario.host_ToNumber Scenario.host_ToString
           Scenario.src Scenario.dst JS.VUndefined JS.VUndefined 4
           1%nat Scenario.zero (Driver.DelayMs 20)).
  found.
Defined.

(** X3, witness: the sink of that run is called with 1 at index 1. *)
Lemma sequence_sink_receives_value_witness :
  JS.truthy (Scenario.wrap Scenario.dst) = true /\
  Scenario.one <> JS.VUndefined /\
  exists d sdl delayed,
    In (Driver.Source 1 d sdl)
       (fst (Sequence.sequence Scenario.now Scenario.wrap Scenario.counting
               Scenario.call_quiet Scenario.settle_ok
               Scenario.source_later Scenario.sink_later
               Scenario.host_ToNumber Scenario.host_ToString
               Scenario.src Scenario.dst JS.VUndefined JS.VUndefined 4)) /\
    Scenario.counting (Scenario.wrap Scenario.src) 1 d sdl
    = Driver.OnSuccess Scenario.one delayed.
Proof.
  apply (sequence_sink_receives_value Scenario.now Scenario.wrap
           Scenario.counting Scenario.call_quiet Scenario.settle_ok
           Scenario.source_later Scenario.sink_later
           Scenario.host_ToNumber Scenario.host_ToString
           Scenario.src Scenario.dst JS.VUndefined JS.VUndefined 4
           1%nat Scenario.one (Driver.DelayMs 20)).
  found.
Defined.

(** X4, witness: the sink of a page run is called with the page [3] at
    index 1. *)
Lemma page_sink_receives_batch_witness :
  exists d sdl items delayed data,
    In (Driver.Source 1 d sdl)
       (fst (Page.page Scenario.now Scenario.wrap Scenario.paging
               Scenario.call_quiet Scenario.settle_ok Scenario.batch_values
               Scenario.host_ToNumber Scenario.host_ToString
               Scenario.src Scenario.dst JS.VUndefined 4)) /\
    Scenario.paging (Scenario.wrap Scenario.src) 1 d sdl
    = Driver.OnSuccess (JS.VArr items) delayed /\
    Scenario.batch_values items = Page.BatchResolves data /\
    JS.VArr [Scenario.three] = JS.VArr data.
Proof.
  apply (page_sink_receives_batch Scenario.now Scenario.wrap
           Scenario.paging Scenario.call_quiet Scenario.settle_ok
           Scenario.batch_values Scenario.host_ToNumber Scenario.host_ToString
           Scenario.src Scenario.dst JS.VUndefined 4
           1%nat (JS.VArr [Scenario.three]) (Driver.DelayMs 20)).
  found.
Defined.

(** X5, witness: a source that resolves with 0 and then throws. *)
Lemma sequence_source_failure_codes_witness :
  exists duration,
    snd (Sequence.sequence Scenario.now Scenario.wrap Scenario.failing
           Scenario.call_quiet Scenario.settle_ok
           Scenario.source_later Scenario.sink_later
           Scenario.host_ToNumber Scenario.host_ToString
           Scenario.src Scenario.dst JS.VUndefined JS.VUndefined 4)
    = Some (Driver.Rejected (Driver.Failure
        (Errors.SequenceError
           (Errors.Reason Scenario.boom (Some Scenario.zero) None (Some 1%nat))
           (if false then 0 else 1)%nat
           (JS.get_prop (Scenario.wrap Scenario.src) "name") duration))).
Proof.
  apply (sequence_source_failure_codes Scenario.now Scenario.wrap
           Scenario.failing Scenario.call_quiet Scenario.settle_ok
           Scenario.source_later Scenario.sink_later
           Scenario.host_ToNumber Scenario.host_ToString
           Scenario.src Scenario.dst JS.VUndefined JS.VUndefined 4
           1%nat Scenario.zero (Driver.DelayMs 20) Scenario.boom false).
  - found.
  - reflexivity.
Defined.

(** X6, witness: the counting source resolves with three values. *)
Lemma sequence_total_counts_values_witness :
  exists duration,
    Sequence.Summary 3 80
    = Sequence.Summary
        (length (Driver.resolved_values Scenario.counting
                   (Scenario.wrap Scenario.src)
                   (fst (Sequence.sequence Scenario.now Scenario.wrap
                           Scenario.counting Scenario.call_quiet
                           Scenario.settle_ok
                           Scenario.source_later Scenario.sink_later Scenario.host_ToNumber
                           Scenario.host_ToString Scenario.src Scenario.dst
                           JS.VUndefined JS.VUndefined 4))))
        duration.
Proof.
  apply (sequence_total_counts_values Scenario.now Scenario.wrap
           Scenario.counting Scenario.call_quiet Scenario.settle_ok
           Scenario.source_later Scenario.sink_later
           Scenario.host_ToNumber Scenario.host_ToString
           Scenario.src Scenario.dst JS.VUndefined JS.VUndefined 4).
  - reflexivity.
  - vm_compute. reflexivity.
Defined.

(** X7, witness: two pages, of two values and of one. *)
Lemma page_totals_witness :
  Page.pages (Page.Result 2 3 60)
  = length (PageSpec.batched_pages Scenario.paging Scenario.batch_values
              (Scenario.wrap Scenario.src)
              (fst (Page.page Scenario.now Scenario.wrap Scenario.paging
                      Scenario.call_quiet Scenario.settle_ok
                      Scenario.batch_values Scenario.host_ToNumber
                      Scenario.host_ToString Scenario.src Scenario.dst
                      JS.VUndefined 4))) /\
  Page.total (Page.Result 2 3 60)
  = list_sum (map length
                (PageSpec.batched_pages Scenario.paging Scenario.batch_values
                   (Scenario.wrap Scenario.src)
                   (fst (Page.page Scenario.now Scenario.wrap Scenario.paging
                           Scenario.call_quiet Scenario.settle_ok
                           Scenario.batch_values Scenario.host_ToNumber
                           Scenario.host_ToString Scenario.src Scenario.dst
                           JS.VUndefined 4)))).
Proof.
  apply (page_totals Scenario.now Scenario.wrap Scenario.paging
           Scenario.call_quiet Scenario.settle_ok Scenario.batch_values
           Scenario.host_ToNumber Scenario.host_ToString
           Scenario.src Scenario.dst JS.VUndefined 4).
  vm_compute. reflexivity.
Defined.

(** X8, witness: the sink of the counting run at index 1, 20 ms after
    its call at index 0. *)
Lemma sequence_callbacks_well_timed_witness :
  Driver.well_timed 1 (Driver.DelayMs 20).
Proof.
  apply (sequence_callbacks_well_timed Scenario.now Scenario.wrap
           Scenario.counting Scenario.call_quiet Scenario.settle_ok
           Scenario.source_later Scenario.sink_later
           Scenario.host_ToNumber Scenario.host_ToString
           Scenario.src Scenario.dst JS.VUndefined JS.VUndefined 4
           1%nat Scenario.one (Driver.DelayMs 20)).
  - intros a b Hab. unfold Scenario.now. lia.
  - right. found.
Defined.

(** X9, witness: the source of the page run at index 2. *)
Lemma page_callbacks_well_timed_witness :
  Driver.well_timed 2 (Driver.DelayMs 20).
Proof.
  apply (page_callbacks_well_timed Scenario.now Scenario.wrap
           Scenario.paging Scenario.call_quiet Scenario.settle_ok
           Scenario.batch_values Scenario.host_ToNumber Scenario.host_ToString
           Scenario.src Scenario.dst JS.VUndefined 4
           2%nat (JS.VArr [Scenario.three]) (Driver.DelayMs 20)).
  - intros a b Hab. unfold Scenario.now. lia.
  - left. found.
Defined.

(** X10, witness: the counting run with the limit 0. *)
Lemma unlimited_run_ends_by_undefined_witness :
  Driver.ended_by_undefined Scenario.counting (Scenario.wrap Scenario.src)
    (fst (Sequence.sequence Scenario.now Scenario.wrap Scenario.counting
            Scenario.call_quiet Scenario.settle_ok
            Scenario.source_later Scenario.sink_later
            Scenario.host_ToNumber Scenario.host_ToString
            Scenario.src JS.VUndefined Scenario.zero JS.VUndefined 4)).
Proof.
  refine (proj1 (unlimited_run_ends_by_undefined Scenario.now Scenario.wrap
            Scenario.counting Scenario.call_quiet Scenario.settle_ok
            Scenario.source_later Scenario.sink_later
            Scenario.batch_values Scenario.host_ToNumber
            Scenario.host_ToString Scenario.src JS.VUndefined Scenario.zero
            JS.VUndefined 4 _) (Sequence.Summary 3 50) _).
  - left. reflexivity.
  - vm_compute. reflexivity.
Defined.

(** X11, witness: the counting source under the limit 2. *)
Lemma sequence_reaches_limit_witness :
  (exists duration,
      snd (Sequence.sequence Scenario.now Scenario.wrap Scenario.counting
             Scenario.call_quiet Scenario.settle_ok
             Scenario.source_later Scenario.sink_later
             Scenario.host_ToNumber Scenario.host_ToString
             Scenario.src Scenario.dst Scenario.two JS.VUndefined 2)
      = Some (Driver.Resolved (Sequence.Summary 2 duration))) /\
  Driver.source_indices
    (fst (Sequence.sequence Scenario.now Scenario.wrap Scenario.counting
            Scenario.call_quiet Scenario.settle_ok
            Scenario.source_later Scenario.sink_later
            Scenario.host_ToNumber Scenario.host_ToString
            Scenario.src Scenario.dst Scenario.two JS.VUndefined 2))
  = seq 0 2.
Proof.
  apply (sequence_reaches_limit Scenario.now Scenario.wrap Scenario.counting
           Scenario.call_quiet Scenario.settle_ok
           Scenario.source_later Scenario.sink_later
           Scenario.host_ToNumber Scenario.host_ToString
           Scenario.src Scenario.dst Scenario.two JS.VUndefined 2 2).
  - reflexivity.
  - reflexivity.
  - lia.
  - reflexivity.
  - intros i d dl Hi.
    destruct i as [|[|i]]; [| |lia]; eexists _, _;
      (split; [reflexivity|discriminate]).
  - intros _ i v dl _. exists JS.VUndefined. split; [reflexivity|].
    discriminate.
Defined.

(** X12, witness: the paging source under the limit 2. *)
Lemma page_reaches_limit_witness :
  (exists total duration,
      snd (Page.page Scenario.now Scenario.wrap Scenario.paging
             Scenario.call_quiet Scenario.settle_ok Scenario.batch_values
             Scenario.host_ToNumber Scenario.host_ToString
             Scenario.src Scenario.dst Scenario.two 2)
      = Some (Driver.Resolved (Page.Result 2 total duration))) /\
  Driver.source_indices
    (fst (Page.page Scenario.now Scenario.wrap Scenario.paging
            Scenario.call_quiet Scenario.settle_ok Scenario.batch_values
            Scenario.host_ToNumber Scenario.host_ToString
            Scenario.src Scenario.dst Scenario.two 2))
  = seq 0 2.
Proof.
  apply (page_reaches_limit Scenario.now Scenario.wrap Scenario.paging
           Scenario.call_quiet Scenario.settle_ok Scenario.batch_values
           Scenario.host_ToNumber Scenario.host_ToString
           Scenario.src Scenario.dst Scenario.two 2 2).
  - reflexivity.
  - reflexivity.
  - lia.
  - intros i d dl Hi.
    destruct i as [|[|i]]; [| |lia]; eexists _, _, _;
      (split; reflexivity).
  - intros _ i v dl _. exists JS.VUndefined. split; [reflexivity|].
    discriminate.
Defined.

(** X13, witness: [null] as the second argument. *)
Lemma positional_syntax_witness :
  Sequence.exports Scenario.now Scenario.wrap Scenario.counting
    Scenario.call_quiet Scenario.settle_ok
    Scenario.source_later Scenario.sink_later
    Scenario.host_ToNumber Scenario.host_ToString
    Scenario.src JS.VNull Scenario.two JS.VUndefined 4
  = Sequence.sequence Scenario.now Scenario.wrap Scenario.counting
      Scenario.call_quiet Scenario.settle_ok
      Scenario.source_later Scenario.sink_later
      Scenario.host_ToNumber Scenario.host_ToString
      Scenario.src JS.VNull Scenario.two JS.VUndefined 4 /\
  Page.exports Scenario.now Scenario.wrap Scenario.counting
    Scenario.call_quiet Scenario.settle_ok Scenario.batch_values
    Scenario.host_ToNumber Scenario.host_ToString
    Scenario.src JS.VNull Scenario.two 4
  = Page.page Scenario.now Scenario.wrap Scenario.counting
      Scenario.call_quiet Scenario.settle_ok Scenario.batch_values
      Scenario.host_ToNumber Scenario.host_ToString
      Scenario.src JS.VNull Scenario.two 4.
Proof.
  apply (positional_syntax Scenario.now Scenario.wrap Scenario.counting
           Scenario.call_quiet Scenario.settle_ok
           Scenario.source_later Scenario.sink_later Scenario.batch_values
           Scenario.host_ToNumber Scenario.host_ToString
           Scenario.src JS.VNull Scenario.two JS.VUndefined 4).
  reflexivity.
Defined.

(** X15, witness: the activation at index 1 of the page run. *)
Lemma page_stack_depth_witness : 1%nat = 1%nat.
Proof.
  apply (page_stack_depth Scenario.now Scenario.wrap Scenario.paging
           Scenario.call_quiet Scenario.settle_ok Scenario.batch_values
           Scenario.host_ToNumber Scenario.host_ToString
           Scenario.src Scenario.dst JS.VUndefined 4 1%nat 1%nat).
  found.
Defined.

(** X16, witness: 0.0000001 prints as "1e-7" and is normalised to 1. *)
Lemma normalize_limit_exponential_witness :
  JS.normalize_limit Scenario.host_ToNumber Scenario.host_ToString
    (JS.VNum (JS.Finite false JS.d1 [] (-6)))
  = Some (JS.digit_val JS.d1).
Proof.
  apply (normalize_limit_exponential Scenario.host_ToNumber
           Scenario.host_ToString JS.d1 [] (-6)).
  - discriminate.
  - left. lia.
Defined.

(** X18, witness: the sample stack at level 1. *)
Lemma getStack_lines_witness :
  Static.split Static.line_feed (Static.getStack Scenario.stack 1)
  = map (fun line => Static.spaces (4 * 1) +:+ line)
      (List.filter Static.has_bracketed_path
         (Static.split Static.line_feed Scenario.stack)).
Proof.
  apply (getStack_lines Scenario.stack 1). vm_compute. discriminate.
Defined.

(** X19, witness: a TypeError inspected on two lines, at level 1. *)
Lemma formatError_lines_witness :
  (exists first rest,
      Static.split Static.line_feed Scenario.inspected = first :: rest /\
      Static.split Static.line_feed
        (Static.formatError Scenario.inspected true (JS.VStr "TypeError")
           (fun _ => EmptyString) 1)
      = first :: map (fun line => Static.spaces (4 * 1) +:+ line) rest) /\
  Static.formatError Scenario.inspected true (JS.VStr "TypeError")
    (fun _ => EmptyString) 0
  = Scenario.inspected.
Proof.
  apply (formatError_lines Scenario.inspected (JS.VStr "TypeError")
           (fun _ => EmptyString) 1).
  reflexivity.
Defined.

(** X20, witness: [duration] on an empty array. *)
Lemma extend_is_read_only_witness :
  Static.named
    (Static.ArrayObject []
       {["duration"%string := Static.Descriptor 50 false false false]})
  !! "duration"%string
  = Some (Static.Descriptor 50 false false false) /\
  Static.elems
    (Static.ArrayObject []
       {["duration"%string := Static.Descriptor 50 false false false]})
  = Static.elems (@Static.empty_array Z) /\
  forall w, w <> 50 ->
    Static.extend
      (Static.ArrayObject []
         {["duration"%string := Static.Descriptor 50 false false false]})
      "duration" w
    = None.
Proof.
  apply (extend_is_read_only Static.empty_array
           (Static.ArrayObject []
              {["duration"%string := Static.Descriptor 50 false false false]})
           "duration" 50).
  apply SequenceFacts.extend_fresh. reflexivity.
Defined.
